(** * Scouting-report scoring pipeline: a shallow embedding

    This development embeds the scoring orchestrator
    ([player_scorers/score_runner.py]) and its batch driver
    ([player_scorers/batch_score.py]) and proves properties of them.

    Conventions of the embedding.
    - A Python [str] is a [list ascii]; an [ascii] stands for the code point
      of the same number, so the strings covered are those whose code points
      are below 256.
    - A [dict] used as a map is a [gmap]; a JSON object keeps its insertion
      order and is an association list.
    - Code that raises returns a [result] whose error side carries the
      exception.
    - Library code and surroundings outside the repository ([json.loads],
      the conversions of pydantic's lax mode, the language-model backends,
      the clock) are the fields of the class [Outside]; the definitions and
      the theorems hold for every instance of it, and [reference_outside]
      is one instance, on which the definitions run. *)

From Stdlib Require Import ZArith Ascii String List Bool Lia.
From stdpp Require Import base option list sorting strings gmap fin_maps.

Set Warnings "-register-all,-clear-no-such-hyp".

Open Scope Z_scope.
Open Scope list_scope.

(** ** Python strings *)

Abbreviation pystr := (list ascii).

(** [str "abc"] is the Python literal ['abc']. *)
Definition str (s : string) : pystr := list_ascii_of_string s.

Definition dquote : ascii := ascii_of_nat 34.
Definition newline : ascii := ascii_of_nat 10.

(** [jstr "{'a':1}"] is the text [{"a":1}]: apostrophes stand for double
    quotes, so that JSON text can be written down readably. *)
Definition jstr (s : string) : pystr :=
  map (fun c => if Ascii.eqb c "'" then dquote else c) (list_ascii_of_string s).

Module PyStr.

Definition code (c : ascii) : nat := nat_of_ascii c.

(** [str.isspace] on one character, which is also what [\s] matches in a
    [str] pattern: TAB..CR, FS..US, SPACE, NEL, NBSP. *)
Definition isspace (c : ascii) : bool :=
  let n := code c in
  ((9 <=? n) && (n <=? 13))%nat || ((28 <=? n) && (n <=? 32))%nat
  || (n =? 133)%nat || (n =? 160)%nat.

(** [str.lower] on one character: A-Z and the upper-case Latin-1 letters
    (all of 192..222 but the multiplication sign 215) move up by 32. *)
Definition lower_char (c : ascii) : ascii :=
  let n := code c in
  if ((65 <=? n) && (n <=? 90))%nat
     || ((192 <=? n) && (n <=? 222) && negb (n =? 215))%nat
  then ascii_of_nat (n + 32) else c.

Definition lower (s : pystr) : pystr := map lower_char s.

Definition isalnum_ascii (c : ascii) : bool :=
  let n := code c in
  ((48 <=? n) && (n <=? 57))%nat || ((65 <=? n) && (n <=? 90))%nat
  || ((97 <=? n) && (n <=? 122))%nat.

Fixpoint lstrip (s : pystr) : pystr :=
  match s with
  | c :: s' => if isspace c then lstrip s' else s
  | [] => []
  end.

Definition rstrip (s : pystr) : pystr := rev (lstrip (rev s)).

(** [s.strip()] *)
Definition strip (s : pystr) : pystr := rstrip (lstrip s).

(** [s.replace(a, b)] for one-character [a] and [b]. *)
Definition replace_char (a b : ascii) (s : pystr) : pystr :=
  map (fun c => if Ascii.eqb c a then b else c) s.

(** [s.startswith(p)] *)
Fixpoint startswith (p s : pystr) : bool :=
  match p, s with
  | [], _ => true
  | a :: p', b :: s' => Ascii.eqb a b && startswith p' s'
  | _ :: _, [] => false
  end.

(** [s.endswith(p)] *)
Definition endswith (p s : pystr) : bool := startswith (rev p) (rev s).

(** [s.find(c)] for a one-character [c]; [None] stands for [-1]. *)
Fixpoint find_char (c : ascii) (s : pystr) : option nat :=
  match s with
  | [] => None
  | x :: s' => if Ascii.eqb x c then Some O else S <$> find_char c s'
  end.

(** [s.rfind(c)] for a one-character [c]. *)
Fixpoint rfind_char (c : ascii) (s : pystr) : option nat :=
  match s with
  | [] => None
  | x :: s' =>
      match rfind_char c s' with
      | Some i => Some (S i)
      | None => if Ascii.eqb x c then Some O else None
      end
  end.

(** Comparison of two strings by code points, [a <= b] in Python. *)
Fixpoint leb (a b : pystr) : bool :=
  match a, b with
  | [], _ => true
  | _ :: _, [] => false
  | x :: a', y :: b' =>
      if (code x <? code y)%nat then true
      else if (code y <? code x)%nat then false
      else leb a' b'
  end.

Definition le (a b : pystr) : Prop := Is_true (leb a b).

#[global] Instance le_dec : RelDecision le :=
  fun a b => Is_true_dec (leb a b).

End PyStr.

(** ** Paths ([pathlib.PurePath]) *)

(** A path is the list of its components below a fixed anchor; the last
    one is its name. *)
Abbreviation path := (list pystr).

Module PyPath.

(** [p.name] *)
Definition name (p : path) : pystr := List.last p [].

(** [p.parent]; the anchor is its own parent. *)
Definition parent (p : path) : path := removelast p.

(** [p / n] *)
Definition child (p : path) (n : pystr) : path := p ++ [n].

(** The index at which [name] splits into stem and suffix: the last dot,
    unless it is the first or the last character. *)
Definition split_at (n : pystr) : option nat :=
  match PyStr.rfind_char "." n with
  | Some i => if ((0 <? i) && (i <? length n - 1))%nat then Some i else None
  | None => None
  end.

(** [p.suffix] *)
Definition suffix (p : path) : pystr :=
  match split_at (name p) with
  | Some i => drop i (name p)
  | None => []
  end.

(** [p.stem] *)
Definition stem (p : path) : pystr :=
  match split_at (name p) with
  | Some i => take i (name p)
  | None => name p
  end.

(** [p.with_name(n)]: [ValueError] ([None]) when [p] has no name or [n]
    is empty, is [.] or contains a separator. *)
Definition with_name (p : path) (n : pystr) : option path :=
  match name p, n with
  | [], _ => None
  | _, [] => None
  | _, _ =>
      if bool_decide (n = str ".") || bool_decide ("/"%char ∈ n) then None
      else Some (child (parent p) n)
  end.

End PyPath.

(** ** The batch driver's naming convention ([batch_score.py]) *)

(** [_slugify]: [text.strip().lower().replace(" ", "_").replace("-", "_")] *)
Definition _slugify (text : pystr) : pystr :=
  PyStr.replace_char "-" "_"
    (PyStr.replace_char " " "_" (PyStr.lower (PyStr.strip text))).

(** One roster row after [_iter_roster_players]. *)
Record player := {
  team_name : pystr;
  team_slug : pystr;
  first : pystr;
  last : pystr;
  player_slug : pystr;
}.

(** A row of [csv.DictReader]: column name to cell. *)
Abbreviation csv_row := (gmap pystr pystr).

(** [a or b] on the results of [dict.get]: the first one that is a
    non-empty string. *)
Definition py_or (a b : option pystr) : option pystr :=
  match a with
  | Some (_ :: _) => a
  | _ => b
  end.

(** [(row.get(k1) or row.get(k2) or "").strip()] *)
Definition cell (row : csv_row) (k1 k2 : pystr) : pystr :=
  PyStr.strip (default [] (py_or (py_or (row !! k1) (row !! k2)) (Some []))).

(** The body of the loop of [_iter_roster_players]: the row's player, or
    [None] when the row is passed over. *)
Definition roster_player (row : csv_row) : option player :=
  let team := cell row (str "team_name") (str "Team") in
  let fst_ := cell row (str "firstName") (str "First") in
  let lst := cell row (str "lastName") (str "Last") in
  match team, fst_, lst with
  | _ :: _, _ :: _, _ :: _ =>
      Some {| team_name := team;
              team_slug := _slugify team;
              first := fst_;
              last := lst;
              player_slug := _slugify (fst_ ++ str "_" ++ lst) |}
  | _, _, _ => None
  end.

(** [list(_iter_roster_players(roster_csv))] *)
Definition _iter_roster_players (rows : list csv_row) : list player :=
  omap roster_player rows.

(** The index of the available summaries. *)
Record md_index := {
  stems_to_paths : gmap pystr path;
  available_stems : list pystr;
}.

(** [{p.stem.lower(): p for p in md_files}]: a later file replaces an
    earlier one with the same key. *)
Definition index_stems (md_files : list path) : gmap pystr path :=
  foldl (fun m p => <[PyStr.lower (PyPath.stem p) := p]> m) ∅ md_files.

(** [batch_score.main]: [available_stems = sorted(stems_to_paths.keys())] *)
Definition build_index (md_files : list path) : md_index :=
  let m := index_stems md_files in
  {| stems_to_paths := m;
     available_stems := merge_sort PyStr.le (map_to_list m).*1 |}.

(** [candidate_stems] *)
Definition candidate_stems (pl : player) : list pystr :=
  [team_slug pl ++ str "_" ++ player_slug pl; player_slug pl].

(** The first loop: the first candidate stem that is indexed. *)
Fixpoint first_indexed (m : gmap pystr path) (stems : list pystr) : option path :=
  match stems with
  | [] => None
  | stem :: rest =>
      match m !! stem with
      | Some p => Some p
      | None => first_indexed m rest
      end
  end.

(** The relaxed search: the first available stem that ends with the
    player slug. *)
Definition relaxed_search (idx : md_index) (slug : pystr) : option path :=
  match List.find (PyStr.endswith slug) (available_stems idx) with
  | Some stem => stems_to_paths idx !! stem
  | None => None
  end.

(** The summary chosen for a player, [md] in [main]. *)
Definition find_summary (idx : md_index) (pl : player) : option path :=
  match first_indexed (stems_to_paths idx) (candidate_stems pl) with
  | Some p => Some p
  | None => relaxed_search idx (player_slug pl)
  end.

(** [out_filename] *)
Definition out_filename (pl : player) : pystr :=
  team_slug pl ++ str "_" ++ player_slug pl ++ str ".json".

(** ** Values, exceptions and what lies outside the repository *)

(** The Python values that [json.loads] produces. A float keeps the text of
    its literal; a JSON object keeps its pairs in insertion order. *)
Inductive pyval :=
| PNone
| PBool (b : bool)
| PInt (z : Z)
| PFloat (literal : pystr)
| PStr (s : pystr)
| PList (items : list pyval)
| PDict (pairs : list (pystr * pyval)).

(** [d.get(k)] *)
Definition dict_get (k : pystr) (d : list (pystr * pyval)) : option pyval :=
  snd <$> List.find (fun kv => bool_decide (kv.1 = k)) d.

(** The exceptions (all of them instances of [Exception]) that the modelled
    code raises or receives. *)
Inductive exn :=
| ValueError (msg : pystr)
| ValidationError (input : pyval)
| RuntimeError (msg : pystr)
| OSError (p : path)
| BackendError (msg : pystr).

Inductive result (A : Type) :=
| Ok (a : A)
| Raise (e : exn).
Arguments Ok {A} a.
Arguments Raise {A} e.

#[global] Instance result_ret : MRet result := @Ok.
#[global] Instance result_bind : MBind result :=
  fun A B f r => match r with Ok a => f a | Raise e => Raise e end.
#[global] Instance result_fmap : FMap result :=
  fun A B f r => match r with Ok a => Ok (f a) | Raise e => Raise e end.

Definition is_ok {A} (r : result A) : bool :=
  match r with Ok _ => true | Raise _ => false end.

(** [try: r except Exception: d] for a pure [r]. *)
Definition or_else {A} (r : result A) (d : A) : A :=
  match r with Ok a => a | Raise _ => d end.

(** A chat model as the chains use it: the content of its reply to the
    prompt built from a summary, and the arguments of its reply when it is
    bound to a structured output; either call may raise. *)
Record llm := {
  ainvoke : pystr -> result pystr;
  ainvoke_structured : pystr -> result pyval;
}.

(** Library code and surroundings that the repository relies on. *)
Class Outside := {
  (** [json.loads]; [None] when it raises. *)
  json_loads : pystr -> option pyval;
  (** [json.dumps(_, ensure_ascii=False, indent=2)] *)
  json_dumps : pyval -> pystr;
  (** pydantic's lax-mode conversion to [int] of a value that is not an
      [int] already (a bool, a float, a string). *)
  int_of_lax : pyval -> option Z;
  (** [datetime.now(timezone.utc).isoformat()] at the [n]-th moment at
      which an adapter call or the orchestrator completes. *)
  utc_now : nat -> pystr;
  (** [str.title] *)
  title : pystr -> pystr;
  (** [str(e)] for an exception [e] *)
  exn_str : exn -> pystr;
  (** [ChatOpenAI(model=..., base_url=...)]: the chat model reached at a
      base URL ([None] for the default one) under a model name. *)
  chat_model : option pystr -> pystr -> llm;
}.

(** ** The rating schema ([ScoreOutput]) *)

Record ScoreOutput := {
  model_name : pystr;
  current_rating : Z;
  future_rating : Z;
  current_confidence : Z;
  future_confidence : Z;
  reasoning : list pystr;
  timestamp : pystr;
  version : pystr;
}.

Section Schema.
Context `{!Outside}.

(** An [int] field in lax mode. *)
Definition as_int (v : pyval) : option Z :=
  match v with
  | PInt z => Some z
  | PBool _ | PFloat _ | PStr _ => int_of_lax v
  | PNone | PList _ | PDict _ => None
  end.

(** A [str] field. *)
Definition as_str (v : pyval) : option pystr :=
  match v with
  | PStr s => Some s
  | _ => None
  end.

(** A [List[str]] field. *)
Definition as_str_list (v : pyval) : option (list pystr) :=
  match v with
  | PList items => mapM as_str items
  | _ => None
  end.

(** [Field(..., ge=lo, le=hi)] on an [int] field. *)
Definition int_field (lo hi : Z) (k : pystr) (d : list (pystr * pyval)) : option Z :=
  v ← dict_get k d;
  z ← as_int v;
  if (lo <=? z) && (z <=? hi) then Some z else None.

(** [Field(...)] on a [str] field: required. *)
Definition str_field (k : pystr) (d : list (pystr * pyval)) : option pystr :=
  dict_get k d ≫= as_str.

(** [Field(default=dflt)] on a [str] field. *)
Definition str_field_default (dflt k : pystr) (d : list (pystr * pyval)) : option pystr :=
  match dict_get k d with
  | Some v => as_str v
  | None => Some dflt
  end.

(** [ensure_three_bullets] *)
Definition ensure_three_bullets (v : list pystr) : option (list pystr) :=
  if negb (length v =? 3)%nat then None else Some v.

(** [Field(..., min_items=3, max_items=3)] on [reasoning], then its
    validator. *)
Definition reasoning_field (d : list (pystr * pyval)) : option (list pystr) :=
  v ← dict_get (str "reasoning") d;
  l ← as_str_list v;
  if (3 <=? length l)%nat && (length l <=? 3)%nat
  then ensure_three_bullets l else None.

Definition validate_fields (d : list (pystr * pyval)) : option ScoreOutput :=
  mn ← str_field (str "model_name") d;
  cr ← int_field 1 9 (str "current_rating") d;
  fr ← int_field 1 9 (str "future_rating") d;
  cc ← int_field 0 100 (str "current_confidence") d;
  fc ← int_field 0 100 (str "future_confidence") d;
  rs ← reasoning_field d;
  ts ← str_field (str "timestamp") d;
  ver ← str_field_default (str "1.0") (str "version") d;
  Some {| model_name := mn; current_rating := cr; future_rating := fr;
          current_confidence := cc; future_confidence := fc;
          reasoning := rs; timestamp := ts; version := ver |}.

(** [ScoreOutput.model_validate(obj)] *)
Definition model_validate (obj : pyval) : result ScoreOutput :=
  match obj with
  | PDict d =>
      match validate_fields d with
      | Some out => Ok out
      | None => Raise (ValidationError obj)
      end
  | _ => Raise (ValidationError obj)
  end.

End Schema.

(** ** The response normalizer *)

Module Re.

(** A literal pattern under [re.IGNORECASE] at the start of [s]. *)
Fixpoint prefix_ci (p s : pystr) : bool :=
  match p, s with
  | [], _ => true
  | a :: p', b :: s' =>
      Ascii.eqb (PyStr.lower_char a) (PyStr.lower_char b) && prefix_ci p' s'
  | _ :: _, [] => false
  end.

(** The offset of the first place at which the literal [p] matches,
    ignoring case. *)
Fixpoint find_ci (p s : pystr) {struct s} : option nat :=
  if prefix_ci p s then Some O
  else match s with
       | [] => None
       | _ :: s' => S <$> find_ci p s'
       end.

(** [re.sub(pattern, "", s)] for a pattern that matches no empty string:
    [match_len] gives the length of the pattern's match at the start of
    its argument; [skip] characters of a match remain to be dropped. *)
Fixpoint sub_empty (match_len : pystr -> option nat) (skip : nat) (s : pystr) : pystr :=
  match s with
  | [] => []
  | c :: s' =>
      match skip with
      | S k => sub_empty match_len k s'
      | O =>
          match match_len s with
          | Some (S k) => sub_empty match_len k s'
          | _ => c :: sub_empty match_len O s'
          end
      end
  end.

Definition open_tag : pystr := str "<think>".
Definition close_tag : pystr := str "</think>".

(** [<think>[\s\S]*?</think>] at the start of [s]: the opening tag, the
    fewest characters, the closing tag. *)
Definition think_block (s : pystr) : option nat :=
  if prefix_ci open_tag s
  then (fun k => length open_tag + k + length close_tag)%nat
         <$> find_ci close_tag (drop (length open_tag) s)
  else None.

(** [</?think>] at the start of [s]. *)
Definition think_tag (s : pystr) : option nat :=
  if prefix_ci close_tag s then Some (length close_tag)
  else if prefix_ci open_tag s then Some (length open_tag)
  else None.

Definition fence_open : pystr := str "```json".
Definition fence_close : pystr := str "```".

(** [[\s\S]*?\}\s*```] at the start of [s]: the matched text up to and
    including the closing brace of the shortest match. *)
Fixpoint lazy_to_brace (s : pystr) : option pystr :=
  match s with
  | [] => None
  | c :: s' =>
      if Ascii.eqb c "}" && PyStr.startswith fence_close (PyStr.lstrip s')
      then Some [c]
      else (c ::.) <$> lazy_to_brace s'
  end.

(** The whole pattern [```json\s*(\{[\s\S]*?\})\s*```] at the start of
    [s]: its group 1. *)
Definition fenced_at (s : pystr) : option pystr :=
  if PyStr.startswith fence_open s then
    match PyStr.lstrip (drop (length fence_open) s) with
    | c :: r => if Ascii.eqb c "{" then (c ::.) <$> lazy_to_brace r else None
    | [] => None
    end
  else None.

(** [re.search] of that pattern: group 1 of the leftmost match. *)
Fixpoint search_fenced (s : pystr) {struct s} : option pystr :=
  match fenced_at s with
  | Some g => Some g
  | None => match s with
            | [] => None
            | _ :: s' => search_fenced s'
            end
  end.

End Re.

(** [_strip_think_blocks] *)
Definition _strip_think_blocks (text : pystr) : pystr :=
  let cleaned := Re.sub_empty Re.think_block O text in
  Re.sub_empty Re.think_tag O cleaned.

(** The loop of [_extract_json_object] from [start] on: the number of
    characters up to and including the brace that brings [depth] back to
    zero, if the loop gets that far. *)
Fixpoint balanced_span (depth : Z) (s : pystr) : option nat :=
  match s with
  | [] => None
  | ch :: s' =>
      if Ascii.eqb ch "{" then S <$> balanced_span (depth + 1) s'
      else if Ascii.eqb ch "}" then
        let depth := depth - 1 in
        if depth =? 0 then Some 1%nat else S <$> balanced_span depth s'
      else S <$> balanced_span depth s'
  end.

(** [candidate]: the first balanced span of [text], if any. *)
Definition first_balanced (text : pystr) : option pystr :=
  start ← PyStr.find_char "{" text;
  n ← balanced_span 0 (drop start text);
  Some (take n (drop start text)).

Definition extraction_error : exn :=
  ValueError (str "Could not extract JSON object from model output").

Section Normalizer.
Context `{!Outside}.

(** [_extract_json_object] *)
Definition _extract_json_object (text : pystr) : result pyval :=
  match json_loads text with
  | Some v => Ok v
  | None =>
      match Re.search_fenced text ≫= json_loads with
      | Some v => Ok v
      | None =>
          match first_balanced text with
          | Some candidate =>
              match json_loads candidate with
              | Some v => Ok v
              | None => Raise extraction_error
              end
          | None => Raise extraction_error
          end
      end
  end.

End Normalizer.

(** ** The model adapters *)

(** What [build_chain] and its siblings return: [run], here applied to
    the summary and to the reading of the clock at the moment it
    completes. *)
Abbreviation runner := (pystr -> pystr -> result ScoreOutput).

(** [data["model_name"] = model_name; data["timestamp"] = now] *)
Definition stamp (name now : pystr) (data : ScoreOutput) : ScoreOutput :=
  {| model_name := name;
     current_rating := current_rating data;
     future_rating := future_rating data;
     current_confidence := current_confidence data;
     future_confidence := future_confidence data;
     reasoning := reasoning data;
     timestamp := now;
     version := version data |}.

Section Adapters.
Context `{!Outside}.

(** [build_chain]: the structured reply is coerced to [ScoreOutput]. *)
Definition build_chain (l : llm) (name : pystr) : runner :=
  fun player_summary_markdown now =>
    args ← ainvoke_structured l player_summary_markdown;
    data ← model_validate args;
    Ok (stamp name now data).

(** [build_chain_plain_json] *)
Definition build_chain_plain_json (l : llm) (name : pystr) : runner :=
  fun player_summary_markdown now =>
    content ← ainvoke l player_summary_markdown;
    data_raw ← _extract_json_object content;
    data ← model_validate data_raw;
    Ok (stamp name now data).

(** [build_chain_plain_json_for_deepseek] *)
Definition build_chain_plain_json_for_deepseek (l : llm) (name : pystr) : runner :=
  fun player_summary_markdown now =>
    content ← ainvoke l player_summary_markdown;
    let content := _strip_think_blocks content in
    data_raw ← _extract_json_object content;
    data ← model_validate data_raw;
    Ok (stamp name now data).

End Adapters.

(** ** The document loader *)

(** A file is readable text, or something that exists but whose
    [read_text] raises (a directory, bytes that are not UTF-8, no
    permission). *)
Inductive file :=
| Readable (text : pystr)
| Unreadable.

Record filesystem := {
  files : gmap path file;
  (** [Path.resolve] *)
  resolve : path -> path;
}.

(** [p.exists()] *)
Definition path_exists (fs : filesystem) (p : path) : bool :=
  bool_decide (is_Some (files fs !! p)).

(** [p.read_text(encoding="utf-8")] *)
Definition read_text (fs : filesystem) (p : path) : result pystr :=
  match files fs !! p with
  | Some (Readable text) => Ok text
  | _ => Raise (OSError p)
  end.

(** [p.write_text(text)] *)
Definition write_text (fs : filesystem) (p : path) (text : pystr) : filesystem :=
  {| files := <[p := Readable text]> (files fs); resolve := resolve fs |}.

Definition extended : pystr := str "_extended".

(** The separator of the merged document: a blank line, a horizontal
    rule, a blank line. *)
Definition separator : pystr :=
  [newline; newline] ++ str "---" ++ [newline; newline].

(** [wanted_name] *)
Definition wanted_name (primary_path : path) : pystr :=
  let stem := PyPath.stem primary_path in
  let suffix := PyPath.suffix primary_path in
  if PyStr.endswith extended stem
  then take (length stem - length extended) stem ++ suffix
  else stem ++ extended ++ suffix.

(** [p.exists() and p.resolve() != primary_path.resolve()] *)
Definition is_companion (fs : filesystem) (primary_path p : path) : bool :=
  path_exists fs p && negb (bool_decide (resolve fs p = resolve fs primary_path)).

(** [companion_path]: beside the primary first, then in the
    [player_summaries] directory beside the primary's directory. *)
Definition locate_companion (fs : filesystem) (primary_path companion : path)
    (wanted : pystr) : option path :=
  if is_companion fs primary_path companion then Some companion
  else
    let root_dir := PyPath.parent (PyPath.parent primary_path) in
    let candidate := PyPath.child (PyPath.child root_dir (str "player_summaries")) wanted in
    if is_companion fs primary_path candidate then Some candidate else None.

(** [_load_merged_markdown] *)
Definition _load_merged_markdown (fs : filesystem) (primary_path : path) : result pystr :=
  let primary_text := or_else (read_text fs primary_path) [] in
  let wanted := wanted_name primary_path in
  match PyPath.with_name primary_path wanted with
  | None => Raise (ValueError (str "Invalid name"))
  | Some companion =>
      match locate_companion fs primary_path companion wanted with
      | Some companion_path =>
          match read_text fs companion_path with
          | Ok companion_text => Ok (primary_text ++ separator ++ companion_text)
          | Raise _ => Ok primary_text
          end
      | None => Ok primary_text
      end
  end.

(** ** The scoring orchestrator *)

Record ScoringError := {
  se_model_name : pystr;
  (** the exception [res]; the file holds [str(res)] *)
  se_error : exn;
}.

Record AggregateResult := {
  player_name : pystr;
  ratings : list ScoreOutput;
  generated_at : pystr;
  schema_version : pystr;
  (** present only when some adapter failed *)
  errors : option (list ScoringError);
}.

Abbreviation chain := (pystr * runner)%type.

(** An adapter call in flight: what it returns when it completes at a
    given reading of the clock. *)
Abbreviation task := (pystr -> result ScoreOutput).

Section Orchestrator.
Context `{!Outside}.

(** The adapter calls complete in the order [order]; the call with
    index [i] leaves its outcome in slot [i], whenever it completes, and
    reads the clock as it does. [tick] counts the completions. *)
Fixpoint complete (tasks : list task) (order : list nat)
    (slots : list (option (result ScoreOutput))) (tick : nat)
    : list (option (result ScoreOutput)) * nat :=
  match order with
  | [] => (slots, tick)
  | i :: order' =>
      match tasks !! i with
      | Some t => complete tasks order' (<[i := Some (t (utc_now tick))]> slots) (S tick)
      | None => complete tasks order' slots tick
      end
  end.

(** The order in which [n] calls started together complete when call
    [i] takes [delay i]: by increasing delay. *)
Definition completion_order (delay : nat -> nat) (n : nat) : list nat :=
  @merge_sort nat (fun i j => (delay i <= delay j)%nat)
    (fun i j => decide (delay i <= delay j)%nat) (seq 0 n).

(** [await asyncio.gather( *coros, return_exceptions=True)]: the outcomes
    in the order of the calls, once every call has completed. *)
Definition gather (tasks : list task) (delay : nat -> nat) (tick : nat)
    : list (result ScoreOutput) * nat :=
  let '(slots, tick') :=
    complete tasks (completion_order delay (length tasks))
             (replicate (length tasks) None) tick in
  (omap id slots, tick').

(** The loop over [zip(chains, gathered)]. *)
Definition collect_step (acc : list ScoreOutput * list ScoringError)
    (item : chain * result ScoreOutput) : list ScoreOutput * list ScoringError :=
  let '(results, errs) := acc in
  let '((name, _), res) := item in
  match res with
  | Raise e => (results, errs ++ [{| se_model_name := name; se_error := e |}])
  | Ok r => (results ++ [r], errs)
  end.

Definition collect (chains : list chain) (gathered : list (result ScoreOutput))
    : list ScoreOutput * list ScoringError :=
  foldl collect_step ([], []) (zip chains gathered).

(** [re.sub(r"[_-]+", " ", slug)] *)
Fixpoint spaced (in_run : bool) (slug : pystr) : pystr :=
  match slug with
  | [] => []
  | c :: s' =>
      if Ascii.eqb c "_" || Ascii.eqb c "-"
      then (if in_run then spaced true s' else " "%char :: spaced true s')
      else c :: spaced false s'
  end.

(** [player_name] *)
Definition display_name (player_summary_path : path) : pystr :=
  match PyPath.stem player_summary_path with
  | [] => str "unknown"
  | slug => title (spaced false slug)
  end.

(** [aggregate] *)
Definition make_aggregate (player : pystr) (results : list ScoreOutput)
    (errs : list ScoringError) (now : pystr) : AggregateResult :=
  {| player_name := player;
     ratings := results;
     generated_at := now;
     schema_version := str "1.0";
     errors := match errs with [] => None | _ :: _ => Some errs end |}.

Definition rating_dict (r : ScoreOutput) : pyval :=
  PDict [(str "model_name", PStr (model_name r));
         (str "current_rating", PInt (current_rating r));
         (str "future_rating", PInt (future_rating r));
         (str "current_confidence", PInt (current_confidence r));
         (str "future_confidence", PInt (future_confidence r));
         (str "reasoning", PList (PStr <$> reasoning r));
         (str "timestamp", PStr (timestamp r));
         (str "version", PStr (version r))].

Definition error_dict (e : ScoringError) : pyval :=
  PDict [(str "model_name", PStr (se_model_name e));
         (str "error", PStr (exn_str (se_error e)))].

Definition aggregate_dict (a : AggregateResult) : pyval :=
  PDict ([(str "player", PStr (player_name a));
          (str "ratings", PList (rating_dict <$> ratings a));
          (str "generated_at", PStr (generated_at a));
          (str "schema_version", PStr (schema_version a))]
         ++ match errors a with
            | Some errs => [(str "errors", PList (error_dict <$> errs))]
            | None => []
            end).

(** [score_all] from "Run in parallel" on: the aggregate it builds from
    the chains and the file system it leaves. *)
Definition score_chains (chains : list chain) (delay : nat -> nat) (tick : nat)
    (markdown : pystr) (fs : filesystem) (player_summary_path out_path : path)
    : AggregateResult * filesystem :=
  let coros : list task := (fun c : chain => c.2 markdown) <$> chains in
  let '(gathered, tick') := gather coros delay tick in
  let '(results, errs) := collect chains gathered in
  let aggregate :=
    make_aggregate (display_name player_summary_path) results errs (utc_now tick') in
  (aggregate, write_text fs out_path (json_dumps (aggregate_dict aggregate))).

End Orchestrator.

(** *** Configuration of the chains *)

(** [os.environ] *)
Abbreviation environ := (gmap pystr pystr).

(** The truth value of an optional string. *)
Definition truthy (o : option pystr) : bool :=
  match o with
  | Some (_ :: _) => true
  | _ => false
  end.

(** [a or b] where [b] is a string. *)
Definition or_str (a : option pystr) (b : pystr) : pystr :=
  match a with
  | Some (c :: s) => c :: s
  | _ => b
  end.

(** The arguments of [score_all] that select the chains. *)
Record scorer_args := {
  llama_model_name : option pystr;
  deepseek_model_name : option pystr;
  oss_model_name : option pystr;
  skip_llama : bool;
  skip_deepseek : bool;
  skip_oss : bool;
}.

Section Configuration.
Context `{!Outside}.

(** [make_openai] *)
Definition make_openai (env : environ) (model : pystr) : result llm :=
  if truthy (env !! str "OPENAI_API_KEY") then Ok (chat_model None model)
  else Raise (RuntimeError (str "Missing API key in env var OPENAI_API_KEY")).

(** [make_jetstream] *)
Definition make_jetstream (env : environ) (model : pystr) : result llm :=
  let base_url :=
    default (str "https://llm.jetstream-cloud.org/api") (env !! str "JETSTREAM_BASE_URL") in
  if truthy (env !! str "JETSTREAM_API_KEY") then Ok (chat_model (Some base_url) model)
  else Raise (RuntimeError (str "Missing JETSTREAM_API_KEY for Jetstream/vLLM models")).

(** [make_openrouter] *)
Definition make_openrouter (env : environ) (model : pystr) : result llm :=
  let base_url :=
    default (str "https://openrouter.ai/api/v1") (env !! str "OPENROUTER_BASE_URL") in
  if truthy (env !! str "OPENROUTER_API_KEY") then Ok (chat_model (Some base_url) model)
  else Raise (RuntimeError (str "Missing OPENROUTER_API_KEY for OpenRouter models")).

(** One OpenRouter scorer inside its [try]: a configuration error skips
    it. *)
Definition openrouter_chain (env : environ) (model : pystr) : list chain :=
  match make_openrouter env model with
  | Ok l => [(model, build_chain_plain_json l model)]
  | Raise _ => []
  end.

(** The optional OpenRouter scorers: Gemini, Opus, Maverick. *)
Definition openrouter_chains (env : environ) : list chain :=
  if truthy (env !! str "OPENROUTER_API_KEY") then
    (if truthy (env !! str "GEMINI_MODEL")
     then openrouter_chain env (default [] (env !! str "GEMINI_MODEL")) else [])
    ++ (if truthy (env !! str "OPUS_MODEL")
        then openrouter_chain env (default [] (env !! str "OPUS_MODEL")) else [])
    ++ openrouter_chain env
         (or_str (env !! str "MAVERICK_MODEL") (str "meta-llama/llama-4-maverick:free"))
  else [].

(** [score_all] from "Instantiate models" to "Run in parallel": the
    list [chains]. *)
Definition build_chains (env : environ) (args : scorer_args) : result (list chain) :=
  gpt5 ← make_openai env (str "gpt-5");
  gpt5_mini ← make_openai env (str "gpt-5-mini");
  let deepseek_model :=
    or_str (deepseek_model_name args)
      (or_str (env !! str "DEEPSEEK_MODEL") (str "DeepSeek-R1")) in
  let deepseek_model :=
    if bool_decide (PyStr.replace_char "_" "-" (PyStr.lower deepseek_model)
                    = str "deepseek-r1")
    then str "DeepSeek-R1" else deepseek_model in
  let llama_model :=
    or_str (llama_model_name args) (default (str "llama-4-scout") (env !! str "LLAMA_MODEL")) in
  let oss_model :=
    or_str (oss_model_name args) (or_str (env !! str "OSS_MODEL") (str "gpt-oss-120b")) in
  deepseek ← make_jetstream env deepseek_model;
  llama ← make_jetstream env llama_model;
  oss ← make_jetstream env oss_model;
  Ok ([(str "gpt-5", build_chain gpt5 (str "gpt-5"));
       (str "gpt-5-mini", build_chain gpt5_mini (str "gpt-5-mini"))]
      ++ (if skip_deepseek args then []
          else [(deepseek_model, build_chain_plain_json_for_deepseek deepseek deepseek_model)])
      ++ (if skip_llama args then [] else [(llama_model, build_chain llama llama_model)])
      ++ (if skip_oss args then [] else [(oss_model, build_chain_plain_json oss oss_model)])
      ++ openrouter_chains env).

(** [score_all]: the file system it leaves, or the exception it lets
    through. *)
Definition score_all (env : environ) (delay : nat -> nat) (tick : nat)
    (fs : filesystem) (player_summary_path out_path : path) (args : scorer_args)
    : result filesystem :=
  markdown ← _load_merged_markdown fs player_summary_path;
  chains ← build_chains env args;
  Ok (score_chains chains delay tick markdown fs player_summary_path out_path).2.

End Configuration.

(** ** The batch driver *)

(** One scoring of a summary into an output path: whether it completed
    without raising, and the file system it leaves. *)
Abbreviation scorer := (path -> path -> filesystem -> bool * filesystem).

Record driver_state := {
  st_fs : filesystem;
  successes : nat;
  failures : nat;
  (** the summaries handed to the scorer, in order *)
  scored : list path;
}.

Definition ratings_dir (input_dir : path) : path :=
  PyPath.child (PyPath.parent input_dir) (str "ratings").

(** The body of the loop over the roster, from the search for the summary
    on. *)
Definition process_row (run : scorer) (input_dir : path) (idx : md_index)
    (st : driver_state) (pl : player) : driver_state :=
  match find_summary idx pl with
  | None => st
  | Some md =>
      let out_path := PyPath.child (ratings_dir input_dir) (out_filename pl) in
      if path_exists (st_fs st) out_path then st
      else
        let '(completed, fs') := run md out_path (st_fs st) in
        {| st_fs := fs';
           successes := if completed then S (successes st) else successes st;
           failures := if completed then failures st else S (failures st);
           scored := scored st ++ [md] |}
  end.

Definition initial_state (fs : filesystem) : driver_state :=
  {| st_fs := fs; successes := O; failures := O; scored := [] |}.

(** [batch_score.main]: [md_files] is [sorted(input_dir.glob(pattern))]
    and [rows] the rows of the roster. *)
Definition batch_main (run : scorer) (input_dir : path) (md_files : list path)
    (rows : list csv_row) (fs : filesystem) : driver_state :=
  foldl (process_row run input_dir (build_index md_files))
        (initial_state fs) (_iter_roster_players rows).

(** [score_runner.main --from-roster]: there [available_stems] is
    [list(stems_to_paths.keys())], the keys in the order in which they were
    first inserted. *)
Definition insertion_order (md_files : list path) : list pystr :=
  foldl (fun ks p =>
           let k := PyStr.lower (PyPath.stem p) in
           if bool_decide (k ∈ ks) then ks else ks ++ [k])
        [] md_files.

Definition build_index_roster (md_files : list path) : md_index :=
  {| stems_to_paths := index_stems md_files;
     available_stems := insertion_order md_files |}.

Definition roster_main (run : scorer) (summaries_dir : path) (md_files : list path)
    (rows : list csv_row) (fs : filesystem) : driver_state :=
  foldl (process_row run summaries_dir (build_index_roster md_files))
        (initial_state fs) (_iter_roster_players rows).

(** The file system of the drivers and of the scorers below is that of the
    summaries and of the ratings. The lines that [score_runner.py] appends
    to [logs/score_runner.log], when it is loaded and as it runs, are not
    part of it: no statement is made about that file. *)

(** A scorer that writes its output path and nothing else when it
    completes, and nothing when it fails. *)
Definition writes_output_only (run : scorer) : Prop :=
  ∀ md out fs,
    match run md out fs with
    | (true, fs') => ∃ text, fs' = write_text fs out text
    | (false, fs') => fs' = fs
    end.

(** What both drivers rely on in a scorer, as far as the ratings directory
    goes: when it completes the output path exists, and of the files of the
    ratings directory it changes none but the output path. What it writes
    elsewhere, its log for one, is left open. *)
Definition writes_one_rating (ratings : path) (run : scorer) : Prop :=
  ∀ md out fs,
    ((run md out fs).1 = true → path_exists (run md out fs).2 out = true)
    ∧ ∀ p, PyPath.parent p = ratings → p ≠ out →
           files (run md out fs).2 !! p = files fs !! p.

Section Scorers.
Context `{!Outside}.

(** The scorer of [score_runner.main --from-roster]:
    [asyncio.run(score_all(...))] inside [try ... except Exception].
    [delay_of] gives the delays of the adapter calls for a summary. The
    lines it logs are left out, as said above. *)
Definition in_process_scorer (env : environ) (args : scorer_args)
    (delay_of : path -> nat -> nat) (tick : nat) : scorer :=
  fun md out fs =>
    match score_all env (delay_of md) tick fs md out args with
    | Ok fs' => (true, fs')
    | Raise _ => (false, fs)
    end.

(** The scorer of [batch_score.main]:
    [subprocess.run([python, score_runner.py, "--input", md, "--output",
    out_path, ...], check=True)], that is [score_runner.main] in its
    single-file mode, which raises when the input does not exist and
    otherwise runs [score_all]. The two paths lie below a directory that
    the driver has resolved already. The lines that the subprocess logs
    are left out, as said above. *)
Definition subprocess_scorer (env : environ) (args : scorer_args)
    (delay_of : path -> nat -> nat) (tick : nat) : scorer :=
fun md out fs =>
  if path_exists fs md then in_process_scorer env args delay_of tick md out fs
  else (false, fs).

End Scorers.

(** ** A reference instance of the surroundings

    A small JSON reader, used to run the definitions above on concrete
    replies. It reads RFC 8259 JSON without [\u] escapes. *)

Module MiniJson.

Definition is_ws (c : ascii) : bool :=
  Ascii.eqb c " " || (PyStr.code c =? 9)%nat || (PyStr.code c =? 10)%nat
  || (PyStr.code c =? 13)%nat.

Fixpoint skip_ws (s : pystr) : pystr :=
  match s with
  | c :: s' => if is_ws c then skip_ws s' else s
  | [] => []
  end.

Definition is_digit (c : ascii) : bool :=
  ((48 <=? PyStr.code c) && (PyStr.code c <=? 57))%nat.

Fixpoint digits (s : pystr) : pystr * pystr :=
  match s with
  | c :: s' => if is_digit c then let '(d, r) := digits s' in (c :: d, r) else ([], s)
  | [] => ([], [])
  end.

Definition digits_value (d : pystr) : Z :=
  foldl (fun acc c => 10 * acc + Z.of_nat (PyStr.code c - 48)) 0 d.

(** The integer part: [0], or digits without a leading zero. *)
Definition int_part (s : pystr) : option (pystr * pystr) :=
  match digits s with
  | ([], _) => None
  | (c :: d, r) => if Ascii.eqb c "0" && negb (bool_decide (d = [])) then None
                   else Some (c :: d, r)
  end.

Definition frac_part (s : pystr) : option (pystr * pystr) :=
  match s with
  | c :: s' =>
      if Ascii.eqb c "." then
        match digits s' with
        | ([], _) => None
        | (d, r) => Some (c :: d, r)
        end
      else Some ([], s)
  | [] => Some ([], [])
  end.

Definition exp_part (s : pystr) : option (pystr * pystr) :=
  match s with
  | c :: s' =>
      if Ascii.eqb c "e" || Ascii.eqb c "E" then
        let '(sign, s'') :=
          match s' with
          | x :: r => if Ascii.eqb x "+" || Ascii.eqb x "-" then ([x], r) else ([], s')
          | [] => ([], [])
          end in
        match digits s'' with
        | ([], _) => None
        | (d, r) => Some (c :: sign ++ d, r)
        end
      else Some ([], s)
  | [] => Some ([], [])
  end.

Definition number (s : pystr) : option (pyval * pystr) :=
  let '(neg, s1) :=
    match s with
    | c :: r => if Ascii.eqb c "-" then (true, r) else (false, s)
    | [] => (false, [])
    end in
  '(i, s2) ← int_part s1;
  '(f, s3) ← frac_part s2;
  '(e, s4) ← exp_part s3;
  match f, e with
  | [], [] => Some (PInt (if neg then - digits_value i else digits_value i), s4)
  | _, _ => Some (PFloat ((if neg then ["-"%char] else []) ++ i ++ f ++ e), s4)
  end.

Definition unescape (c : ascii) : option ascii :=
  if Ascii.eqb c dquote then Some dquote
  else if Ascii.eqb c "\" then Some "\"%char
  else if Ascii.eqb c "/" then Some "/"%char
  else if Ascii.eqb c "b" then Some (ascii_of_nat 8)
  else if Ascii.eqb c "f" then Some (ascii_of_nat 12)
  else if Ascii.eqb c "n" then Some (ascii_of_nat 10)
  else if Ascii.eqb c "r" then Some (ascii_of_nat 13)
  else if Ascii.eqb c "t" then Some (ascii_of_nat 9)
  else None.

(** The characters of a string after its opening quote. *)
Fixpoint string_body (s : pystr) : option (pystr * pystr) :=
  match s with
  | [] => None
  | c :: s' =>
      if Ascii.eqb c dquote then Some ([], s')
      else if Ascii.eqb c "\" then
        match s' with
        | e :: s'' =>
            x ← unescape e;
            '(body, r) ← string_body s'';
            Some (x :: body, r)
        | [] => None
        end
      else if (PyStr.code c <? 32)%nat then None
      else '(body, r) ← string_body s'; Some (c :: body, r)
  end.

(** [d[k] = v] on an association list. *)
Fixpoint dict_set (k : pystr) (v : pyval) (d : list (pystr * pyval)) : list (pystr * pyval) :=
  match d with
  | [] => [(k, v)]
  | (k', v') :: d' => if bool_decide (k' = k) then (k, v) :: d' else (k', v') :: dict_set k v d'
  end.

Definition literal (word : pystr) (v : pyval) (s : pystr) : option (pyval * pystr) :=
  if PyStr.startswith word s then Some (v, drop (length word) s) else None.

Fixpoint value (fuel : nat) (s : pystr) {struct fuel} : option (pyval * pystr) :=
  match fuel with
  | O => None
  | S fuel' =>
      match skip_ws s with
      | [] => None
      | c :: r =>
          if Ascii.eqb c "{" then
            match skip_ws r with
            | x :: r' => if Ascii.eqb x "}" then Some (PDict [], r')
                         else members fuel' [] (x :: r')
            | [] => None
            end
          else if Ascii.eqb c "[" then
            match skip_ws r with
            | x :: r' => if Ascii.eqb x "]" then Some (PList [], r')
                         else elements fuel' [] (x :: r')
            | [] => None
            end
          else if Ascii.eqb c dquote then
            '(body, r') ← string_body r; Some (PStr body, r')
          else if Ascii.eqb c "t" then literal (str "true") (PBool true) (c :: r)
          else if Ascii.eqb c "f" then literal (str "false") (PBool false) (c :: r)
          else if Ascii.eqb c "n" then literal (str "null") PNone (c :: r)
          else number (c :: r)
      end
  end
with elements (fuel : nat) (acc : list pyval) (s : pystr) {struct fuel}
    : option (pyval * pystr) :=
  match fuel with
  | O => None
  | S fuel' =>
      '(v, r) ← value fuel' s;
      match skip_ws r with
      | c :: r' =>
          if Ascii.eqb c "," then elements fuel' (acc ++ [v]) r'
          else if Ascii.eqb c "]" then Some (PList (acc ++ [v]), r')
          else None
      | [] => None
      end
  end
with members (fuel : nat) (acc : list (pystr * pyval)) (s : pystr) {struct fuel}
    : option (pyval * pystr) :=
  match fuel with
  | O => None
  | S fuel' =>
      match skip_ws s with
      | q :: r =>
          if Ascii.eqb q dquote then
            '(k, r1) ← string_body r;
            match skip_ws r1 with
            | c :: r2 =>
                if Ascii.eqb c ":" then
                  '(v, r3) ← value fuel' r2;
                  match skip_ws r3 with
                  | x :: r4 =>
                      if Ascii.eqb x "," then members fuel' (dict_set k v acc) r4
                      else if Ascii.eqb x "}" then Some (PDict (dict_set k v acc), r4)
                      else None
                  | [] => None
                  end
                else None
            | [] => None
            end
          else None
      | [] => None
      end
  end.

(** The whole text is one JSON value between optional whitespace. *)
Definition loads (s : pystr) : option pyval :=
  match value (2 * length s + 2) s with
  | Some (v, r) => match skip_ws r with [] => Some v | _ :: _ => None end
  | None => None
  end.

End MiniJson.

(** A model that replies with a fixed text, or raises. *)
Definition canned_llm (reply : result pystr) : llm :=
  {| ainvoke := fun _ => reply;
     ainvoke_structured := fun _ =>
       match reply with
       | Ok text => match MiniJson.loads text with
                    | Some v => Ok v
                    | None => Raise (BackendError (str "no structured output"))
                    end
       | Raise e => Raise e
       end |}.

(** The reference surroundings: the small JSON reader, no lax conversion,
    a clock that shows the count of completions, and models that never
    answer. *)
Definition reference_outside : Outside :=
  {| json_loads := MiniJson.loads;
     json_dumps := fun _ => str "{}";
     int_of_lax := fun _ => None;
     utc_now := fun n => str "T" ++ replicate n "+"%char;
     title := fun s => s;
     exn_str := fun _ => str "error";
     chat_model := fun _ _ => canned_llm (Raise (BackendError (str "unreachable"))) |}.

(** ** Vocabulary of the statements *)

(** What [_slugify] does to one character of the stripped text. *)
Definition slug_char (c : ascii) : ascii :=
  if Ascii.eqb c " " || Ascii.eqb c "-" then "_"%char else PyStr.lower_char c.


(** The roster row of Auston Matthews of the Toronto Maple Leafs. *)
Definition auston_row : csv_row :=
  <[str "team_name" := str "Toronto Maple Leafs"]>
    (<[str "firstName" := str "Auston"]>
       (<[str "lastName" := str "Matthews"]> ∅)).

(** A summary file in the directory of the summaries. *)
Definition summary_file (n : string) : path := [str "player_summaries"; str n].

(** *** Ratings *)

Section SchemaVocabulary.
Context `{!Outside}.

(** The field [k] of [d] is a string. *)
Definition is_string (k : pystr) (d : list (pystr * pyval)) : Prop :=
  ∃ s, dict_get k d = Some (PStr s).

(** The field [k] of [d] is an integer, as such or through the lax
    conversion, between [lo] and [hi]. *)
Definition int_between (lo hi : Z) (k : pystr) (d : list (pystr * pyval)) : Prop :=
  ∃ v z, dict_get k d = Some v ∧ as_int v = Some z ∧ lo ≤ z ≤ hi.

(** The field [k] of [d] is a list of exactly three strings. *)
Definition three_strings (k : pystr) (d : list (pystr * pyval)) : Prop :=
  ∃ a b c, dict_get k d = Some (PList [PStr a; PStr b; PStr c]).

(** What [ScoreOutput] accepts. *)
Definition well_formed_rating (obj : pyval) : Prop :=
  ∃ d, obj = PDict d
       ∧ is_string (str "model_name") d
       ∧ int_between 1 9 (str "current_rating") d
       ∧ int_between 1 9 (str "future_rating") d
       ∧ int_between 0 100 (str "current_confidence") d
       ∧ int_between 0 100 (str "future_confidence") d
       ∧ three_strings (str "reasoning") d
       ∧ is_string (str "timestamp") d
       ∧ (dict_get (str "version") d = None ∨ is_string (str "version") d).

(** The five conditions alone: two ratings in 1..9, two confidences in
    0..100, three reasoning strings. *)
Definition five_conditions (obj : pyval) : Prop :=
  ∃ d, obj = PDict d
       ∧ int_between 1 9 (str "current_rating") d
       ∧ int_between 1 9 (str "future_rating") d
       ∧ int_between 0 100 (str "current_confidence") d
       ∧ int_between 0 100 (str "future_confidence") d
       ∧ three_strings (str "reasoning") d.

End SchemaVocabulary.

(** A reply that meets the five conditions and names neither its model
    nor its time. *)
Definition bare_rating : pyval :=
  PDict [(str "current_rating", PInt 7);
         (str "future_rating", PInt 8);
         (str "current_confidence", PInt 80);
         (str "future_confidence", PInt 70);
         (str "reasoning", PList [PStr (str "a"); PStr (str "b"); PStr (str "c")])].

(** The same reply with a model name and a time of its own. *)
Definition full_rating : pyval :=
  PDict [(str "model_name", PStr (str "gpt-4o"));
         (str "current_rating", PInt 7);
         (str "future_rating", PInt 8);
         (str "current_confidence", PInt 80);
         (str "future_confidence", PInt 70);
         (str "reasoning", PList [PStr (str "a"); PStr (str "b"); PStr (str "c")]);
         (str "timestamp", PStr (str "1999-01-01T00:00:00Z"))].

(** *** Documents *)

(** The companion that the loader locates for a primary path, if any. *)
Definition companion_of (fs : filesystem) (primary_path : path) : option path :=
  companion ← PyPath.with_name primary_path (wanted_name primary_path);
  locate_companion fs primary_path companion (wanted_name primary_path).

(** The fallback place of the companion. *)
Definition fallback_path (primary_path : path) : path :=
  PyPath.child
    (PyPath.child (PyPath.parent (PyPath.parent primary_path)) (str "player_summaries"))
    (wanted_name primary_path).

(** What the loader takes for the primary text. *)
Definition primary_text_of (fs : filesystem) (primary_path : path) : pystr :=
  or_else (read_text fs primary_path) [].

(** A directory with [a.md] holding [X] and a companion [a_extended.md]. *)
Definition reports_with (companion : file) : filesystem :=
  {| files := <[[str "reports"; str "a.md"] := Readable (str "X")]>
                (<[[str "reports"; str "a_extended.md"] := companion]> ∅);
     resolve := id |}.

(** *** Outcomes of a scoring pass *)

(** The place of call [i] in an order of completion. *)
Fixpoint position (order : list nat) (i : nat) : nat :=
match order with
| [] => O
| j :: order' => if bool_decide (j = i) then O else S (position order' i)
end.

(** The success of an outcome, if it is one. *)
Definition ok_of {A} (r : result A) : option A :=
match r with Ok a => Some a | Raise _ => None end.

(** The failure of a chain's outcome, if it is one, under the chain's
    identifier. *)
Definition failure_of (item : chain * result ScoreOutput) : option ScoringError :=
match item.2 with
| Raise e => Some {| se_model_name := item.1.1; se_error := e |}
| Ok _ => None
end.

Section OutcomeVocabulary.
Context `{!Outside}.

(** The reading of the clock at which call [i] of [n] calls started at
    [tick] completes. *)
Definition completion_time (delay : nat -> nat) (n tick i : nat) : pystr :=
utc_now (tick + position (completion_order delay n) i).

(** The outcome of every chain, in the order of the chains. *)
Definition outcomes (chains : list chain) (delay : nat -> nat) (tick : nat)
  (markdown : pystr) : list (result ScoreOutput) :=
imap (fun i (c : chain) => c.2 markdown (completion_time delay (length chains) tick i)) chains.



(** A chain that stamps what it returns with its own identifier and with
    the reading of the clock. *)
Definition stamps (c : chain) : Prop :=
∀ markdown now r, c.2 markdown now = Ok r → model_name r = c.1 ∧ timestamp r = now.

End OutcomeVocabulary.

(** A reply that rates a player, wrapped in prose, from a model that
    calls itself [gpt-4o]. *)
Definition good_reply : pystr :=
str "Sure, here:" ++ [newline]
++ jstr "{'model_name':'gpt-4o','current_rating':7,'future_rating':8,"
++ jstr "'current_confidence':80,'future_confidence':70,"
++ jstr "'reasoning':['a','b','c'],'timestamp':'1999-01-01T00:00:00Z'}"
++ [newline] ++ str "Thanks".


(** Delays under which the calls complete in the reverse of the order in
    which they were started. *)
Definition last_first (i : nat) : nat := (10 - i)%nat.

(** An empty file system without links. *)
Definition empty_fs : filesystem := {| files := ∅; resolve := id |}.


(** *** Replies *)

(** The first attempt that yields something. *)
Fixpoint first_success {A} (attempts : list (option A)) : option A :=
match attempts with
| [] => None
| Some a :: _ => Some a
| None :: rest => first_success rest
end.

Section ReplyVocabulary.
Context `{!Outside}.

(** The three strategies of the extraction on a reply, in their order:
    the whole reply, the fenced block, the first balanced span. *)
Definition strategies (text : pystr) : list (option pyval) :=
[json_loads text;
 Re.search_fenced text ≫= json_loads;
 first_balanced text ≫= json_loads].

End ReplyVocabulary.

(** The brace depth of [obj], counted over all of its characters, comes
    back to zero at its last character and not before. *)
Definition closes_at_end (obj : pystr) : Prop :=
balanced_span 0 obj = Some (length obj).

(** The reply of the specification's example, with a nested object. *)
Definition wrapped_object : pystr := jstr "{'current_rating':7,'detail':{'future_rating':8}}".
Definition wrapped_reply : pystr :=
(str "Sure, here:" ++ [newline]) ++ wrapped_object ++ ([newline] ++ str "Thanks").

(** A JSON object with a closing brace inside a string. *)
Definition brace_in_string : pystr := jstr "{'reasoning':'see section }'}".

(** An opening marker [<think>] and a closing marker [</think>], in any
    mix of upper and lower case. *)
Definition is_open_tag (m : pystr) : Prop := PyStr.lower m = Re.open_tag.
Definition is_close_tag (m : pystr) : Prop := PyStr.lower m = Re.close_tag.

(** The text holds no marker of the given kind. *)
Definition tag_free (tag s : pystr) : Prop := Re.find_ci tag s = None.

(** A preamble: a region from an opening marker to the first closing
    marker after it, or one marker on its own. *)
Inductive preamble : pystr -> Prop :=
| preamble_region (o body c : pystr) :
    is_open_tag o → is_close_tag c → tag_free Re.close_tag body →
    preamble (o ++ body ++ c)
| preamble_lone (m : pystr) :
    is_open_tag m ∨ is_close_tag m → preamble m.

(** A reply whose JSON mentions the marker in one of its strings. *)
Definition tagged_payload : pystr := jstr "{'reasoning':'the <think> tag is absent'}".

(** A preamble of reasoning in mixed case, with braces in it. *)
Definition thinking : pystr :=
str "<THINK>" ++ (str "The report is thin {so far}." ++ [newline]) ++ str "</Think>".

(** A complete rating as JSON text. *)
Definition rating_json : pystr :=
jstr "{'model_name':'deepseek','current_rating':6,'future_rating':7,"
++ jstr "'current_confidence':55,'future_confidence':40,"
++ jstr "'reasoning':['a','b','c'],'timestamp':'2025-05-05T05:05:05Z'}".

(** *** Runs of the batch driver *)

(** The output path of a player's row. *)
Definition out_path_of (input_dir : path) (pl : player) : path :=
PyPath.child (ratings_dir input_dir) (out_filename pl).

(** An environment with the two keys that [score_all] cannot do without. *)
Definition keys_env : environ :=
<[str "OPENAI_API_KEY" := str "sk-test"]> (<[str "JETSTREAM_API_KEY" := str "js-test"]> ∅).

Definition default_args : scorer_args :=
{| llama_model_name := None; deepseek_model_name := None; oss_model_name := None;
   skip_llama := false; skip_deepseek := false; skip_oss := false |}.

(** A file system that holds the summary of Auston Matthews. *)
Definition one_summary_fs : filesystem :=
{| files := {[summary_file "auston_matthews.md" := Readable (str "# Auston Matthews")]};
   resolve := id |}.

(** A run of [batch_score.main] on the one-row roster in the reference
    surroundings, under a given environment. *)
Definition one_row_run (env : environ) (fs : filesystem) : driver_state :=
batch_main
  (subprocess_scorer (H := reference_outside) env default_args (fun _ => last_first) 0)
  [str "player_summaries"] [summary_file "auston_matthews.md"] [auston_row] fs.

(** *** Further vocabulary: trimmed text *)

(** The text does not begin with a whitespace character. *)
Definition starts_clean (s : pystr) : bool :=
match s with
| c :: _ => negb (PyStr.isspace c)
| [] => true
end.

(** The text neither begins nor ends with a whitespace character. *)
Definition trimmed (s : pystr) : Prop :=
starts_clean s = true ∧ starts_clean (rev s) = true.

(** An upper-case letter of ASCII. *)
Definition is_ascii_upper (c : ascii) : bool :=
((65 <=? PyStr.code c) && (PyStr.code c <=? 90))%nat.

(** [_build_roster_maps]: the maps [player_to_team] and [team_to_slug]. *)
Definition roster_maps_step (acc : gmap pystr pystr * gmap pystr pystr) (row : csv_row)
  : gmap pystr pystr * gmap pystr pystr :=
match roster_player row with
| Some pl =>
    (<[player_slug pl := team_slug pl]> acc.1, <[team_name pl := team_slug pl]> acc.2)
| None => acc
end.

Definition _build_roster_maps (rows : list csv_row) : gmap pystr pystr * gmap pystr pystr :=
foldl roster_maps_step (∅, ∅) rows.

(** A cell that holds nothing but whitespace. *)
Definition blank (s : pystr) : Prop := Forall (fun c => PyStr.isspace c = true) s.

(** The value that [row.get(k1) or row.get(k2) or ""] picks. *)
Definition picked (row : csv_row) (k1 k2 : pystr) : pystr :=
default [] (py_or (py_or (row !! k1) (row !! k2)) (Some [])).

(** A roster in which the alternative columns are used, one row has a
    team column of spaces only, and one player appears twice. *)
Definition mixed_roster : list csv_row :=
[ <[str "Team" := str "Boston Bruins"]>
    (<[str "First" := str " David "]> (<[str "Last" := str "Pastrnak"]> ∅));
  <[str "team_name" := str "   "]>
    (<[str "Team" := str "Toronto Maple Leafs"]>
       (<[str "firstName" := str "Auston"]> (<[str "lastName" := str "Matthews"]> ∅)));
  auston_row;
  <[str "team_name" := str "Utah Mammoth"]>
    (<[str "firstName" := str "Auston"]> (<[str "lastName" := str "Matthews"]> ∅)) ].

(** The key under which a summary file is indexed. *)
Definition stem_key (p : path) : pystr := PyStr.lower (PyPath.stem p).

(** Summaries of which two differ in case only and two end alike. *)
Definition clashing_files : list path :=
[summary_file "Auston_Matthews.md"; summary_file "zz_auston_matthews.md";
 summary_file "auston_matthews.md"; summary_file "b_auston_matthews.md"].

(** A player whose slugs are given. *)
Definition player_of_slugs (team slug : string) : player :=
{| team_name := str team; team_slug := str team; first := []; last := [];
   player_slug := str slug |}.

(** A scorer that fails on every summary but one, for which it writes a
    fixed text. *)
Definition picky_scorer (good : path) : scorer :=
fun md out fs =>
  if bool_decide (md = good) then (true, write_text fs out (str "{}")) else (false, fs).

(** Two roster rows with a summary each. *)
Definition two_rows : list csv_row :=
[auston_row;
 <[str "Team" := str "Boston Bruins"]>
   (<[str "First" := str "David"]> (<[str "Last" := str "Pastrnak"]> ∅))].

Definition two_summaries : list path :=
[summary_file "auston_matthews.md"; summary_file "boston_bruins_david_pastrnak.md"].

(** A suffix as [PurePath.suffix] returns one that is not empty: a dot,
    then one character or more, none of them a dot. *)
Definition proper_suffix (s : pystr) : Prop :=
∃ r, s = "."%char :: r ∧ r ≠ [] ∧ "."%char ∉ r.

(** The file beside [p] that has the companion's name. *)
Definition sibling (p : path) : path := PyPath.child (PyPath.parent p) (wanted_name p).

(** The brace depth after a text, from a depth before it. *)
Fixpoint brace_depth (depth : Z) (s : pystr) : Z :=
match s with
| [] => depth
| ch :: s' =>
    brace_depth (if Ascii.eqb ch "{" then depth + 1
                 else if Ascii.eqb ch "}" then depth - 1 else depth) s'
end.

(** A contiguous part of a text. *)
Definition part_of (sub text : pystr) : Prop := ∃ before after, text = before ++ sub ++ after.
(** A reply in which a marked region is followed by an object that names
    the marker in one of its strings. *)
Definition thinking_then_tagged : pystr := thinking ++ tagged_payload.
(** *** Further vocabulary: ratings and chains *)

(** A rating whose values lie in the ranges of the schema. *)
Definition in_range (r : ScoreOutput) : Prop :=
(1 ≤ current_rating r ∧ current_rating r ≤ 9)
∧ (1 ≤ future_rating r ∧ future_rating r ≤ 9)
∧ (0 ≤ current_confidence r ∧ current_confidence r ≤ 100)
∧ (0 ≤ future_confidence r ∧ future_confidence r ≤ 100)
∧ length (reasoning r) = 3%nat.

Section ChainVocabulary.
Context `{!Outside}.

(** A chain of one of the three kinds that [score_all] builds, under its
    own identifier. *)
Definition of_kind (c : chain) : Prop :=
∃ l, c.2 = build_chain l c.1
     ∨ c.2 = build_chain_plain_json l c.1
     ∨ c.2 = build_chain_plain_json_for_deepseek l c.1.

End ChainVocabulary.

(** The Jetstream scorers that the arguments do not skip. *)
Definition jetstream_count (args : scorer_args) : nat :=
((if skip_deepseek args then 0 else 1) + (if skip_llama args then 0 else 1)
 + (if skip_oss args then 0 else 1))%nat.

(** Arguments that skip the three Jetstream scorers. *)
Definition skip_all_args : scorer_args :=
{| llama_model_name := None; deepseek_model_name := None; oss_model_name := None;
   skip_llama := true; skip_deepseek := true; skip_oss := true |}.

(** An environment that holds the OpenAI key only. *)
Definition openai_env : environ := <[str "OPENAI_API_KEY" := str "sk-test"]> ∅.

(** Surroundings in which every model answers with the same rating. *)
Definition answering_outside : Outside :=
{| json_loads := MiniJson.loads;
   json_dumps := fun _ => str "{}";
   int_of_lax := fun _ => None;
   utc_now := fun n => str "T" ++ replicate n "+"%char;
   title := fun s => s;
   exn_str := fun _ => str "error";
   chat_model := fun _ _ => canned_llm (Ok rating_json) |}.

(** The rating that the first chain returns in those surroundings when its
    call is the last one of five to complete. *)
Definition first_rating : ScoreOutput :=
{| model_name := str "gpt-5"; current_rating := 6; future_rating := 7;
   current_confidence := 55; future_confidence := 40;
   reasoning := [str "a"; str "b"; str "c"];
   timestamp := str "T++++"; version := str "1.0" |}.

(** ** The summary agent's file names ([player_summary_agent.py]) *)

(** [re.sub(r"[...]+", rep, s)] for a class of characters and a
    one-character [rep]: each maximal run of characters of the class
    becomes one [rep]. [in_run] tells that the character before belonged
    to a run. *)
Fixpoint sub_runs (cls : ascii -> bool) (rep : ascii) (in_run : bool) (s : pystr) : pystr :=
match s with
| [] => []
| c :: s' =>
    if cls c
    then (if in_run then sub_runs cls rep true s' else rep :: sub_runs cls rep true s')
    else c :: sub_runs cls rep false s'
end.

(** The class [a-z0-9]. *)
Definition is_lower_alnum (c : ascii) : bool :=
let n := PyStr.code c in
(((97 <=? n) && (n <=? 122)) || ((48 <=? n) && (n <=? 57)))%nat.

(** [s.lstrip(a)] and [s.strip(a)] for a one-character [a]. *)
Fixpoint lstrip_char (a : ascii) (s : pystr) : pystr :=
match s with
| c :: s' => if Ascii.eqb c a then lstrip_char a s' else s
| [] => []
end.

Definition strip_char (a : ascii) (s : pystr) : pystr :=
rev (lstrip_char a (rev (lstrip_char a s))).

(** [(row.get(k) or "").strip()] *)
Definition agent_cell (row : csv_row) (k : pystr) : pystr :=
PyStr.strip (or_str (row !! k) []).

(** [player_name] in the agent's loop:
    [(f"{first_name} {last_name}").strip() or first_name or last_name] *)
Definition agent_player_name (row : csv_row) : pystr :=
let first_name := agent_cell row (str "firstName") in
let last_name := agent_cell row (str "lastName") in
match PyStr.strip (first_name ++ str " " ++ last_name) with
| c :: s => c :: s
| [] => match first_name with
        | c :: s => c :: s
        | [] => last_name
        end
end.

Section Agent.
(** [unicodedata.normalize("NFKD", name).encode("ascii", "ignore").decode("ascii")] *)
Variable ascii_fold : pystr -> pystr.

(** [slugify_name] *)
Definition slugify_name (name : pystr) : pystr :=
let text := ascii_fold name in
let text := PyStr.lower (PyStr.strip text) in
let text := sub_runs (fun c => negb (is_lower_alnum c)) "_" false text in
let text := strip_char "_" (sub_runs (fun c => Ascii.eqb c "_") "_" false text) in
match text with
| [] => str "player"
| _ :: _ => text
end.

(** [slug] in the agent's loop. *)
Definition agent_slug (row : csv_row) : pystr :=
slugify_name (agent_cell row (str "team_name") ++ str " " ++ agent_player_name row).

(** [filename] and [enhanced_path] in the agent's loop. *)
Definition agent_files (out_dir : path) (row : csv_row) : path * path :=
(PyPath.child out_dir (agent_slug row ++ str ".md"),
 PyPath.child out_dir (agent_slug row ++ str "_extended.md")).

End Agent.

(** *** Further vocabulary: plain names *)

(** A text made of words of ASCII letters and digits with one space
    between two words; [after_space] tells that a word has to begin. *)
Fixpoint spaced_words (after_space : bool) (s : pystr) : bool :=
match s with
| [] => negb after_space
| c :: s' =>
    if Ascii.eqb c " " then negb after_space && spaced_words true s'
    else PyStr.isalnum_ascii c && spaced_words false s'
end.

Definition plain (s : pystr) : Prop := spaced_words true s = true.

(** Two adjacent characters of the text are both [a]. *)
Fixpoint doubled (a : ascii) (s : pystr) : bool :=
match s with
| x :: s' =>
    match s' with
    | y :: _ => (Ascii.eqb x a && Ascii.eqb y a) || doubled a s'
    | [] => false
    end
| [] => false
end.

(** A folding to ASCII that drops what is not ASCII and keeps the rest. *)
Definition drop_non_ascii (s : pystr) : pystr :=
filter (fun c => (PyStr.code c < 128)%nat) s.

(** A reply that holds a rating in a fenced block, between prose with
    braces of its own. *)
Definition fenced_reply : pystr :=
(str "Here {as asked} it is:" ++ [newline])
++ Re.fence_open ++ [newline] ++ rating_json ++ [newline] ++ Re.fence_close
++ ([newline] ++ str "Anything {else}?").

(** * Properties *)

(** ** Strings *)

Lemma startswith_app (p r : pystr) : PyStr.startswith p (p ++ r) = true.
Proof.
  induction p as [|a p IH]; simpl; [done|].
  by rewrite Ascii.eqb_refl, IH.
Qed.

Lemma startswith_refl (p : pystr) : PyStr.startswith p p = true.
Proof. rewrite <- (app_nil_r p) at 2. apply startswith_app. Qed.

Lemma startswith_inv (p s : pystr) :
  PyStr.startswith p s = true → ∃ r, s = p ++ r.
Proof.
  revert s. induction p as [|a p IH]; intros s Hs; simpl in *.
  - by exists s.
  - destruct s as [|b s]; [done|].
    apply andb_prop in Hs as [Hab Hps].
    apply Ascii.eqb_eq in Hab as ->.
    destruct (IH _ Hps) as [r ->]. by exists r.
Qed.

Lemma endswith_app (a s : pystr) : PyStr.endswith s (a ++ s) = true.
Proof. unfold PyStr.endswith. rewrite rev_app_distr. apply startswith_app. Qed.

Lemma endswith_refl (s : pystr) : PyStr.endswith s s = true.
Proof. apply (endswith_app []). Qed.


Lemma slugify_pointwise (text : pystr) :
  _slugify text = slug_char <$> PyStr.strip text.
Proof.
  unfold _slugify, PyStr.replace_char, PyStr.lower.
  rewrite !map_map. apply map_ext. intros c.
  destruct c as [[] [] [] [] [] [] [] []]; vm_compute; reflexivity.
Qed.

(** ** The naming convention of the batch driver *)

Lemma index_stems_sound (md_files : list path) (k : pystr) (p : path) :
  index_stems md_files !! k = Some p → p ∈ md_files ∧ PyStr.lower (PyPath.stem p) = k.
Proof.
  unfold index_stems.
  assert (∀ (m : gmap pystr path),
            (∀ k p, m !! k = Some p → p ∈ md_files ∧ PyStr.lower (PyPath.stem p) = k) →
            ∀ l, l ⊆ md_files →
                 ∀ k p, foldl (λ m p, <[PyStr.lower (PyPath.stem p) := p]> m) m l !! k = Some p →
                        p ∈ md_files ∧ PyStr.lower (PyPath.stem p) = k) as Hgen.
  { intros m Hm l. revert m Hm.
    induction l as [|q l IH]; intros m Hm Hl k' p' Hlook; simpl in *.
    - by apply Hm.
    - apply (IH (<[PyStr.lower (PyPath.stem q) := q]> m)) in Hlook; [done| |set_solver].
      intros k2 p2. rewrite lookup_insert. case_decide as Hk.
      + intros [= <-]. split; [set_solver | done].
      + apply Hm. }
  apply (Hgen ∅); [by intros ??; rewrite lookup_empty | done].
Qed.

Lemma available_stems_indexed (md_files : list path) (k : pystr) :
  k ∈ available_stems (build_index md_files) → is_Some (index_stems md_files !! k).
Proof.
  unfold build_index; simpl. rewrite merge_sort_Permutation.
  intros [[k' p] [-> Hin]]%list_elem_of_fmap.
  apply elem_of_map_to_list in Hin. eauto.
Qed.

Lemma first_indexed_sound (m : gmap pystr path) (stems : list pystr) (p : path) :
  first_indexed m stems = Some p → ∃ k, k ∈ stems ∧ m !! k = Some p.
Proof.
  induction stems as [|k stems IH]; simpl; [done|].
  destruct (m !! k) as [q|] eqn:Hk.
  - intros [= <-]. exists k. split; [left | done].
  - intros (k' & Hin & Hk')%IH. exists k'. split; [by right | done].
Qed.




(** ** The rating schema *)

Section SchemaProps.
Context `{!Outside}.

Lemma str_field_Some k d s : str_field k d = Some s ↔ dict_get k d = Some (PStr s).
Proof.
  unfold str_field. destruct (dict_get k d) as [v|]; simpl; [|done].
  destruct v; simpl; split; intros; simplify_eq; done.
Qed.

Lemma int_field_Some lo hi k d z :
  int_field lo hi k d = Some z ↔
  ∃ v, dict_get k d = Some v ∧ as_int v = Some z ∧ lo ≤ z ≤ hi.
Proof.
  unfold int_field. split.
  - destruct (dict_get k d) as [v|]; simpl; [|done].
    destruct (as_int v) as [z'|] eqn:Hv; simpl; [|done].
    destruct ((lo <=? z') && (z' <=? hi)) eqn:Hr; [|done].
    apply andb_prop in Hr as [?%Z.leb_le ?%Z.leb_le].
    intros [= <-]. by exists v.
  - intros (v & -> & Hv & Hlo & Hhi). simpl. rewrite Hv. simpl.
    apply Z.leb_le in Hlo, Hhi. by rewrite Hlo, Hhi.
Qed.

Lemma as_str_list_three v l :
  as_str_list v = Some l → length l = 3%nat →
  ∃ a b c, v = PList [PStr a; PStr b; PStr c] ∧ l = [a; b; c].
Proof.
  destruct v as [| | | | |items|]; simpl; try done.
  intros Hm%mapM_Some Hl.
  destruct l as [|a [|b [|c [|]]]]; simpl in Hl; try lia.
  exists a, b, c. split; [|done].
  repeat match goal with
         | H : Forall2 _ _ (_ :: _) |- _ => apply Forall2_cons_inv_r in H as (? & ? & ? & H & ->)
         | H : Forall2 _ _ [] |- _ => apply Forall2_nil_inv_r in H as ->
         | H : as_str ?x = Some _ |- _ => destruct x; simpl in H; simplify_eq
         end.
  done.
Qed.

Lemma reasoning_field_Some d l :
  reasoning_field d = Some l ↔
  ∃ a b c, dict_get (str "reasoning") d = Some (PList [PStr a; PStr b; PStr c]) ∧ l = [a; b; c].
Proof.
  unfold reasoning_field, ensure_three_bullets. split.
  - destruct (dict_get _ d) as [v|]; cbn [mbind option_bind]; [|done].
    destruct (as_str_list v) as [l'|] eqn:Hl'; cbn [mbind option_bind]; [|done].
    destruct ((3 <=? length l')%nat && (length l' <=? 3)%nat) eqn:Hlen; [|done].
    apply andb_prop in Hlen as [?%Nat.leb_le ?%Nat.leb_le].
    assert (length l' = 3%nat) as Hlen by lia.
    rewrite Hlen. cbn. intros [= <-].
    destruct (as_str_list_three _ _ Hl' Hlen) as (a & b & c & -> & ->).
    by exists a, b, c.
  - intros (a & b & c & -> & ->). reflexivity.
Qed.

Lemma str_field_default_Some dflt k d s :
  str_field_default dflt k d = Some s ↔
  (dict_get k d = None ∧ s = dflt) ∨ dict_get k d = Some (PStr s).
Proof.
  unfold str_field_default. destruct (dict_get k d) as [v|].
  - destruct v; simpl; split; intros; simplify_eq; naive_solver.
  - naive_solver.
Qed.

Lemma validate_fields_Some d out :
  validate_fields d = Some out ↔
  str_field (str "model_name") d = Some (model_name out)
  ∧ int_field 1 9 (str "current_rating") d = Some (current_rating out)
  ∧ int_field 1 9 (str "future_rating") d = Some (future_rating out)
  ∧ int_field 0 100 (str "current_confidence") d = Some (current_confidence out)
  ∧ int_field 0 100 (str "future_confidence") d = Some (future_confidence out)
  ∧ reasoning_field d = Some (reasoning out)
  ∧ str_field (str "timestamp") d = Some (timestamp out)
  ∧ str_field_default (str "1.0") (str "version") d = Some (version out).
Proof.
  unfold validate_fields. split.
  - repeat match goal with
           | |- context [mbind _ ?o] =>
               lazymatch o with
               | mbind _ _ => fail
               | _ => destruct o eqn:?; cbn [mbind option_bind]; [|done]
               end
           end.
    intros [= <-]. done.
  - intros (-> & -> & -> & -> & -> & -> & -> & ->). by destruct out.
Qed.

(** C2 (as amended). [ScoreOutput] accepts a candidate exactly when it is
    an object whose [model_name] and [timestamp] are strings, whose
    [version] is absent or a string, whose two ratings are integers (as
    such or through pydantic's lax conversion) in 1..9, whose two
    confidences are such integers in 0..100, and whose [reasoning] is a
    list of exactly three strings; any violation rejects it, and an
    accepted record holds the candidate's own values, not clamped ones. *)
Theorem rating_validation (obj : pyval) :
  (is_ok (model_validate obj) = true ↔ well_formed_rating obj)
  ∧ (∀ d out, obj = PDict d → model_validate obj = Ok out →
       dict_get (str "current_rating") d ≫= as_int = Some (current_rating out)
       ∧ dict_get (str "future_rating") d ≫= as_int = Some (future_rating out)
       ∧ dict_get (str "current_confidence") d ≫= as_int = Some (current_confidence out)
       ∧ dict_get (str "future_confidence") d ≫= as_int = Some (future_confidence out)
       ∧ dict_get (str "reasoning") d = Some (PList (PStr <$> reasoning out))).
Proof.
  split.
  - unfold well_formed_rating, is_string, int_between, three_strings. split.
    + destruct obj as [| | | | | |d]; try done. simpl.
      destruct (validate_fields d) as [out|] eqn:Hv; [|done]. intros _.
      apply validate_fields_Some in Hv
        as (Hmn%str_field_Some & Hcr%int_field_Some & Hfr%int_field_Some
            & Hcc%int_field_Some & Hfc%int_field_Some & Hrs%reasoning_field_Some
            & Hts%str_field_Some & Hver%str_field_default_Some).
      exists d. split; [done|].
      destruct Hrs as (a & b & c & Hrs & _).
      repeat split; try naive_solver.
    + intros (d & -> & [mn Hmn] & (v1 & cr & ? & ? & ?) & (v2 & fr & ? & ? & ?)
              & (v3 & cc & ? & ? & ?) & (v4 & fc & ? & ? & ?) & (a & b & c & Hrs)
              & [ts Hts] & Hver).
      simpl.
      assert (∃ ver, str_field_default (str "1.0") (str "version") d = Some ver) as [ver Hv].
      { destruct Hver as [Hnone | [s Hs]].
        - exists (str "1.0"). apply str_field_default_Some. by left.
        - exists s. apply str_field_default_Some. by right. }
      pose (out := {| model_name := mn; current_rating := cr; future_rating := fr;
                      current_confidence := cc; future_confidence := fc;
                      reasoning := [a; b; c]; timestamp := ts; version := ver |}).
      assert (validate_fields d = Some out) as ->; [|done].
      apply validate_fields_Some. simpl.
      rewrite !str_field_Some, !int_field_Some, reasoning_field_Some.
      repeat split; naive_solver.
  - intros d out -> Hok. simpl in Hok.
    destruct (validate_fields d) as [out'|] eqn:Hv; [|done].
    injection Hok as ->.
    apply validate_fields_Some in Hv
      as (_ & Hcr%int_field_Some & Hfr%int_field_Some
          & Hcc%int_field_Some & Hfc%int_field_Some & Hrs%reasoning_field_Some & _).
    destruct Hcr as (? & -> & Hcr & _), Hfr as (? & -> & Hfr & _),
             Hcc as (? & -> & Hcc & _), Hfc as (? & -> & Hfc & _),
             Hrs as (a & b & c & -> & ->).
    by cbn [mbind option_bind].
Qed.
End SchemaProps.


(** [rating_validation] at a complete reply. *)
Lemma rating_validation_witness :
  well_formed_rating (H := reference_outside) full_rating
  ∧ is_ok (model_validate (H := reference_outside) full_rating) = true.
Proof.
  assert (well_formed_rating (H := reference_outside) full_rating) as Hwf.
  { exists (match full_rating with PDict d => d | _ => [] end).
    split; [reflexivity|].
    unfold is_string, int_between, three_strings.
    split; [by exists (str "gpt-4o")|].
    split; [exists (PInt 7), 7; by repeat split|].
    split; [exists (PInt 8), 8; by repeat split|].
    split; [exists (PInt 80), 80; by repeat split|].
    split; [exists (PInt 70), 70; by repeat split|].
    split; [by exists (str "a"), (str "b"), (str "c")|].
    split; [by exists (str "1999-01-01T00:00:00Z") | by left]. }
  split; [exact Hwf|].
  exact (proj2 (proj1 (rating_validation (H := reference_outside) full_rating)) Hwf).
Defined.

(** C2 (as stated) fails: a candidate that meets the five conditions and
    lacks [model_name] and [timestamp] is rejected. *)
Lemma rating_without_name_rejected :
  five_conditions (H := reference_outside) bare_rating
  ∧ model_validate (H := reference_outside) bare_rating = Raise (ValidationError bare_rating).
Proof.
  split; [|reflexivity].
  exists (match bare_rating with PDict d => d | _ => [] end).
  split; [reflexivity|].
  unfold int_between, three_strings.
  split; [exists (PInt 7), 7; by repeat split|].
  split; [exists (PInt 8), 8; by repeat split|].
  split; [exists (PInt 80), 80; by repeat split|].
  split; [exists (PInt 70), 70; by repeat split|].
  by exists (str "a"), (str "b"), (str "c").
Qed.

(** ** The document loader *)

Lemma wanted_name_extended (primary_path : path) (base : pystr) :
  PyPath.stem primary_path = base ++ extended →
  wanted_name primary_path = base ++ PyPath.suffix primary_path.
Proof.
  intros Hstem. unfold wanted_name. rewrite Hstem, endswith_app.
  rewrite length_app, Nat.add_sub. by rewrite take_app_length.
Qed.

Lemma wanted_name_plain (primary_path : path) :
  PyStr.endswith extended (PyPath.stem primary_path) = false →
  wanted_name primary_path = PyPath.stem primary_path ++ extended ++ PyPath.suffix primary_path.
Proof. intros Hstem. unfold wanted_name. by rewrite Hstem. Qed.

Lemma with_name_sibling (p q : path) (n : pystr) :
  PyPath.with_name p n = Some q → q = PyPath.child (PyPath.parent p) n.
Proof.
  unfold PyPath.with_name. repeat case_match; try done. by intros [= <-].
Qed.

Lemma load_merged_markdown_cases (fs : filesystem) (primary_path : path) :
  is_Some (PyPath.with_name primary_path (wanted_name primary_path)) →
  _load_merged_markdown fs primary_path =
    match companion_of fs primary_path with
    | Some companion_path =>
        match read_text fs companion_path with
        | Ok companion_text =>
            Ok (primary_text_of fs primary_path ++ separator ++ companion_text)
        | Raise _ => Ok (primary_text_of fs primary_path)
        end
    | None => Ok (primary_text_of fs primary_path)
    end.
Proof.
  intros [companion Hname]. unfold _load_merged_markdown, companion_of.
  rewrite Hname. reflexivity.
Qed.

(** C8 (as amended). For a primary path whose companion name is a valid
    file name: the companion name is the primary's with [_extended] taken
    off the stem when the stem ends with it and put after the stem
    otherwise; the companion is looked for beside the primary first and
    then in the [player_summaries] directory beside the primary's
    directory; when one is located and can be read the loader returns the
    primary text, the separator, the companion text, in that order; when
    none is located it returns the primary text alone; and a primary that
    cannot be read counts as the empty text. *)
Theorem load_merged_markdown_spec (fs : filesystem) (primary_path companion : path) :
  PyPath.with_name primary_path (wanted_name primary_path) = Some companion →
  (∀ base, PyPath.stem primary_path = base ++ extended →
           wanted_name primary_path = base ++ PyPath.suffix primary_path)
  ∧ (PyStr.endswith extended (PyPath.stem primary_path) = false →
     wanted_name primary_path
     = PyPath.stem primary_path ++ extended ++ PyPath.suffix primary_path)
  ∧ companion = PyPath.child (PyPath.parent primary_path) (wanted_name primary_path)
  ∧ companion_of fs primary_path =
      (if is_companion fs primary_path companion then Some companion
       else if is_companion fs primary_path (fallback_path primary_path)
            then Some (fallback_path primary_path) else None)
  ∧ (∀ companion_path companion_text,
       companion_of fs primary_path = Some companion_path →
       read_text fs companion_path = Ok companion_text →
       _load_merged_markdown fs primary_path
       = Ok (primary_text_of fs primary_path ++ separator ++ companion_text))
  ∧ (companion_of fs primary_path = None →
     _load_merged_markdown fs primary_path = Ok (primary_text_of fs primary_path))
  ∧ (∀ text, read_text fs primary_path = Ok text → primary_text_of fs primary_path = text)
  ∧ (∀ e, read_text fs primary_path = Raise e → primary_text_of fs primary_path = []).
Proof.
  intros Hname.
  split; [apply wanted_name_extended|].
  split; [apply wanted_name_plain|].
  split; [by apply with_name_sibling|].
  split.
  { unfold companion_of. rewrite Hname. reflexivity. }
  split.
  { intros cp text Hcp Hread.
    rewrite load_merged_markdown_cases by eauto. by rewrite Hcp, Hread. }
  split.
  { intros Hcp. rewrite load_merged_markdown_cases by eauto. by rewrite Hcp. }
  unfold primary_text_of. split; intros ? ->; reflexivity.
Qed.

(** [load_merged_markdown_spec] at [a.md] holding [X] with the companion
    [a_extended.md] holding [Y]. *)
Lemma load_merged_markdown_witness :
  PyPath.with_name [str "reports"; str "a.md"] (wanted_name [str "reports"; str "a.md"])
  = Some [str "reports"; str "a_extended.md"]
  ∧ _load_merged_markdown (reports_with (Readable (str "Y"))) [str "reports"; str "a.md"]
    = Ok (str "X" ++ separator ++ str "Y").
Proof.
  assert (PyPath.with_name [str "reports"; str "a.md"] (wanted_name [str "reports"; str "a.md"])
          = Some [str "reports"; str "a_extended.md"]) as Hname by (vm_compute; reflexivity).
  split; [exact Hname|].
  destruct (load_merged_markdown_spec (reports_with (Readable (str "Y"))) _ _ Hname)
    as (_ & _ & _ & _ & Hmerge & _).
  apply (Hmerge [str "reports"; str "a_extended.md"] (str "Y")); vm_compute; reflexivity.
Defined.

(** C8 (as stated) fails: a companion that is found and cannot be read is
    left out, and the primary text comes back alone. *)
Lemma found_companion_not_merged :
  companion_of (reports_with Unreadable) [str "reports"; str "a.md"]
  = Some [str "reports"; str "a_extended.md"]
  ∧ _load_merged_markdown (reports_with Unreadable) [str "reports"; str "a.md"]
    = Ok (str "X").
Proof. split; vm_compute; reflexivity. Qed.

(** C10. When a companion is located and reading it raises, the loader
    returns the primary text alone. *)
Theorem unreadable_companion_ignored (fs : filesystem)
    (primary_path companion_path : path) (e : exn) :
  companion_of fs primary_path = Some companion_path →
  read_text fs companion_path = Raise e →
  _load_merged_markdown fs primary_path = Ok (primary_text_of fs primary_path).
Proof.
  intros Hcp Hread.
  rewrite load_merged_markdown_cases.
  - by rewrite Hcp, Hread.
  - unfold companion_of in Hcp.
    destruct (PyPath.with_name _ _); [eauto | done].
Qed.

(** [unreadable_companion_ignored] at a primary in [reports_v2] whose
    companion lies in the fallback directory and cannot be read. *)
Lemma unreadable_companion_witness :
  let fs := {| files := <[[str "reports_v2"; str "b_extended.md"] := Readable (str "long")]>
                          (<[[str "player_summaries"; str "b.md"] := Unreadable]> ∅);
               resolve := id |} in
  companion_of fs [str "reports_v2"; str "b_extended.md"]
  = Some [str "player_summaries"; str "b.md"]
  ∧ _load_merged_markdown fs [str "reports_v2"; str "b_extended.md"] = Ok (str "long").
Proof.
  intros fs.
  assert (companion_of fs [str "reports_v2"; str "b_extended.md"]
          = Some [str "player_summaries"; str "b.md"]) as Hcp by (vm_compute; reflexivity).
  split; [exact Hcp|].
  exact (unreadable_companion_ignored fs _ _
           (OSError [str "player_summaries"; str "b.md"]) Hcp eq_refl).
Defined.

(** ** The scoring orchestrator *)

Section OrchestratorProps.
Context `{!Outside}.

Lemma complete_spec (tasks : list task) (order : list nat) :
  NoDup order →
  ∀ (slots : list (option (result ScoreOutput))) (tick : nat),
    length slots = length tasks →
    (∀ i, i ∈ order → i < length tasks)%nat →
    let '(slots', tick') := complete tasks order slots tick in
    tick' = (tick + length order)%nat
    ∧ length slots' = length tasks
    ∧ (∀ i t, i ∈ order → tasks !! i = Some t →
              slots' !! i = Some (Some (t (utc_now (tick + position order i)))))
    ∧ (∀ i, i ∉ order → slots' !! i = slots !! i).
Proof.
  induction order as [|j order IH]; intros Hnd slots tick Hlen Hbound; simpl.
  - split; [lia|]. split; [done|]. split; [by intros ?? ?%elem_of_nil | done].
  - apply NoDup_cons in Hnd as [Hj Hnd].
    destruct (tasks !! j) as [tj|] eqn:Htj.
    2:{ apply lookup_ge_None in Htj. specialize (Hbound j). 
        assert (j < length tasks)%nat by (apply Hbound; left). lia. }
    specialize (IH Hnd (<[j := Some (tj (utc_now tick))]> slots) (S tick)).
    destruct (complete tasks order _ (S tick)) as [slots' tick'].
    destruct IH as (Htick & Hlen' & Hin & Hout).
    { by rewrite length_insert. }
    { intros i Hi. apply Hbound. by right. }
    split; [lia|]. split; [done|]. split.
    + intros i t Hi Ht. case_bool_decide as Hij.
      * subst i. rewrite Hout by done.
        rewrite list_lookup_insert_eq.
        -- rewrite Htj in Ht. injection Ht as <-. by rewrite Nat.add_0_r.
        -- rewrite Hlen. by apply lookup_lt_Some in Htj.
      * apply elem_of_cons in Hi as [-> | Hi]; [done|].
        rewrite (Hin i t Hi Ht).
        by replace (S tick + position order i)%nat with (tick + S (position order i))%nat by lia.
    + intros i Hi. apply not_elem_of_cons in Hi as [Hij Hi].
      rewrite Hout by done. by rewrite list_lookup_insert_ne.
Qed.

Lemma omap_id_all_some {A} (slots : list (option A)) (l : list A) :
  slots = Some <$> l → omap id slots = l.
Proof.
  intros ->. induction l as [|x l IH]; [done|]. cbn. by f_equal.
Qed.

Lemma gather_spec (tasks : list task) (delay : nat -> nat) (tick : nat) :
  gather tasks delay tick
  = (imap (fun i (t : task) =>
             t (utc_now (tick + position (completion_order delay (length tasks)) i))) tasks,
     (tick + length tasks)%nat).
Proof.
  unfold gather.
  set (order := completion_order delay (length tasks)).
  assert (order ≡ₚ seq 0 (length tasks)) as Hperm.
  { unfold order, completion_order. apply merge_sort_Permutation. }
  pose proof (complete_spec tasks order) as Hspec.
  specialize (Hspec ltac:(rewrite Hperm; apply NoDup_seq)
                    (replicate (length tasks) None) tick
                    ltac:(apply length_replicate)).
  destruct (complete tasks order _ tick) as [slots' tick'].
  destruct Hspec as (-> & Hlen & Hin & _).
  { intros i. rewrite Hperm, elem_of_seq. lia. }
  f_equal.
  - apply omap_id_all_some. apply list_eq. intros i.
    rewrite list_lookup_fmap, list_lookup_imap.
    destruct (tasks !! i) as [t|] eqn:Ht; simpl.
    + apply Hin; [|done]. rewrite Hperm, elem_of_seq.
      apply lookup_lt_Some in Ht. lia.
    + apply lookup_ge_None. apply lookup_ge_None in Ht. lia.
  - by rewrite Hperm, length_seq.
Qed.

Lemma collect_step_foldl (items : list (chain * result ScoreOutput))
    (results : list ScoreOutput) (errs : list ScoringError) :
  foldl collect_step (results, errs) items
  = (results ++ omap (fun item => ok_of item.2) items, errs ++ omap failure_of items).
Proof.
  revert results errs.
  induction items as [|[[name run] res] items IH]; intros results errs; simpl.
  - by rewrite !app_nil_r.
  - destruct res as [r|e]; simpl; rewrite IH; unfold failure_of; simpl;
      by rewrite <- !app_assoc.
Qed.

Lemma collect_spec (chains : list chain) (gathered : list (result ScoreOutput)) :
  length gathered = length chains →
  collect chains gathered = (omap ok_of gathered, omap failure_of (zip chains gathered)).
Proof.
  intros Hlen. unfold collect. rewrite collect_step_foldl. simpl. f_equal.
  revert gathered Hlen.
  induction chains as [|c chains IH]; intros [|g gathered] Hlen; simpl in *; try done.
  rewrite IH by lia. done.
Qed.


Lemma outcomes_length chains delay tick markdown :
  length (outcomes chains delay tick markdown) = length chains.
Proof. unfold outcomes. by rewrite length_imap. Qed.

Lemma gather_outcomes (chains : list chain) delay tick markdown :
  gather ((fun c : chain => c.2 markdown) <$> chains) delay tick
  = (outcomes chains delay tick markdown, (tick + length chains)%nat).
Proof.
  rewrite gather_spec, length_fmap. f_equal.
  unfold outcomes, completion_time. apply list_eq. intros i.
  rewrite !list_lookup_imap, list_lookup_fmap.
  by destruct (chains !! i).
Qed.

Lemma score_chains_spec chains delay tick markdown fs player_summary_path out_path :
  score_chains chains delay tick markdown fs player_summary_path out_path
  = let gathered := outcomes chains delay tick markdown in
    let aggregate :=
      make_aggregate (display_name player_summary_path)
        (omap ok_of gathered) (omap failure_of (zip chains gathered))
        (utc_now (tick + length chains)) in
    (aggregate, write_text fs out_path (json_dumps (aggregate_dict aggregate))).
Proof.
  unfold score_chains. rewrite gather_outcomes.
  rewrite collect_spec by apply outcomes_length. done.
Qed.

End OrchestratorProps.
Section GatherAll.
Context `{!Outside}.







End GatherAll.


Section Stamping.
Context `{!Outside}.

Lemma build_chain_inv (l : llm) (name markdown now : pystr) (r : ScoreOutput) :
  build_chain l name markdown now = Ok r →
  ∃ args data,
    ainvoke_structured l markdown = Ok args
    ∧ model_validate args = Ok data
    ∧ r = stamp name now data.
Proof.
  unfold build_chain.
  destruct (ainvoke_structured l markdown) as [args|]; cbn [mbind result_bind]; [|done].
  destruct (model_validate args) as [data|] eqn:Hdata; cbn [mbind result_bind]; [|done].
  intros [= <-]. by exists args, data.
Qed.

Lemma build_chain_plain_json_inv (l : llm) (name markdown now : pystr) (r : ScoreOutput) :
  build_chain_plain_json l name markdown now = Ok r →
  ∃ content data_raw data,
    ainvoke l markdown = Ok content
    ∧ _extract_json_object content = Ok data_raw
    ∧ model_validate data_raw = Ok data
    ∧ r = stamp name now data.
Proof.
  unfold build_chain_plain_json.
  destruct (ainvoke l markdown) as [content|]; cbn [mbind result_bind]; [|done].
  destruct (_extract_json_object content) as [raw|] eqn:Hraw; cbn [mbind result_bind]; [|done].
  destruct (model_validate raw) as [data|] eqn:Hdata; cbn [mbind result_bind]; [|done].
  intros [= <-]. by exists content, raw, data.
Qed.

Lemma build_chain_deepseek_inv (l : llm) (name markdown now : pystr) (r : ScoreOutput) :
  build_chain_plain_json_for_deepseek l name markdown now = Ok r →
  ∃ content data_raw data,
    ainvoke l markdown = Ok content
    ∧ _extract_json_object (_strip_think_blocks content) = Ok data_raw
    ∧ model_validate data_raw = Ok data
    ∧ r = stamp name now data.
Proof.
  unfold build_chain_plain_json_for_deepseek.
  destruct (ainvoke l markdown) as [content|]; cbn [mbind result_bind]; [|done].
  destruct (_extract_json_object (_strip_think_blocks content)) as [raw|] eqn:Hraw; cbn [mbind result_bind]; [|done].
  destruct (model_validate raw) as [data|] eqn:Hdata; cbn [mbind result_bind]; [|done].
  intros [= <-]. by exists content, raw, data.
Qed.

Lemma stamps_build_chain l name : stamps (name, build_chain l name).
Proof. intros md now r (? & ? & _ & _ & ->)%build_chain_inv. done. Qed.

Lemma stamps_build_chain_plain_json l name : stamps (name, build_chain_plain_json l name).
Proof. intros md now r (? & ? & ? & _ & _ & _ & ->)%build_chain_plain_json_inv. done. Qed.

Lemma stamps_build_chain_deepseek l name :
  stamps (name, build_chain_plain_json_for_deepseek l name).
Proof. intros md now r (? & ? & ? & _ & _ & _ & ->)%build_chain_deepseek_inv. done. Qed.

Lemma stamps_openrouter_chain env model : Forall stamps (openrouter_chain env model).
Proof.
  unfold openrouter_chain. destruct (make_openrouter env model); [|done].
  apply Forall_singleton, stamps_build_chain_plain_json.
Qed.

Lemma stamps_openrouter_chains env : Forall stamps (openrouter_chains env).
Proof.
  unfold openrouter_chains. destruct (truthy (env !! str "OPENROUTER_API_KEY")); [|done].
  repeat (apply Forall_app; split);
    repeat case_match; auto using stamps_openrouter_chain.
Qed.

Lemma stamps_build_chains env args chains :
  build_chains env args = Ok chains → Forall stamps chains.
Proof.
  unfold build_chains.
  repeat match goal with
         | |- context [mbind _ ?r] =>
             lazymatch r with
             | mbind _ _ => fail
             | _ => destruct r; cbn [mbind result_bind]; [|done]
             end
         end.
  intros [= <-].
  repeat first [ apply Forall_app; split | apply Forall_cons; split | apply Forall_nil_2 ];
    repeat case_match;
    repeat first [ apply Forall_app; split | apply Forall_cons; split | apply Forall_nil_2 ];
    auto using stamps_build_chain, stamps_build_chain_plain_json,
      stamps_build_chain_deepseek, stamps_openrouter_chains.
Qed.

Lemma ratings_from_chains chains delay tick markdown (r : ScoreOutput) :
  r ∈ omap ok_of (outcomes chains delay tick markdown) →
  ∃ i c, chains !! i = Some c
         ∧ c.2 markdown (completion_time delay (length chains) tick i) = Ok r.
Proof.
  intros (o & Ho & Hok)%list_elem_of_omap.
  apply list_elem_of_lookup in Ho as [i Hi].
  unfold outcomes in Hi. rewrite list_lookup_imap in Hi.
  destruct (chains !! i) as [c|] eqn:Hc; [|done].
  injection Hi as <-. exists i, c. split; [done|].
  destruct (c.2 markdown _); [|done]. by injection Hok as ->.
Qed.

(** C5. A rating that a chain returns is the validated reply with
    [model_name] set to the chain's configured identifier and [timestamp]
    set to the clock as read when the call completes, whatever the reply
    held in those two fields; this holds for the three kinds of chain, the
    chains that [score_all] configures are of these kinds under their own
    identifiers, and so every rating of an aggregate carries the identifier
    of its chain and the time of its completion. *)
Theorem stamped_by_orchestrator :
  (∀ name now data,
     model_name (stamp name now data) = name
     ∧ timestamp (stamp name now data) = now
     ∧ current_rating (stamp name now data) = current_rating data
     ∧ future_rating (stamp name now data) = future_rating data
     ∧ current_confidence (stamp name now data) = current_confidence data
     ∧ future_confidence (stamp name now data) = future_confidence data
     ∧ reasoning (stamp name now data) = reasoning data
     ∧ version (stamp name now data) = version data)
  ∧ (∀ l name markdown now r,
       build_chain l name markdown now = Ok r →
       ∃ args data,
         ainvoke_structured l markdown = Ok args
         ∧ model_validate args = Ok data
         ∧ r = stamp name now data)
  ∧ (∀ l name markdown now r,
       build_chain_plain_json l name markdown now = Ok r →
       ∃ content data_raw data,
         ainvoke l markdown = Ok content
         ∧ _extract_json_object content = Ok data_raw
         ∧ model_validate data_raw = Ok data
         ∧ r = stamp name now data)
  ∧ (∀ l name markdown now r,
       build_chain_plain_json_for_deepseek l name markdown now = Ok r →
       ∃ content data_raw data,
         ainvoke l markdown = Ok content
         ∧ _extract_json_object (_strip_think_blocks content) = Ok data_raw
         ∧ model_validate data_raw = Ok data
         ∧ r = stamp name now data)
  ∧ (∀ env args chains, build_chains env args = Ok chains → Forall stamps chains)
  ∧ (∀ chains delay tick markdown fs player_summary_path out_path r,
       Forall stamps chains →
       r ∈ ratings (score_chains chains delay tick markdown fs
                      player_summary_path out_path).1 →
       ∃ i c, chains !! i = Some c
              ∧ model_name r = c.1
              ∧ timestamp r = completion_time delay (length chains) tick i).
Proof.
  split; [done|].
  split; [exact build_chain_inv|].
  split; [exact build_chain_plain_json_inv|].
  split; [exact build_chain_deepseek_inv|].
  split; [exact stamps_build_chains|].
  intros chains delay tick markdown fs p out r Hstamps Hr.
  rewrite score_chains_spec in Hr. cbn in Hr.
  apply ratings_from_chains in Hr as (i & c & Hc & Hrun).
  exists i, c. split; [done|].
  rewrite Forall_forall in Hstamps.
  apply (Hstamps c ltac:(by eapply list_elem_of_lookup_2) markdown). exact Hrun.
Qed.

End Stamping.

(** [stamped_by_orchestrator] at a chain configured as [llama-4-scout]
    whose model signs its reply as [gpt-4o], at year 1999. *)
Lemma stamped_by_orchestrator_witness :
  ∃ r, build_chain_plain_json (H := reference_outside) (canned_llm (Ok good_reply))
         (str "llama-4-scout") (str "report") (str "2026-01-01T00:00:00+00:00") = Ok r
       ∧ model_name r = str "llama-4-scout"
       ∧ timestamp r = str "2026-01-01T00:00:00+00:00"
       ∧ current_rating r = 7.
Proof.
  destruct (build_chain_plain_json (H := reference_outside) (canned_llm (Ok good_reply))
              (str "llama-4-scout") (str "report") (str "2026-01-01T00:00:00+00:00"))
    as [r|] eqn:Hrun; [|vm_compute in Hrun; discriminate].
  exists r. split; [done|].
  destruct (stamped_by_orchestrator (H := reference_outside)) as (Hstamp & _ & Hplain & _).
  destruct (Hplain _ _ _ _ _ Hrun) as (content & raw & data & Hc & Hraw & Hdata & ->).
  destruct (Hstamp (str "llama-4-scout") (str "2026-01-01T00:00:00+00:00") data)
    as (-> & -> & -> & _).
  split; [done|]. split; [done|].
  vm_compute in Hc. injection Hc as <-.
  vm_compute in Hraw. injection Hraw as <-.
  vm_compute in Hdata. injection Hdata as <-.
  reflexivity.
Defined.

(** ** Extraction of the JSON object *)

Lemma find_char_app_absent (c : ascii) (pre rest : pystr) :
  c ∉ pre → PyStr.find_char c (pre ++ c :: rest) = Some (length pre).
Proof.
  induction pre as [|x pre IH]; intros Hpre; simpl.
  - by rewrite Ascii.eqb_refl.
  - apply not_elem_of_cons in Hpre as [Hx Hpre].
    destruct (Ascii.eqb x c) eqn:Hxc; [by apply Ascii.eqb_eq in Hxc; subst|].
    by rewrite IH.
Qed.

Lemma balanced_span_app (depth : Z) (s t : pystr) (n : nat) :
  balanced_span depth s = Some n → balanced_span depth (s ++ t) = Some n.
Proof.
  revert depth n. induction s as [|ch s IH]; intros depth n; simpl; [done|].
  repeat case_match; try done;
    destruct (balanced_span _ s) as [m|] eqn:Hm; try done;
    by rewrite (IH _ _ Hm).
Qed.

Section ExtractionProps.
Context `{!Outside}.

Lemma extract_first_success (text : pystr) :
  _extract_json_object text =
    match first_success (strategies text) with
    | Some v => Ok v
    | None => Raise extraction_error
    end.
Proof.
  unfold _extract_json_object, strategies. simpl.
  destruct (json_loads text); [done|].
  destruct (Re.search_fenced text ≫= json_loads); [done|].
  destruct (first_balanced text) as [candidate|]; simpl; [|done].
  by destruct (json_loads candidate).
Qed.

Lemma first_balanced_wrapped (pre body post : pystr) :
  "{"%char ∉ pre →
  closes_at_end ("{"%char :: body) →
  first_balanced (pre ++ ("{"%char :: body) ++ post) = Some ("{"%char :: body).
Proof.
  intros Hpre Hclose. unfold first_balanced.
  change (pre ++ ("{"%char :: body) ++ post) with (pre ++ "{"%char :: (body ++ post)).
  rewrite find_char_app_absent by done. cbn [mbind option_bind].
  rewrite drop_app_length.
  change ("{"%char :: body ++ post) with (("{"%char :: body) ++ post).
  rewrite (balanced_span_app _ _ post _ Hclose). cbn [mbind option_bind].
  by rewrite take_app_length.
Qed.

(** C3 (as amended). The extraction returns what the first successful
    one of its three strategies yields, in the order: the whole reply
    parsed as JSON, the contents of a fenced block labelled json, the first
    balanced span of braces; when none parses it raises the extraction
    error. For prose, a JSON object, prose, it returns that object provided
    that the whole reply is not itself JSON, that no fenced block parses,
    that the leading prose holds no opening brace, and that the object's
    brace depth, counted over all of its characters, those inside strings
    too, comes back to zero at its last character and not before. *)
Theorem extraction_order (text : pystr) :
  _extract_json_object text =
    match first_success (strategies text) with
    | Some v => Ok v
    | None => Raise extraction_error
    end
  ∧ (∀ pre body post v,
       text = pre ++ ("{"%char :: body) ++ post →
       json_loads text = None →
       Re.search_fenced text ≫= json_loads = None →
       "{"%char ∉ pre →
       closes_at_end ("{"%char :: body) →
       json_loads ("{"%char :: body) = Some v →
       _extract_json_object text = Ok v).
Proof.
  split; [apply extract_first_success|].
  intros pre body post v -> Hwhole Hfence Hpre Hclose Hobj.
  rewrite extract_first_success. unfold strategies.
  rewrite Hwhole, Hfence, first_balanced_wrapped by done. simpl.
  by rewrite Hobj.
Qed.

End ExtractionProps.

(** [extraction_order] at the reply [Sure, here:], an object with a nested
    object, [Thanks]. *)
Lemma extraction_order_witness :
  _extract_json_object (H := reference_outside) wrapped_reply
  = Ok (PDict [(str "current_rating", PInt 7);
               (str "detail", PDict [(str "future_rating", PInt 8)])]).
Proof.
  destruct (extraction_order (H := reference_outside) wrapped_reply) as [_ Hwrapped].
  apply (Hwrapped (str "Sure, here:" ++ [newline])
                  (match wrapped_object with _ :: body => body | [] => [] end)
                  ([newline] ++ str "Thanks")).
  - reflexivity.
  - vm_compute. reflexivity.
  - vm_compute. reflexivity.
  - rewrite list_elem_of_In. vm_compute. intuition discriminate.
  - vm_compute. reflexivity.
  - vm_compute. reflexivity.
Defined.

(** C3 (as stated) fails: in [Sure: ], an object with a closing brace
    inside a string, [ ok], the scan stops at the brace inside the string,
    the span does not parse, and the extraction raises although the object
    is valid JSON. *)
Lemma brace_in_string_not_recovered :
  json_loads (Outside := reference_outside) brace_in_string
  = Some (PDict [(str "reasoning", PStr (str "see section }"))])
  ∧ first_balanced (str "Sure: " ++ brace_in_string ++ str " ok")
    = Some (jstr "{'reasoning':'see section }")
  ∧ _extract_json_object (H := reference_outside) (str "Sure: " ++ brace_in_string ++ str " ok")
    = Raise extraction_error.
Proof. repeat split; vm_compute; reflexivity. Qed.
(** ** Stripping of the reasoning preamble *)

Lemma lower_char_idemp (c : ascii) :
  PyStr.lower_char (PyStr.lower_char c) = PyStr.lower_char c.
Proof. destruct c as [[] [] [] [] [] [] [] []]; vm_compute; reflexivity. Qed.

Lemma prefix_ci_lower (p s : pystr) : Re.prefix_ci p (PyStr.lower s) = Re.prefix_ci p s.
Proof.
  revert s. induction p as [|a p IH]; intros [|b s]; simpl; try done.
  by rewrite lower_char_idemp, IH.
Qed.

Lemma find_ci_lower (p s : pystr) : Re.find_ci p (PyStr.lower s) = Re.find_ci p s.
Proof.
  induction s as [|b s IH].
  - done.
  - cbn [Re.find_ci]. rewrite <- IH.
    change (PyStr.lower (b :: s)) with (PyStr.lower_char b :: PyStr.lower s).
    rewrite <- (prefix_ci_lower p (b :: s)).
    change (PyStr.lower (b :: s)) with (PyStr.lower_char b :: PyStr.lower s).
    done.
Qed.

Lemma lower_app (s t : pystr) : PyStr.lower (s ++ t) = PyStr.lower s ++ PyStr.lower t.
Proof. apply map_app. Qed.

Lemma prefix_ci_app_long (p B R : pystr) :
  (length p ≤ length B)%nat → Re.prefix_ci p (B ++ R) = Re.prefix_ci p B.
Proof.
  revert B. induction p as [|a p IH]; intros [|b B] Hlen; simpl in *; try done; try lia.
  rewrite IH by lia. done.
Qed.

Lemma prefix_ci_app_short (p B R : pystr) :
  (length B ≤ length p)%nat → Re.prefix_ci p (B ++ R) = true →
  Re.prefix_ci (drop (length B) p) R = true.
Proof.
  revert p. induction B as [|b B IH]; intros [|a p] Hlen; simpl in *; try done; try lia.
  intros [_ Hrest]%andb_prop. apply IH; [lia | done].
Qed.

Lemma find_ci_None_cons (p : pystr) (c : ascii) (s : pystr) :
  Re.find_ci p (c :: s) = None ↔ Re.prefix_ci p (c :: s) = false ∧ Re.find_ci p s = None.
Proof.
  cbn [Re.find_ci]. destruct (Re.prefix_ci p (c :: s)); [naive_solver|].
  destruct (Re.find_ci p s); naive_solver.
Qed.

Lemma find_ci_None_prefix (p s : pystr) :
  p ≠ [] → Re.find_ci p s = None → Re.prefix_ci p s = false.
Proof.
  intros Hp. destruct s as [|c s].
  - by destruct p.
  - by intros [? _]%find_ci_None_cons.
Qed.

Lemma find_ci_None_drop (p s : pystr) (n : nat) :
  Re.find_ci p s = None → Re.find_ci p (drop n s) = None.
Proof.
  revert s. induction n as [|n IH]; intros s Hs; [done|].
  destruct s as [|c s]; [done|]. simpl.
  apply IH. by apply find_ci_None_cons in Hs as [_ ?].
Qed.

(** *** The substitution engine *)

Lemma sub_empty_skip (f : pystr -> option nat) (n : nat) (s : pystr) :
  Re.sub_empty f n s = Re.sub_empty f O (drop n s).
Proof.
  revert n. induction s as [|c s IH]; intros [|n]; try done.
  simpl. apply IH.
Qed.

Lemma sub_empty_match (f : pystr -> option nat) (s : pystr) (n : nat) :
  f s = Some (S n) → (S n ≤ length s)%nat →
  Re.sub_empty f O s = Re.sub_empty f O (drop (S n) s).
Proof.
  intros Hf Hlen. destruct s as [|c s]; [simpl in Hlen; lia|].
  cbn [Re.sub_empty]. rewrite Hf. cbn [drop]. apply sub_empty_skip.
Qed.

Lemma sub_empty_no_match (f : pystr -> option nat) (s : pystr) :
  (∀ i, f (drop i s) = None) → Re.sub_empty f O s = s.
Proof.
  induction s as [|c s IH]; intros Hf; [done|].
  cbn [Re.sub_empty]. pose proof (Hf O) as H0. cbn [drop] in H0. rewrite H0. f_equal.
  apply IH. intros i. apply (Hf (S i)).
Qed.

(** *** The markers *)

Lemma think_block_needs_close (s : pystr) :
  tag_free Re.close_tag s → ∀ i, Re.think_block (drop i s) = None.
Proof.
  intros Hs i. unfold Re.think_block.
  destruct (Re.prefix_ci _ _); [|done].
  rewrite drop_drop. by rewrite find_ci_None_drop.
Qed.

Lemma think_block_needs_open (s : pystr) :
  tag_free Re.open_tag s → ∀ i, Re.think_block (drop i s) = None.
Proof.
  intros Hs i. unfold Re.think_block.
  rewrite find_ci_None_prefix; [done | done |]. by apply find_ci_None_drop.
Qed.

Lemma think_tag_needs_tag (s : pystr) :
  tag_free Re.open_tag s → tag_free Re.close_tag s → ∀ i, Re.think_tag (drop i s) = None.
Proof.
  intros Ho Hc i. unfold Re.think_tag.
  rewrite (find_ci_None_prefix Re.close_tag), (find_ci_None_prefix Re.open_tag);
    try done; by apply find_ci_None_drop.
Qed.

Lemma strip_tag_free (s : pystr) :
  tag_free Re.open_tag s → tag_free Re.close_tag s → _strip_think_blocks s = s.
Proof.
  intros Ho Hc. unfold _strip_think_blocks.
  rewrite (sub_empty_no_match Re.think_block) by by apply think_block_needs_close.
  by apply sub_empty_no_match, think_tag_needs_tag.
Qed.

Lemma open_tag_length (m : pystr) : is_open_tag m → length m = 7%nat.
Proof.
  intros Hm. apply (f_equal length) in Hm.
  unfold PyStr.lower in Hm. by rewrite length_map in Hm.
Qed.

Lemma close_tag_length (m : pystr) : is_close_tag m → length m = 8%nat.
Proof.
  intros Hm. apply (f_equal length) in Hm.
  unfold PyStr.lower in Hm. by rewrite length_map in Hm.
Qed.

Lemma open_tag_alone (m s : pystr) :
  is_open_tag m → tag_free Re.close_tag s → tag_free Re.close_tag (m ++ s).
Proof.
  unfold is_open_tag, tag_free. intros Hm Hs.
  rewrite <- find_ci_lower, lower_app, Hm.
  rewrite <- find_ci_lower in Hs. revert Hs.
  generalize (PyStr.lower s). intros Y HY. cbn in HY |- *. by rewrite HY.
Qed.

Lemma close_tag_alone (m s : pystr) :
  is_close_tag m → tag_free Re.open_tag s → tag_free Re.open_tag (m ++ s).
Proof.
  unfold is_close_tag, tag_free. intros Hm Hs.
  rewrite <- find_ci_lower, lower_app, Hm.
  rewrite <- find_ci_lower in Hs. revert Hs.
  generalize (PyStr.lower s). intros Y HY. cbn in HY |- *. by rewrite HY.
Qed.

Lemma think_tag_open (m s : pystr) : is_open_tag m → Re.think_tag (m ++ s) = Some 7%nat.
Proof.
  unfold is_open_tag, Re.think_tag. intros Hm.
  rewrite <- (prefix_ci_lower Re.close_tag), <- (prefix_ci_lower Re.open_tag).
  rewrite lower_app, Hm. generalize (PyStr.lower s). intros Y. reflexivity.
Qed.

Lemma think_tag_close (m s : pystr) : is_close_tag m → Re.think_tag (m ++ s) = Some 8%nat.
Proof.
  unfold is_close_tag, Re.think_tag. intros Hm.
  rewrite <- (prefix_ci_lower Re.close_tag).
  rewrite lower_app, Hm. generalize (PyStr.lower s). intros Y. reflexivity.
Qed.

Lemma close_tag_first (body c s : pystr) :
  is_close_tag c → tag_free Re.close_tag body →
  Re.find_ci Re.close_tag (body ++ c ++ s) = Some (length body).
Proof.
  unfold is_close_tag, tag_free. intros Hc Hbody.
  rewrite <- find_ci_lower, !lower_app, Hc.
  rewrite <- find_ci_lower in Hbody.
  rewrite <- (length_map PyStr.lower_char body).
  fold (PyStr.lower body).
  generalize dependent (PyStr.lower body). generalize (PyStr.lower s). clear.
  intros rest B. induction B as [|b B IH]; intros HB.
  - reflexivity.
  - apply find_ci_None_cons in HB as [Hhere HB].
    change ((b :: B) ++ Re.close_tag ++ rest) with (b :: (B ++ Re.close_tag ++ rest)).
    cbn [Re.find_ci].
    change (b :: (B ++ Re.close_tag ++ rest)) with ((b :: B) ++ Re.close_tag ++ rest).
    destruct (Re.prefix_ci Re.close_tag ((b :: B) ++ Re.close_tag ++ rest)) eqn:Hstraddle.
    + exfalso.
      destruct (decide (length Re.close_tag ≤ length (b :: B))%nat) as [Hlong | Hshort].
      * rewrite prefix_ci_app_long in Hstraddle by done. congruence.
      * apply prefix_ci_app_short in Hstraddle; [|lia].
        change (length Re.close_tag) with 8%nat in Hshort.
        destruct B as [|? [|? [|? [|? [|? [|? [|? B]]]]]]];
          try (simpl in Hshort; lia); vm_compute in Hstraddle; discriminate.
    + rewrite (IH HB). reflexivity.
Qed.

Lemma think_block_region (o body c s : pystr) :
  is_open_tag o → is_close_tag c → tag_free Re.close_tag body →
  Re.think_block (o ++ body ++ c ++ s) = Some (length (o ++ body ++ c)).
Proof.
  intros Ho Hc Hbody. unfold Re.think_block.
  rewrite <- (prefix_ci_lower Re.open_tag), lower_app, Ho.
  change (Re.prefix_ci Re.open_tag (Re.open_tag ++ _)) with true. cbn match.
  change (length Re.open_tag) with 7%nat. rewrite <- (open_tag_length o Ho).
  rewrite drop_app_length, close_tag_first by done.
  cbn [fmap option_fmap option_map]. f_equal.
  rewrite !length_app, (open_tag_length o Ho), (close_tag_length c Hc).
  change (length Re.close_tag) with 8%nat. lia.
Qed.

Lemma strip_preamble (P X : pystr) :
  preamble P → tag_free Re.open_tag X → tag_free Re.close_tag X →
  _strip_think_blocks (P ++ X) = X.
Proof.
  intros HP Ho Hc. rewrite <- (strip_tag_free X Ho Hc) at 2.
  unfold _strip_think_blocks.
  destruct HP as [o body c Hopen Hclose Hbody | m [Hm | Hm]].
  - f_equal.
    rewrite (sub_empty_match Re.think_block _ (length (o ++ body ++ c) - 1)).
    + replace (S (length (o ++ body ++ c) - 1)) with (length (o ++ body ++ c)).
      * by rewrite drop_app_length.
      * rewrite length_app, (open_tag_length o Hopen). lia.
    + rewrite <- !app_assoc, think_block_region by done. f_equal.
      rewrite length_app, (open_tag_length o Hopen). lia.
    + rewrite !length_app, (open_tag_length o Hopen). lia.
  - rewrite (sub_empty_no_match Re.think_block (m ++ X))
      by (apply think_block_needs_close; by apply open_tag_alone).
    rewrite (sub_empty_no_match Re.think_block X) by by apply think_block_needs_close.
    rewrite (sub_empty_match Re.think_tag _ 6).
    + rewrite <- (open_tag_length m Hm). by rewrite drop_app_length.
    + by apply think_tag_open.
    + rewrite length_app, (open_tag_length m Hm). lia.
  - rewrite (sub_empty_no_match Re.think_block (m ++ X))
      by (apply think_block_needs_open; by apply close_tag_alone).
    rewrite (sub_empty_no_match Re.think_block X) by by apply think_block_needs_close.
    rewrite (sub_empty_match Re.think_tag _ 7).
    + rewrite <- (close_tag_length m Hm). by rewrite drop_app_length.
    + by apply think_tag_close.
    + rewrite length_app, (close_tag_length m Hm). lia.
Qed.

Section PreambleProps.
Context `{!Outside}.

(** C4 (as amended). For a reply made of a preamble, which is a region
    from an opening marker to the first closing marker after it or one
    marker on its own, the markers in any case, followed by a text that
    holds no marker itself: the stripping removes the preamble and leaves
    the text as it is, so the extraction after stripping returns what the
    plain extraction returns on the text without the preamble, which is the
    text's JSON value when the text is valid JSON, and the chain with
    stripping on the whole reply returns what the plain chain returns on
    the text. *)
Theorem preamble_stripped (P X : pystr) :
  preamble P → tag_free Re.open_tag X → tag_free Re.close_tag X →
  _strip_think_blocks (P ++ X) = X
  ∧ _extract_json_object (_strip_think_blocks (P ++ X)) = _extract_json_object X
  ∧ (∀ v, json_loads X = Some v →
          _extract_json_object (_strip_think_blocks (P ++ X)) = Ok v)
  ∧ (∀ (with_preamble without : llm) name markdown now,
       ainvoke with_preamble markdown = Ok (P ++ X) →
       ainvoke without markdown = Ok X →
       build_chain_plain_json_for_deepseek with_preamble name markdown now
       = build_chain_plain_json without name markdown now).
Proof.
  intros HP Ho Hc.
  pose proof (strip_preamble P X HP Ho Hc) as Hstrip.
  split; [done|]. split; [by rewrite Hstrip|]. split.
  - intros v Hv. rewrite Hstrip. unfold _extract_json_object. by rewrite Hv.
  - intros l1 l2 name markdown now H1 H2.
    unfold build_chain_plain_json_for_deepseek, build_chain_plain_json.
    rewrite H1, H2. cbn [mbind result_bind]. by rewrite Hstrip.
Qed.

End PreambleProps.

(** [preamble_stripped] at a region in mixed case before a rating, and at
    a closing marker on its own before the same rating. *)
Lemma preamble_stripped_witness :
  _strip_think_blocks (thinking ++ rating_json) = rating_json
  ∧ _strip_think_blocks (str "</think>" ++ rating_json) = rating_json
  ∧ is_ok (_extract_json_object (H := reference_outside)
             (_strip_think_blocks (thinking ++ rating_json))) = true.
Proof.
  assert (preamble thinking) as Hregion.
  { apply preamble_region; vm_compute; reflexivity. }
  assert (preamble (str "</think>")) as Hlone.
  { apply preamble_lone. right. vm_compute. reflexivity. }
  assert (tag_free Re.open_tag rating_json) as Ho by (vm_compute; reflexivity).
  assert (tag_free Re.close_tag rating_json) as Hc by (vm_compute; reflexivity).
  destruct (preamble_stripped (H := reference_outside) thinking rating_json Hregion Ho Hc)
    as (Hstrip & Hsame & _).
  destruct (preamble_stripped (H := reference_outside) (str "</think>") rating_json Hlone Ho Hc)
    as (Hstrip' & _).
  split; [exact Hstrip|]. split; [exact Hstrip'|].
  rewrite Hsame. vm_compute. reflexivity.
Defined.

(** C4 (as stated) fails: when the JSON after the preamble mentions the
    marker in one of its strings, the stripping takes the marker out of the
    string too, and the object recovered is not the one that the plain
    extraction recovers from the reply without the preamble. *)
Lemma marker_in_payload_altered :
  preamble (str "<think>ok</think>")
  ∧ _extract_json_object (H := reference_outside) tagged_payload
    = Ok (PDict [(str "reasoning", PStr (str "the <think> tag is absent"))])
  ∧ _extract_json_object (H := reference_outside)
      (_strip_think_blocks (str "<think>ok</think>" ++ tagged_payload))
    = Ok (PDict [(str "reasoning", PStr (str "the  tag is absent"))]).
Proof.
  split.
  - apply (preamble_region (str "<think>") (str "ok") (str "</think>"));
      vm_compute; reflexivity.
  - split; vm_compute; reflexivity.
Qed.

(** ** The batch driver *)

Lemma path_exists_false (fs : filesystem) (p : path) :
  path_exists fs p = false ↔ files fs !! p = None.
Proof.
  unfold path_exists. rewrite bool_decide_eq_false, <- eq_None_not_Some. done.
Qed.

Lemma path_exists_true (fs : filesystem) (p : path) :
  path_exists fs p = true ↔ is_Some (files fs !! p).
Proof. unfold path_exists. by rewrite bool_decide_eq_true. Qed.

Section ScorerProps.
Context `{!Outside}.

Lemma in_process_scorer_writes env args delay_of tick :
  writes_output_only (in_process_scorer env args delay_of tick).
Proof.
  intros md out fs. unfold in_process_scorer, score_all.
  destruct (_load_merged_markdown fs md) as [markdown|]; cbn [mbind result_bind]; [|done].
  destruct (build_chains env args) as [chains|]; cbn [mbind result_bind]; [|done].
  rewrite score_chains_spec. cbn. by eexists.
Qed.

Lemma subprocess_scorer_writes env args delay_of tick :
  writes_output_only (subprocess_scorer env args delay_of tick).
Proof.
  intros md out fs. unfold subprocess_scorer.
  destruct (path_exists fs md); [apply in_process_scorer_writes | done].
Qed.

End ScorerProps.

Lemma writes_output_only_one_rating (ratings : path) (run : scorer) :
  writes_output_only run → writes_one_rating ratings run.
Proof.
  intros Hrun md out fs. specialize (Hrun md out fs).
  destruct (run md out fs) as [[] fs']; cbn [fst snd].
  - destruct Hrun as [text ->]. split.
    + intros _. apply path_exists_true. cbn. rewrite lookup_insert_eq. by eexists.
    + intros p _ Hp. cbn. by rewrite lookup_insert_ne.
  - subst fs'. split; [intros; discriminate | done].
Qed.

Lemma parent_out_path (input_dir : path) (pl : player) :
  PyPath.parent (out_path_of input_dir pl) = ratings_dir input_dir.
Proof. unfold out_path_of, PyPath.parent, PyPath.child. apply removelast_last. Qed.

Section DriverProps.
Variables (run : scorer) (input_dir : path) (idx : md_index).
Hypothesis run_rating : writes_one_rating (ratings_dir input_dir) run.

Lemma process_row_frame (st : driver_state) (pl : player) :
  let st' := process_row run input_dir idx st pl in
  (∀ p, PyPath.parent p = ratings_dir input_dir → is_Some (files (st_fs st) !! p) →
        files (st_fs st') !! p = files (st_fs st) !! p)
  ∧ (failures st ≤ failures st')%nat
  ∧ (failures st' = failures st →
     is_Some (find_summary idx pl) →
     path_exists (st_fs st') (out_path_of input_dir pl) = true).
Proof.
  unfold process_row. fold (out_path_of input_dir pl).
  destruct (find_summary idx pl) as [md|]; [|by split; [|split; [|intros _ []]]].
  destruct (path_exists (st_fs st) (out_path_of input_dir pl)) eqn:Hexists; [done|].
  destruct (run_rating md (out_path_of input_dir pl) (st_fs st)) as [Hout Hkeep].
  destruct (run md (out_path_of input_dir pl) (st_fs st)) as [completed fs'].
  cbn [fst snd] in Hout, Hkeep. cbn [st_fs failures].
  split; [|split].
  - intros p Hp Hsome. apply Hkeep; [done|]. intros ->.
    apply path_exists_false in Hexists. rewrite Hexists in Hsome. by destruct Hsome.
  - destruct completed; lia.
  - destruct completed; [|lia]. intros _ _. by apply Hout.
Qed.

Lemma rows_frame (players : list player) (st : driver_state) :
  let st' := foldl (process_row run input_dir idx) st players in
  (∀ p, PyPath.parent p = ratings_dir input_dir → is_Some (files (st_fs st) !! p) →
        files (st_fs st') !! p = files (st_fs st) !! p)
  ∧ (failures st ≤ failures st')%nat
  ∧ (failures st' = failures st →
     ∀ pl, pl ∈ players → is_Some (find_summary idx pl) →
           path_exists (st_fs st') (out_path_of input_dir pl) = true).
Proof.
  revert st. induction players as [|pl players IH]; intros st; cbn [foldl].
  - split; [done|]. split; [lia|]. by intros _ ? ?%elem_of_nil.
  - destruct (process_row_frame st pl) as (Hkeep1 & Hle1 & Hout1).
    destruct (IH (process_row run input_dir idx st pl)) as (Hkeep2 & Hle2 & Hout2).
    split; [|split; [lia|]].
    + intros p Hp Hsome. rewrite Hkeep2; [by apply Hkeep1 | done |].
      by rewrite Hkeep1.
    + intros Hfail pl' Hpl' Hfound.
      apply elem_of_cons in Hpl' as [-> | Hpl'].
      * assert (path_exists (st_fs (process_row run input_dir idx st pl))
                  (out_path_of input_dir pl) = true) as Hnow
          by (apply Hout1; [lia | done]).
        apply path_exists_true. apply path_exists_true in Hnow.
        rewrite Hkeep2; [done | apply parent_out_path | done].
      * apply Hout2; [lia | done | done].
Qed.

End DriverProps.

Lemma rows_all_skipped (run : scorer) (input_dir : path) (idx : md_index)
    (players : list player) (st : driver_state) :
  (∀ pl, pl ∈ players → is_Some (find_summary idx pl) →
         path_exists (st_fs st) (out_path_of input_dir pl) = true) →
  foldl (process_row run input_dir idx) st players = st.
Proof.
  induction players as [|pl players IH]; intros Hdone; cbn [foldl]; [done|].
  assert (process_row run input_dir idx st pl = st) as ->.
  { unfold process_row. fold (out_path_of input_dir pl).
    destruct (find_summary idx pl) eqn:Hfound; [|done].
    rewrite (Hdone pl); [done | by left | by rewrite Hfound]. }
  apply IH. intros pl' Hpl'. apply Hdone. by right.
Qed.

Lemma rerun_of_rows (run1 run2 : scorer) (input_dir : path) (idx : md_index)
    (players : list player) (fs : filesystem) :
  writes_one_rating (ratings_dir input_dir) run1 →
  let first_run := foldl (process_row run1 input_dir idx) (initial_state fs) players in
  let second_run :=
    foldl (process_row run2 input_dir idx) (initial_state (st_fs first_run)) players in
  (∀ p f, PyPath.parent p = ratings_dir input_dir →
          files fs !! p = Some f → files (st_fs first_run) !! p = Some f)
  ∧ (failures first_run = 0%nat → second_run = initial_state (st_fs first_run)).
Proof.
  intros Hrun first_run second_run.
  destruct (rows_frame run1 input_dir idx Hrun players (initial_state fs))
    as (Hkeep & _ & Hout).
  fold first_run in Hkeep, Hout. split.
  - intros p f Hp Hf. rewrite Hkeep; [done | done |]. cbn. by rewrite Hf.
  - intros Hfail. apply rows_all_skipped. intros pl Hpl Hfound.
    by apply Hout.
Qed.

(** C6 (as amended). A run of the batch driver leaves every file of the
    ratings directory that existed before it, every output above all, as it
    was. When a run has recorded no failure (every row it scored got its
    output file), a second run against the same roster and the same
    summaries finds the output of every row that has a summary, so it hands
    nothing to the scorer, reports zero successes and zero failures, and
    leaves the files of the ratings directory as the first run left them.
    This holds for [batch_score.main] and for [score_runner.main
    --from-roster], with any scorer that has written its output path when
    it completes and changes no other file of the ratings directory. *)
Theorem second_run_skips_all (run1 run2 : scorer) (input_dir : path)
    (md_files : list path) (rows : list csv_row) (fs : filesystem) :
  writes_one_rating (ratings_dir input_dir) run1 →
  (let first_run := batch_main run1 input_dir md_files rows fs in
   let second_run := batch_main run2 input_dir md_files rows (st_fs first_run) in
   (∀ p f, PyPath.parent p = ratings_dir input_dir →
           files fs !! p = Some f → files (st_fs first_run) !! p = Some f)
   ∧ (failures first_run = 0%nat →
      scored second_run = []
      ∧ successes second_run = 0%nat
      ∧ failures second_run = 0%nat
      ∧ ∀ p, PyPath.parent p = ratings_dir input_dir →
             files (st_fs second_run) !! p = files (st_fs first_run) !! p))
  ∧ (let first_run := roster_main run1 input_dir md_files rows fs in
     let second_run := roster_main run2 input_dir md_files rows (st_fs first_run) in
     (∀ p f, PyPath.parent p = ratings_dir input_dir →
             files fs !! p = Some f → files (st_fs first_run) !! p = Some f)
     ∧ (failures first_run = 0%nat →
        scored second_run = []
        ∧ successes second_run = 0%nat
        ∧ failures second_run = 0%nat
        ∧ ∀ p, PyPath.parent p = ratings_dir input_dir →
               files (st_fs second_run) !! p = files (st_fs first_run) !! p)).
Proof.
  intros Hrun. split.
  - destruct (rerun_of_rows run1 run2 input_dir (build_index md_files)
                (_iter_roster_players rows) fs Hrun) as [Hkeep Hskip].
    cbv zeta. unfold batch_main.
    split; [exact Hkeep|]. intros Hfail. by rewrite (Hskip Hfail).
  - destruct (rerun_of_rows run1 run2 input_dir (build_index_roster md_files)
                (_iter_roster_players rows) fs Hrun) as [Hkeep Hskip].
    cbv zeta. unfold roster_main.
    split; [exact Hkeep|]. intros Hfail. by rewrite (Hskip Hfail).
Qed.

(** [second_run_skips_all] at the one-row roster with the keys in the
    environment: the first run scores the row, the second one skips it. *)
Lemma second_run_skips_all_witness :
  successes (one_row_run keys_env one_summary_fs) = 1%nat
  ∧ failures (one_row_run keys_env one_summary_fs) = 0%nat
  ∧ scored (one_row_run keys_env (st_fs (one_row_run keys_env one_summary_fs))) = []
  ∧ successes (one_row_run keys_env (st_fs (one_row_run keys_env one_summary_fs))) = 0%nat
  ∧ failures (one_row_run keys_env (st_fs (one_row_run keys_env one_summary_fs))) = 0%nat.
Proof.
  assert (failures (one_row_run keys_env one_summary_fs) = 0%nat) as Hfail
    by (vm_compute; reflexivity).
  split; [vm_compute; reflexivity|]. split; [exact Hfail|].
  pose proof (second_run_skips_all
                (subprocess_scorer (H := reference_outside) keys_env default_args
                   (fun _ => last_first) 0)
                (subprocess_scorer (H := reference_outside) keys_env default_args
                   (fun _ => last_first) 0)
                [str "player_summaries"] [summary_file "auston_matthews.md"] [auston_row]
                one_summary_fs
                (writes_output_only_one_rating _ _ (subprocess_scorer_writes _ _ _ _)))
    as [[_ Hskip] _].
  destruct (Hskip Hfail) as (Hscored & Hsucc & Hfail2 & _).
  split; [exact Hscored|]. split; [exact Hsucc | exact Hfail2].
Defined.

(** C6 (as stated) fails: with no API key in the environment the scoring
    of the row fails and writes nothing, so the second run hands the same
    summary to the scorer again and counts one more failure. *)
Lemma failed_row_is_retried :
  failures (one_row_run ∅ one_summary_fs) = 1%nat
  ∧ scored (one_row_run ∅ (st_fs (one_row_run ∅ one_summary_fs)))
    = [summary_file "auston_matthews.md"]
  ∧ failures (one_row_run ∅ (st_fs (one_row_run ∅ one_summary_fs))) = 1%nat.
Proof. repeat split; vm_compute; reflexivity. Qed.

(** * Further properties *)

(** ** Stripping and slugs *)

Lemma lstrip_clean (s : pystr) : starts_clean s = true → PyStr.lstrip s = s.
Proof. destruct s as [|c s]; simpl; [done|]. by destruct (PyStr.isspace c). Qed.

Lemma lstrip_starts_clean (s : pystr) : starts_clean (PyStr.lstrip s) = true.
Proof.
  induction s as [|c s IH]; simpl; [done|].
  destruct (PyStr.isspace c) eqn:Hc; [done|]. simpl. by rewrite Hc.
Qed.

Lemma lstrip_snoc_clean (s : pystr) (c : ascii) :
  PyStr.isspace c = false → PyStr.lstrip (s ++ [c]) = PyStr.lstrip s ++ [c].
Proof.
  intros Hc. induction s as [|x s IH]; simpl.
  - by rewrite Hc.
  - by destruct (PyStr.isspace x).
Qed.

Lemma rstrip_cons_clean (c : ascii) (s : pystr) :
  PyStr.isspace c = false → PyStr.rstrip (c :: s) = c :: PyStr.rstrip s.
Proof.
  intros Hc. unfold PyStr.rstrip. simpl.
  by rewrite lstrip_snoc_clean, rev_app_distr.
Qed.

Lemma strip_trimmed (s : pystr) : trimmed (PyStr.strip s).
Proof.
  unfold trimmed, PyStr.strip. split.
  - pose proof (lstrip_starts_clean s) as Hl.
    destruct (PyStr.lstrip s) as [|c r]; [done|].
    simpl in Hl. apply negb_true_iff in Hl.
    rewrite rstrip_cons_clean by done. simpl. by rewrite Hl.
  - unfold PyStr.rstrip. rewrite rev_involutive. apply lstrip_starts_clean.
Qed.

Lemma strip_of_trimmed (s : pystr) : trimmed s → PyStr.strip s = s.
Proof.
  intros [Hl Hr]. unfold PyStr.strip, PyStr.rstrip.
  by rewrite (lstrip_clean s Hl), (lstrip_clean (rev s) Hr), rev_involutive.
Qed.

Lemma trimmed_fmap (f : ascii -> ascii) (s : pystr) :
  (∀ c, PyStr.isspace c = false → PyStr.isspace (f c) = false) →
  trimmed s → trimmed (f <$> s).
Proof.
  intros Hf [Hl Hr]. unfold trimmed.
  assert (∀ u, starts_clean u = true → starts_clean (f <$> u) = true) as Hclean.
  { intros [|c u]; simpl; [done|].
    rewrite !negb_true_iff. apply Hf. }
  split; [by apply Hclean|].
  change (f <$> s) with (map f s). rewrite <- map_rev. by apply Hclean.
Qed.

Lemma slug_char_keeps_clean (c : ascii) :
  PyStr.isspace c = false → PyStr.isspace (slug_char c) = false.
Proof. destruct c as [[] [] [] [] [] [] [] []]; vm_compute; done. Qed.

Lemma slug_char_idemp (c : ascii) : slug_char (slug_char c) = slug_char c.
Proof. destruct c as [[] [] [] [] [] [] [] []]; vm_compute; reflexivity. Qed.

Lemma slug_char_lower (c : ascii) : slug_char (PyStr.lower_char c) = slug_char c.
Proof. destruct c as [[] [] [] [] [] [] [] []]; vm_compute; reflexivity. Qed.

Lemma slug_char_plain (c : ascii) :
  Ascii.eqb (slug_char c) " " = false
  ∧ Ascii.eqb (slug_char c) "-" = false
  ∧ is_ascii_upper (slug_char c) = false.
Proof. destruct c as [[] [] [] [] [] [] [] []]; vm_compute; done. Qed.

Lemma isspace_lower (c : ascii) : PyStr.isspace (PyStr.lower_char c) = PyStr.isspace c.
Proof. destruct c as [[] [] [] [] [] [] [] []]; vm_compute; reflexivity. Qed.

Lemma lstrip_lower (s : pystr) : PyStr.lstrip (PyStr.lower s) = PyStr.lower (PyStr.lstrip s).
Proof.
  induction s as [|c s IH]; simpl; [done|].
  rewrite isspace_lower. by destruct (PyStr.isspace c).
Qed.

Lemma rev_lower (s : pystr) : rev (PyStr.lower s) = PyStr.lower (rev s).
Proof. unfold PyStr.lower. by rewrite map_rev. Qed.

Lemma strip_lower (s : pystr) : PyStr.strip (PyStr.lower s) = PyStr.lower (PyStr.strip s).
Proof.
  unfold PyStr.strip, PyStr.rstrip.
  by rewrite lstrip_lower, rev_lower, lstrip_lower, rev_lower.
Qed.

(** X1. [_slugify] is idempotent, it does not tell upper case from lower
    case, and a slug holds no space, no hyphen and no upper-case ASCII
    letter, and does not begin or end with whitespace. *)
Theorem slugify_normal_form (text : pystr) :
  _slugify (_slugify text) = _slugify text
  ∧ _slugify (PyStr.lower text) = _slugify text
  ∧ Forall (fun c => c ≠ " "%char ∧ c ≠ "-"%char ∧ is_ascii_upper c = false) (_slugify text)
  ∧ trimmed (_slugify text).
Proof.
  rewrite !slugify_pointwise.
  assert (trimmed (slug_char <$> PyStr.strip text)) as Htrim.
  { apply trimmed_fmap; [exact slug_char_keeps_clean | apply strip_trimmed]. }
  split.
  { rewrite (strip_of_trimmed _ Htrim), <- list_fmap_compose.
    apply list_fmap_ext. intros _ c _. apply slug_char_idemp. }
  split.
  { rewrite strip_lower. unfold PyStr.lower.
    change (map PyStr.lower_char (PyStr.strip text)) with (PyStr.lower_char <$> PyStr.strip text).
    rewrite <- list_fmap_compose.
    apply list_fmap_ext. intros _ c _. apply slug_char_lower. }
  split.
  { apply Forall_fmap, Forall_true. intros c. simpl.
    destruct (slug_char_plain c) as (Hs & Hh & Hu).
    split; [|split; [|done]]; intros Heq; rewrite Heq in *; done. }
  done.
Qed.

(** ** The roster *)

Lemma lstrip_nil_iff (s : pystr) : PyStr.lstrip s = [] ↔ blank s.
Proof.
  unfold blank. induction s as [|c s IH]; simpl; [by split|].
  destruct (PyStr.isspace c) eqn:Hc.
  - rewrite IH, Forall_cons. naive_solver.
  - rewrite Forall_cons. split; [done|]. rewrite Hc. by intros [? _].
Qed.

Lemma strip_nil_iff (s : pystr) : PyStr.strip s = [] ↔ blank s.
Proof.
  rewrite <- lstrip_nil_iff. unfold PyStr.strip.
  pose proof (lstrip_starts_clean s) as Hl.
  destruct (PyStr.lstrip s) as [|c r]; [done|].
  simpl in Hl. apply negb_true_iff in Hl.
  by rewrite rstrip_cons_clean.
Qed.

Lemma roster_player_Some (row : csv_row) (pl : player) :
  roster_player row = Some pl ↔
  pl = {| team_name := cell row (str "team_name") (str "Team");
          team_slug := _slugify (cell row (str "team_name") (str "Team"));
          first := cell row (str "firstName") (str "First");
          last := cell row (str "lastName") (str "Last");
          player_slug := _slugify (cell row (str "firstName") (str "First") ++ str "_"
                                   ++ cell row (str "lastName") (str "Last")) |}
  ∧ cell row (str "team_name") (str "Team") ≠ []
  ∧ cell row (str "firstName") (str "First") ≠ []
  ∧ cell row (str "lastName") (str "Last") ≠ [].
Proof.
  unfold roster_player.
  destruct (cell row (str "team_name") (str "Team")),
           (cell row (str "firstName") (str "First")),
           (cell row (str "lastName") (str "Last")); naive_solver.
Qed.

(** X2. A roster row yields a player exactly when each of its three
    values holds a character that is not whitespace, where a value is the
    first column's when that is present and not empty and the alternative
    column's otherwise, so that a first column of whitespace only hides the
    alternative column; the player's names are the stripped values and are
    trimmed and not empty. *)
Theorem roster_row_yields (row : csv_row) :
  (is_Some (roster_player row) ↔
   ¬ blank (picked row (str "team_name") (str "Team"))
   ∧ ¬ blank (picked row (str "firstName") (str "First"))
   ∧ ¬ blank (picked row (str "lastName") (str "Last")))
  ∧ (∀ k1 k2 v, row !! k1 = Some v → v ≠ [] → picked row k1 k2 = v)
  ∧ (∀ k1 k2, row !! k1 = None ∨ row !! k1 = Some [] →
              picked row k1 k2 = default [] (row !! k2))
  ∧ (∀ pl, roster_player row = Some pl →
       team_name pl = PyStr.strip (picked row (str "team_name") (str "Team"))
       ∧ first pl = PyStr.strip (picked row (str "firstName") (str "First"))
       ∧ last pl = PyStr.strip (picked row (str "lastName") (str "Last"))
       ∧ trimmed (team_name pl) ∧ trimmed (first pl) ∧ trimmed (last pl)
       ∧ team_name pl ≠ [] ∧ first pl ≠ [] ∧ last pl ≠ []).
Proof.
  split.
  { rewrite <- !strip_nil_iff. fold (cell row (str "team_name") (str "Team")).
    fold (cell row (str "firstName") (str "First")).
    fold (cell row (str "lastName") (str "Last")).
    split.
    - intros [pl Hpl]. apply roster_player_Some in Hpl. tauto.
    - intros (Ht & Hf & Hl). eexists. apply roster_player_Some. eauto. }
  split.
  { intros k1 k2 v Hk Hv. unfold picked. rewrite Hk. by destruct v. }
  split.
  { intros k1 k2 Hk. unfold picked.
    destruct Hk as [-> | ->]; simpl; by destruct (row !! k2) as [[|]|]. }
  intros pl (-> & Ht & Hf & Hl)%roster_player_Some. cbn [team_name first last].
  unfold cell in *. fold (picked row (str "team_name") (str "Team")) in *.
  fold (picked row (str "firstName") (str "First")) in *.
  fold (picked row (str "lastName") (str "Last")) in *.
  repeat split; try done; apply strip_trimmed.
Qed.

Lemma roster_maps_players (rows : list csv_row) :
  _build_roster_maps rows
  = (foldl (fun m pl => <[player_slug pl := team_slug pl]> m) ∅ (_iter_roster_players rows),
     foldl (fun m pl => <[team_name pl := team_slug pl]> m) ∅ (_iter_roster_players rows)).
Proof.
  unfold _build_roster_maps, _iter_roster_players.
  generalize (∅ : gmap pystr pystr) at 1 3. generalize (∅ : gmap pystr pystr).
  induction rows as [|row rows IH]; intros m2 m1; [done|].
  cbn [foldl]. unfold roster_maps_step at 2.
  change (omap roster_player (row :: rows))
    with (match roster_player row with
          | Some pl => pl :: omap roster_player rows
          | None => omap roster_player rows
          end).
  destruct (roster_player row) as [pl|]; cbn; apply IH.
Qed.

Lemma foldl_insert_lookup {A V} (key : A -> pystr) (value : A -> V) (l : list A)
    (m : gmap pystr V) (k : pystr) (v : V) :
  foldl (fun m x => <[key x := value x]> m) m l !! k = Some v ↔
  (∃ l1 x l2, l = l1 ++ x :: l2 ∧ key x = k ∧ value x = v ∧ Forall (fun y => key y ≠ k) l2)
  ∨ (Forall (fun y => key y ≠ k) l ∧ m !! k = Some v).
Proof.
  revert m. induction l as [|x l IH]; intros m; cbn [foldl].
  - split; [by right | intros [(l1 & ? & ? & Hl & _) | [_ ?]]; [by destruct l1 | done]].
  - rewrite IH. split.
    + intros [(l1 & y & l2 & -> & Hk & Hv & Hl2) | [Hl Hm]].
      * left. by exists (x :: l1), y, l2.
      * rewrite lookup_insert in Hm. case_decide as Hx.
        -- left. exists [], x, l. naive_solver.
        -- right. split; [by apply Forall_cons|done].
    + intros [(l1 & y & l2 & Hl & Hk & Hv & Hl2) | [Hl Hm]].
      * destruct l1 as [|z l1]; simplify_eq/=.
        -- right. split; [done|]. by rewrite lookup_insert_eq.
        -- left. by exists l1, y, l2.
      * apply Forall_cons in Hl as [Hx Hl]. right. split; [done|].
        by rewrite lookup_insert_ne.
Qed.

Lemma last_occurrence {A} (P : A -> Prop) `{∀ x, Decision (P x)} (l : list A) :
  Forall (fun y => ¬ P y) l
  ∨ ∃ l1 x l2, l = l1 ++ x :: l2 ∧ P x ∧ Forall (fun y => ¬ P y) l2.
Proof.
  induction l as [|a l IH]; [by left|].
  destruct IH as [Hall | (l1 & x & l2 & -> & Hx & Hl2)].
  - destruct (decide (P a)) as [Ha | Ha].
    + right. by exists [], a, l.
    + left. by apply Forall_cons.
  - right. by exists (a :: l1), x, l2.
Qed.

Lemma foldl_insert_lookup_None {A V} (key : A -> pystr) (value : A -> V) (l : list A)
    (k : pystr) :
  foldl (fun m x => <[key x := value x]> m) (∅ : gmap pystr V) l !! k = None ↔
  Forall (fun y => key y ≠ k) l.
Proof.
  split.
  - intros Hnone.
    destruct (last_occurrence (fun y => key y = k) l) as [Hall | (l1 & x & l2 & Hl & Hx & Hl2)];
      [done|].
    assert (foldl (fun m x => <[key x := value x]> m) (∅ : gmap pystr V) l !! k
            = Some (value x)) as Hsome.
    { apply foldl_insert_lookup. left. by exists l1, x, l2. }
    congruence.
  - intros Hall. apply eq_None_not_Some. intros [v Hv].
    apply foldl_insert_lookup in Hv. rewrite lookup_empty in Hv.
    destruct Hv as [(l1 & x & l2 & -> & Hk & _) | [_ ?]]; [|done].
    apply Forall_app in Hall as [_ Hall]. apply Forall_cons in Hall as [Hx _]. done.
Qed.

(** X3. [_build_roster_maps] passes over the rows that
    [_iter_roster_players] passes over. It maps a player slug to the team
    slug of the last roster player with that slug, and to nothing when no
    roster player has it; and it maps a team name only to the slug of that
    very name. *)
Theorem roster_maps_lookup (rows : list csv_row) :
  let players := _iter_roster_players rows in
  let player_to_team := (_build_roster_maps rows).1 in
  let team_to_slug := (_build_roster_maps rows).2 in
  (∀ slug team,
     player_to_team !! slug = Some team ↔
     ∃ before pl after,
       players = before ++ pl :: after
       ∧ player_slug pl = slug ∧ team_slug pl = team
       ∧ Forall (fun other => player_slug other ≠ slug) after)
  ∧ (∀ slug, player_to_team !! slug = None ↔
             Forall (fun pl => player_slug pl ≠ slug) players)
  ∧ (∀ name slug, team_to_slug !! name = Some slug →
                  slug = _slugify name ∧ ∃ pl, pl ∈ players ∧ team_name pl = name)
  ∧ (∀ pl, pl ∈ players → team_to_slug !! team_name pl = Some (_slugify (team_name pl))).
Proof.
  intros players player_to_team team_to_slug.
  unfold player_to_team, team_to_slug. rewrite roster_maps_players. cbn [fst snd].
  fold players.
  assert (∀ pl, pl ∈ players → team_slug pl = _slugify (team_name pl)) as Hslug.
  { intros pl (row & Hrow & Hpl)%list_elem_of_omap.
    apply roster_player_Some in Hpl as [-> _]. done. }
  split.
  { intros slug team. rewrite foldl_insert_lookup, lookup_empty. naive_solver. }
  split; [intros slug; apply foldl_insert_lookup_None|].
  split.
  { intros name slug Hlook. apply foldl_insert_lookup in Hlook.
    rewrite lookup_empty in Hlook.
    destruct Hlook as [(l1 & x & l2 & Hl & <- & <- & _) | [_ ?]]; [|done].
    assert (x ∈ players) as Hx by (rewrite Hl; set_solver).
    split; [by apply Hslug | by exists x]. }
  intros pl Hpl. rewrite <- (Hslug pl Hpl).
  destruct (last_occurrence (fun other => team_name other = team_name pl) players)
    as [Hall | (l1 & x & l2 & Hl & Hx & Hl2)].
  - rewrite Forall_forall in Hall. by destruct (Hall pl Hpl).
  - assert (x ∈ players) as Hxin by (rewrite Hl; set_solver).
    rewrite (Hslug pl Hpl), <- Hx, <- (Hslug x Hxin).
    apply foldl_insert_lookup. left. exists l1, x, l2. rewrite Hx. done.
Qed.

(** [roster_row_yields] at a row that uses the alternative columns. *)
Lemma roster_row_yields_witness :
  ∃ pl, roster_player (<[str "Team" := str "Boston Bruins"]>
                         (<[str "First" := str " David "]>
                            (<[str "Last" := str "Pastrnak"]> ∅))) = Some pl
        ∧ first pl = str "David" ∧ trimmed (first pl).
Proof.
  set (row := <[str "Team" := str "Boston Bruins"]>
                (<[str "First" := str " David "]> (<[str "Last" := str "Pastrnak"]> ∅))).
  destruct (roster_row_yields row) as (Hyield & _ & _ & Hnames).
  destruct (proj2 Hyield) as [pl Hpl].
  { repeat split; intros Hb%strip_nil_iff; vm_compute in Hb; discriminate. }
  exists pl. split; [done|].
  destruct (Hnames pl Hpl) as (_ & Hfirst & _ & _ & Htrim & _).
  split; [|done]. rewrite Hfirst. vm_compute. reflexivity.
Defined.

(** [roster_maps_lookup] at a roster in which Auston Matthews appears for
    Toronto and then for Utah, after a row that is passed over. *)
Lemma roster_maps_lookup_witness :
  (_build_roster_maps mixed_roster).1 !! str "auston_matthews" = Some (str "utah_mammoth")
  ∧ (_build_roster_maps mixed_roster).1 !! str "wayne_gretzky" = None.
Proof.
  destruct (roster_maps_lookup mixed_roster) as (Hsome & Hnone & _).
  split.
  - apply Hsome.
    destruct (_iter_roster_players mixed_roster) as [|p1 [|p2 [|p3 [|]]]] eqn:Hplayers;
      try (vm_compute in Hplayers; discriminate).
    exists [p1; p2], p3, []. split; [done|].
    vm_compute in Hplayers. injection Hplayers as <- <- <-.
    split; [vm_compute; reflexivity|]. split; [vm_compute; reflexivity | constructor].
  - apply Hnone.
    destruct (_iter_roster_players mixed_roster) as [|p1 [|p2 [|p3 [|]]]] eqn:Hplayers;
      try (vm_compute in Hplayers; discriminate).
    vm_compute in Hplayers. injection Hplayers as <- <- <-.
    repeat constructor; vm_compute; discriminate.
Defined.

(** ** The index of the summaries *)

Lemma leb_refl (a : pystr) : PyStr.leb a a = true.
Proof. induction a as [|x a IH]; simpl; [done|]. by rewrite Nat.ltb_irrefl. Qed.

Lemma leb_total (a b : pystr) : PyStr.leb a b = true ∨ PyStr.leb b a = true.
Proof.
  revert b. induction a as [|x a IH]; intros [|y b]; simpl; auto.
  destruct (Nat.ltb_spec (PyStr.code x) (PyStr.code y)),
           (Nat.ltb_spec (PyStr.code y) (PyStr.code x)); auto; lia.
Qed.

Lemma leb_trans (a b c : pystr) :
  PyStr.leb a b = true → PyStr.leb b c = true → PyStr.leb a c = true.
Proof.
  revert b c. induction a as [|x a IH]; intros [|y b] [|z c]; simpl; try done.
  destruct (Nat.ltb_spec (PyStr.code x) (PyStr.code y)),
           (Nat.ltb_spec (PyStr.code y) (PyStr.code x)),
           (Nat.ltb_spec (PyStr.code y) (PyStr.code z)),
           (Nat.ltb_spec (PyStr.code z) (PyStr.code y)),
           (Nat.ltb_spec (PyStr.code x) (PyStr.code z)),
           (Nat.ltb_spec (PyStr.code z) (PyStr.code x));
    try done; try lia.
  apply IH.
Qed.

Lemma le_is_total : Total PyStr.le.
Proof. intros a b. unfold PyStr.le. destruct (leb_total a b) as [-> | ->]; simpl; auto. Qed.

Lemma le_is_transitive : Transitive PyStr.le.
Proof.
  intros a b c. unfold PyStr.le. intros Hab%Is_true_true Hbc%Is_true_true.
  apply Is_true_true. by eapply leb_trans.
Qed.

Lemma index_stems_lookup (md_files : list path) (k : pystr) (p : path) :
  index_stems md_files !! k = Some p ↔
  ∃ before after,
    md_files = before ++ p :: after ∧ stem_key p = k
    ∧ Forall (fun q => stem_key q ≠ k) after.
Proof.
  unfold index_stems.
  rewrite (foldl_insert_lookup stem_key id md_files ∅ k p), lookup_empty.
  split.
  - intros [(l1 & x & l2 & -> & Hk & <- & Hl2) | [_ ?]]; [|done]. by exists l1, l2.
  - intros (l1 & l2 & -> & Hk & Hl2). left. by exists l1, p, l2.
Qed.

Lemma index_stems_is_Some (md_files : list path) (k : pystr) :
  is_Some (index_stems md_files !! k) ↔ ∃ p, p ∈ md_files ∧ stem_key p = k.
Proof.
  split.
  - intros [p (l1 & l2 & -> & Hk & _)%index_stems_lookup]. exists p. set_solver.
  - intros (p & Hp & Hk). apply not_eq_None_Some. intros Hnone.
    apply (foldl_insert_lookup_None stem_key id) in Hnone.
    rewrite Forall_forall in Hnone. by apply (Hnone p).
Qed.

Lemma sorted_stems_keys (md_files : list path) (k : pystr) :
  k ∈ available_stems (build_index md_files) ↔ is_Some (index_stems md_files !! k).
Proof.
  unfold build_index; simpl. rewrite merge_sort_Permutation, list_elem_of_fmap. split.
  - intros ([k' p] & -> & Hin%elem_of_map_to_list). eauto.
  - intros [p Hp]. exists (k, p). split; [done|]. by apply elem_of_map_to_list.
Qed.

Lemma insertion_order_spec (md_files : list path) :
  NoDup (insertion_order md_files)
  ∧ ∀ k, k ∈ insertion_order md_files ↔ ∃ p, p ∈ md_files ∧ stem_key p = k.
Proof.
  unfold insertion_order.
  assert (∀ (l : list path) (ks : list pystr),
            NoDup ks →
            let ks' := foldl (fun ks p =>
                                let k := PyStr.lower (PyPath.stem p) in
                                if bool_decide (k ∈ ks) then ks else ks ++ [k]) ks l in
            NoDup ks' ∧ ∀ k, k ∈ ks' ↔ k ∈ ks ∨ ∃ p, p ∈ l ∧ stem_key p = k) as Hgen.
  { induction l as [|q l IH]; intros ks Hnd; cbn [foldl].
    - split; [done|]. intros k. split; [auto|]. intros [? | (? & ?%elem_of_nil & _)]; done.
    - cbn zeta. case_bool_decide as Hq.
      + destruct (IH ks Hnd) as [Hnd' Hin]. split; [done|].
        intros k. rewrite Hin. split.
        * intros [? | (p & Hp & Hk)]; [by left|]. right. exists p. set_solver.
        * intros [? | (p & [-> | Hp]%elem_of_cons & Hk)]; [by left | |].
          -- left. by rewrite <- Hk.
          -- right. by exists p.
      + destruct (IH (ks ++ [PyStr.lower (PyPath.stem q)])) as [Hnd' Hin].
        { apply NoDup_app. split; [done|]. split; [|apply NoDup_singleton].
          intros x Hx ->%list_elem_of_singleton. done. }
        split; [done|]. intros k. rewrite Hin, elem_of_app, list_elem_of_singleton. split.
        * intros [[? | ->] | (p & Hp & Hk)]; [by left | |].
          -- right. exists q. split; [left|done].
          -- right. exists p. set_solver.
        * intros [? | (p & [-> | Hp]%elem_of_cons & Hk)]; [by left; left | |].
          -- left. right. by rewrite <- Hk.
          -- right. by exists p. }
  destruct (Hgen md_files [] (NoDup_nil_2)) as [Hnd Hin]. split; [done|].
  intros k. rewrite Hin. split; [|by right]. intros [?%elem_of_nil | ?]; done.
Qed.

Lemma find_split {A} (f : A -> bool) (l : list A) (x : A) :
  List.find f l = Some x →
  ∃ l1 l2, l = l1 ++ x :: l2 ∧ f x = true ∧ Forall (fun y => f y = false) l1.
Proof.
  induction l as [|a l IH]; simpl; [done|].
  destruct (f a) eqn:Ha.
  - intros [= ->]. by exists [], l.
  - intros (l1 & l2 & -> & Hx & Hl1)%IH. exists (a :: l1), l2.
    split; [done|]. split; [done|]. by apply Forall_cons.
Qed.

Lemma find_None_iff {A} (f : A -> bool) (l : list A) :
  List.find f l = None ↔ Forall (fun y => f y = false) l.
Proof.
  induction l as [|a l IH]; simpl; [by split|].
  rewrite Forall_cons. destruct (f a); [|by rewrite IH; naive_solver].
  split; [done | by intros [? _]].
Qed.

(** X4. The index maps a key to the last of the files whose lower-cased
    stem is that key, so that of two files that differ in case only the
    later one is kept; a key is indexed exactly when some file has it; and
    the available stems of [batch_score.main] are these keys, each once, in
    ascending order of code points. *)
Theorem index_of_summaries (md_files : list path) :
  (∀ k p, index_stems md_files !! k = Some p ↔
          ∃ before after,
            md_files = before ++ p :: after ∧ stem_key p = k
            ∧ Forall (fun q => stem_key q ≠ k) after)
  ∧ (∀ p, p ∈ md_files → is_Some (index_stems md_files !! stem_key p))
  ∧ (∀ k, k ∈ available_stems (build_index md_files) ↔
          ∃ p, p ∈ md_files ∧ stem_key p = k)
  ∧ NoDup (available_stems (build_index md_files))
  ∧ StronglySorted PyStr.le (available_stems (build_index md_files)).
Proof.
  split; [apply index_stems_lookup|].
  split; [intros p Hp; apply index_stems_is_Some; by exists p|].
  split; [intros k; by rewrite sorted_stems_keys, index_stems_is_Some|].
  split.
  - unfold build_index; simpl. rewrite merge_sort_Permutation.
    apply NoDup_fst_map_to_list.
  - unfold build_index; simpl.
    apply (@StronglySorted_merge_sort _ PyStr.le _ le_is_transitive le_is_total).
Qed.

(** [index_of_summaries] at files of which two differ in case only. *)
Lemma index_of_summaries_witness :
  index_stems clashing_files !! str "auston_matthews" = Some (summary_file "auston_matthews.md")
  ∧ is_Some (index_stems clashing_files !! stem_key (summary_file "Auston_Matthews.md")).
Proof.
  destruct (index_of_summaries clashing_files) as (Hlook & Hsome & _).
  split.
  - apply Hlook.
    exists [summary_file "Auston_Matthews.md"; summary_file "zz_auston_matthews.md"],
           [summary_file "b_auston_matthews.md"].
    split; [reflexivity|]. split; [vm_compute; reflexivity|].
    repeat constructor. vm_compute. discriminate.
  - apply Hsome. left.
Defined.

Lemma relaxed_search_least (md_files : list path) (slug : pystr) (p : path) :
  relaxed_search (build_index md_files) slug = Some p →
  ∃ stem,
    index_stems md_files !! stem = Some p
    ∧ PyStr.endswith slug stem = true
    ∧ ∀ other, other ∈ available_stems (build_index md_files) →
               PyStr.endswith slug other = true → PyStr.le stem other.
Proof.
  unfold relaxed_search.
  destruct (List.find _ _) as [stem|] eqn:Hfind; [|done].
  intros Hlook. exists stem. split; [done|].
  apply find_split in Hfind as (l1 & l2 & Hl & Hends & Hl1).
  split; [done|]. intros other Hother Hmatch.
  pose proof (@StronglySorted_merge_sort _ PyStr.le _ le_is_transitive le_is_total
                (map_to_list (index_stems md_files)).*1) as Hsorted.
  change (merge_sort PyStr.le (map_to_list (index_stems md_files)).*1)
    with (available_stems (build_index md_files)) in Hsorted.
  rewrite Hl in Hsorted, Hother.
  apply elem_of_app in Hother as [Hother | Hother].
  - rewrite Forall_forall in Hl1. rewrite (Hl1 other Hother) in Hmatch. done.
  - apply elem_of_cons in Hother as [-> | Hother].
    + unfold PyStr.le. by rewrite leb_refl.
    + apply StronglySorted_app_1_r, StronglySorted_cons in Hsorted as [Hall _].
      rewrite Forall_forall in Hall. by apply Hall.
Qed.

(** X5. When [batch_score.main] finds no exact stem for a player, the
    summary it takes is the one indexed under the least, in the order of
    code points, of the available stems that end with the player slug. *)
Theorem relaxed_choice_is_least (md_files : list path) (pl : player) (p : path) :
  index_stems md_files !! (team_slug pl ++ str "_" ++ player_slug pl) = None →
  index_stems md_files !! player_slug pl = None →
  find_summary (build_index md_files) pl = Some p →
  ∃ stem,
    index_stems md_files !! stem = Some p
    ∧ PyStr.endswith (player_slug pl) stem = true
    ∧ ∀ q, q ∈ md_files →
           PyStr.endswith (player_slug pl) (stem_key q) = true →
           PyStr.le stem (stem_key q).
Proof.
  intros Hteam Hplayer. unfold find_summary, candidate_stems. cbn [first_indexed].
  change (stems_to_paths (build_index md_files)) with (index_stems md_files).
  rewrite Hteam, Hplayer.
  intros (stem & Hlook & Hends & Hleast)%relaxed_search_least.
  exists stem. split; [done|]. split; [done|].
  intros q Hq Hmatch. apply Hleast; [|done].
  apply sorted_stems_keys, index_stems_is_Some. by exists q.
Qed.

(** [relaxed_choice_is_least] at two files that end with the slug. *)
Lemma relaxed_choice_witness :
  find_summary (build_index clashing_files) (player_of_slugs "leafs" "n_matthews")
  = Some (summary_file "auston_matthews.md")
  ∧ ∃ stem,
      index_stems clashing_files !! stem = Some (summary_file "auston_matthews.md")
      ∧ PyStr.le stem (stem_key (summary_file "zz_auston_matthews.md")).
Proof.
  assert (find_summary (build_index clashing_files) (player_of_slugs "leafs" "n_matthews")
          = Some (summary_file "auston_matthews.md")) as Hfind by (vm_compute; reflexivity).
  split; [exact Hfind|].
  destruct (relaxed_choice_is_least clashing_files (player_of_slugs "leafs" "n_matthews") _
              ltac:(vm_compute; reflexivity) ltac:(vm_compute; reflexivity) Hfind)
    as (stem & Hlook & _ & Hleast).
  exists stem. split; [done|].
  apply Hleast; [right; left | vm_compute; reflexivity].
Defined.

Section MissingInput.
Variable idx : md_index.
Variable md_files : list path.
Hypothesis idx_paths : stems_to_paths idx = index_stems md_files.
Hypothesis idx_stems :
  ∀ k, k ∈ available_stems idx ↔ is_Some (index_stems md_files !! k).

Lemma find_summary_None_generic (pl : player) :
  find_summary idx pl = None ↔
  ∀ q, q ∈ md_files → PyStr.endswith (player_slug pl) (stem_key q) = false.
Proof.
  unfold find_summary, relaxed_search. rewrite idx_paths. split.
  - intros Hnone q Hq.
    destruct (first_indexed _ _); [done|].
    destruct (List.find _ _) as [stem|] eqn:Hfind.
    + apply find_some in Hfind as [Hin _].
      apply list_elem_of_In, idx_stems in Hin as [p Hp]. congruence.
    + rewrite find_None_iff, Forall_forall in Hfind. apply Hfind.
      apply idx_stems, index_stems_is_Some. by exists q.
  - intros Hall.
    assert (∀ k, PyStr.endswith (player_slug pl) k = true → index_stems md_files !! k = None)
      as Hkey.
    { intros k Hk. apply eq_None_not_Some.
      intros (q & Hq & <-)%index_stems_is_Some. rewrite (Hall q Hq) in Hk. done. }
    unfold candidate_stems. cbn [first_indexed].
    rewrite (Hkey (team_slug pl ++ str "_" ++ player_slug pl)).
    2:{ rewrite (app_assoc (team_slug pl)). apply endswith_app. }
    rewrite (Hkey (player_slug pl)) by apply endswith_refl.
    destruct (List.find _ _) as [stem|] eqn:Hfind; [|done].
    apply find_some in Hfind as [_ Hends]. by apply Hkey.
Qed.

Lemma find_summary_exact_generic (pl : player) (p : path) :
  first_indexed (index_stems md_files) (candidate_stems pl) = Some p →
  find_summary idx pl = Some p.
Proof. intros Hexact. unfold find_summary. by rewrite idx_paths, Hexact. Qed.

End MissingInput.

(** X6. A roster row is without a summary exactly when no file's
    lower-cased stem ends with the player slug; this is so in
    [batch_score.main] and in [score_runner.main --from-roster] alike, so
    the two drivers pass over the same rows, and they take the same summary
    whenever one of the two exact stems is indexed. *)
Theorem missing_input_iff (md_files : list path) (pl : player) :
  (find_summary (build_index md_files) pl = None ↔
   ∀ q, q ∈ md_files → PyStr.endswith (player_slug pl) (stem_key q) = false)
  ∧ (find_summary (build_index_roster md_files) pl = None ↔
     ∀ q, q ∈ md_files → PyStr.endswith (player_slug pl) (stem_key q) = false)
  ∧ (∀ p, first_indexed (index_stems md_files) (candidate_stems pl) = Some p →
          find_summary (build_index md_files) pl = Some p
          ∧ find_summary (build_index_roster md_files) pl = Some p).
Proof.
  assert (∀ k, k ∈ available_stems (build_index_roster md_files) ↔
               is_Some (index_stems md_files !! k)) as Hroster.
  { intros k. cbn. rewrite index_stems_is_Some.
    apply (proj2 (insertion_order_spec md_files)). }
  split.
  { exact (find_summary_None_generic (build_index md_files) md_files eq_refl
             (sorted_stems_keys md_files) pl). }
  split.
  { exact (find_summary_None_generic (build_index_roster md_files) md_files eq_refl
             Hroster pl). }
  intros p Hp. split.
  - by apply (find_summary_exact_generic (build_index md_files) md_files eq_refl).
  - by apply (find_summary_exact_generic (build_index_roster md_files) md_files eq_refl).
Qed.

(** [missing_input_iff] at a player none of the files is named after. *)
Lemma missing_input_witness :
  find_summary (build_index clashing_files) (player_of_slugs "oilers" "connor_mcdavid") = None
  ∧ find_summary (build_index_roster clashing_files)
      (player_of_slugs "oilers" "connor_mcdavid") = None.
Proof.
  destruct (missing_input_iff clashing_files (player_of_slugs "oilers" "connor_mcdavid"))
    as (Hbatch & Hroster & _).
  assert (∀ q, q ∈ clashing_files →
               PyStr.endswith (str "connor_mcdavid") (stem_key q) = false) as Hnone.
  { intros q Hq. unfold clashing_files in Hq.
    repeat (apply elem_of_cons in Hq as [-> | Hq]; [vm_compute; reflexivity|]).
    by apply elem_of_nil in Hq. }
  split; [by apply Hbatch | by apply Hroster].
Defined.

(** ** Counters and files of a run *)

Lemma find_summary_indexed (idx : md_index) (pl : player) (p : path) :
  find_summary idx pl = Some p → ∃ k, stems_to_paths idx !! k = Some p.
Proof.
  unfold find_summary, relaxed_search.
  destruct (first_indexed _ _) as [q|] eqn:Hfirst.
  - intros [= ->]. apply first_indexed_sound in Hfirst as (k & _ & Hk). eauto.
  - destruct (List.find _ _) as [stem|]; [eauto | done].
Qed.

Section Counters.
Variables (run : scorer) (input_dir : path) (idx : md_index) (md_files : list path).
Hypothesis idx_paths : stems_to_paths idx = index_stems md_files.

Lemma rows_counters (players : list player) (st : driver_state) :
  let st' := foldl (process_row run input_dir idx) st players in
  (successes st' + failures st' + length (scored st)
   = successes st + failures st + length (scored st'))%nat
  ∧ (length (scored st') ≤ length (scored st) + length players)%nat
  ∧ ∃ more, scored st' = scored st ++ more ∧ Forall (fun md => md ∈ md_files) more.
Proof.
  revert st. induction players as [|pl players IH]; intros st; cbn [foldl].
  - split; [lia|]. split; [simpl; lia|]. exists []. by rewrite app_nil_r.
  - destruct (IH (process_row run input_dir idx st pl)) as (Hcount & Hlen & more & Hmore & Hin).
    clear IH. revert Hcount Hlen Hmore. generalize (foldl (process_row run input_dir idx)
                                                      (process_row run input_dir idx st pl) players).
    intros st' Hcount Hlen Hmore. unfold process_row in *.
    destruct (find_summary idx pl) as [md|] eqn:Hfind.
    2:{ split; [lia|]. split; [simpl; lia|]. by exists more. }
    destruct (path_exists (st_fs st) _).
    { split; [lia|]. split; [simpl; lia|]. by exists more. }
    destruct (run md _ (st_fs st)) as [completed fs']. cbn in *.
    rewrite length_app in *. cbn in *.
    split; [destruct completed; lia|]. split; [lia|].
    exists (md :: more). split; [by rewrite Hmore, <- app_assoc|].
    apply Forall_cons. split; [|done].
    apply find_summary_indexed in Hfind as [k Hk]. rewrite idx_paths in Hk.
    by apply index_stems_sound in Hk as [? _].
Qed.

End Counters.

(** X7. In a run of either driver, with any scorer, every scoring is
    counted once, as a success or as a failure; no row is scored twice, so
    there are at most as many scorings as rows; and every summary handed to
    the scorer is one of the indexed files. *)
Theorem run_counters (run : scorer) (input_dir : path) (md_files : list path)
    (rows : list csv_row) (fs : filesystem) :
  (let st := batch_main run input_dir md_files rows fs in
   (successes st + failures st = length (scored st))%nat
   ∧ (length (scored st) ≤ length rows)%nat
   ∧ Forall (fun md => md ∈ md_files) (scored st))
  ∧ (let st := roster_main run input_dir md_files rows fs in
     (successes st + failures st = length (scored st))%nat
     ∧ (length (scored st) ≤ length rows)%nat
     ∧ Forall (fun md => md ∈ md_files) (scored st)).
Proof.
  assert (length (_iter_roster_players rows) ≤ length rows)%nat as Hrows.
  { unfold _iter_roster_players. induction rows as [|row rows' IH]; [done|].
    change (omap roster_player (row :: rows'))
      with (match roster_player row with
            | Some pl => pl :: omap roster_player rows'
            | None => omap roster_player rows'
            end).
    destruct (roster_player row); simpl; lia. }
  split.
  - destruct (rows_counters run input_dir (build_index md_files) md_files eq_refl
                (_iter_roster_players rows) (initial_state fs))
      as (Hcount & Hlen & more & Hmore & Hin).
    cbn in *. unfold batch_main. rewrite Hmore in *. split; [lia|]. split; [lia | done].
  - destruct (rows_counters run input_dir (build_index_roster md_files) md_files eq_refl
                (_iter_roster_players rows) (initial_state fs))
      as (Hcount & Hlen & more & Hmore & Hin).
    cbn in *. unfold roster_main. rewrite Hmore in *. split; [lia|]. split; [lia | done].
Qed.

Section Files.
Variables (run : scorer) (input_dir : path) (idx : md_index).
Hypothesis run_writes : writes_output_only run.

Lemma rows_files (players : list player) (st : driver_state) :
  let st' := foldl (process_row run input_dir idx) st players in
  (size (files (st_fs st')) + successes st
   = size (files (st_fs st)) + successes st')%nat
  ∧ resolve (st_fs st') = resolve (st_fs st)
  ∧ ∀ p, is_Some (files (st_fs st') !! p) →
         is_Some (files (st_fs st) !! p)
         ∨ ∃ pl, pl ∈ players ∧ is_Some (find_summary idx pl)
                 ∧ p = out_path_of input_dir pl.
Proof.
  revert st. induction players as [|pl players IH]; intros st; cbn [foldl].
  - split; [lia|]. split; [done|]. auto.
  - destruct (IH (process_row run input_dir idx st pl)) as (Hsize & Hres & Hnew).
    clear IH. revert Hsize Hres Hnew.
    generalize (foldl (process_row run input_dir idx)
                  (process_row run input_dir idx st pl) players).
    intros st' Hsize Hres Hnew. unfold process_row in *.
    fold (out_path_of input_dir pl) in *.
    destruct (find_summary idx pl) as [md|] eqn:Hfind.
    2:{ split; [done|]. split; [done|]. intros p Hp.
        destruct (Hnew p Hp) as [? | (pl' & ? & ? & ?)]; [by left|].
        right. exists pl'. set_solver. }
    destruct (path_exists (st_fs st) (out_path_of input_dir pl)) eqn:Hexists.
    { split; [done|]. split; [done|]. intros p Hp.
      destruct (Hnew p Hp) as [? | (pl' & ? & ? & ?)]; [by left|].
      right. exists pl'. set_solver. }
    pose proof (run_writes md (out_path_of input_dir pl) (st_fs st)) as Hrun.
    destruct (run md (out_path_of input_dir pl) (st_fs st)) as [[] fs'].
    + destruct Hrun as [text ->]. cbn in *.
      apply path_exists_false in Hexists.
      rewrite map_size_insert_None in Hsize by done.
      split; [lia|]. split; [done|]. intros p Hp.
      destruct (Hnew p Hp) as [Hold | (pl' & ? & ? & ?)].
      * rewrite lookup_insert in Hold. case_decide as Hp'.
        -- right. exists pl. rewrite Hfind. set_solver.
        -- by left.
      * right. exists pl'. set_solver.
    + subst fs'. cbn in *. split; [done|]. split; [done|]. intros p Hp.
      destruct (Hnew p Hp) as [? | (pl' & ? & ? & ?)]; [by left|].
      right. exists pl'. set_solver.
Qed.

End Files.

(** X8. In a run of [batch_score.main] with a scorer that writes its
    output path when it completes and nothing when it fails, each success
    adds exactly one file and a failure none, so the number of files grows
    by the number of successes; and every file present after the run was
    present before it or is the output path of a roster player who has a
    summary. *)
Theorem run_files (run : scorer) (input_dir : path) (md_files : list path)
    (rows : list csv_row) (fs : filesystem) :
  writes_output_only run →
  let st := batch_main run input_dir md_files rows fs in
  size (files (st_fs st)) = (size (files fs) + successes st)%nat
  ∧ resolve (st_fs st) = resolve fs
  ∧ ∀ p, is_Some (files (st_fs st) !! p) →
         is_Some (files fs !! p)
         ∨ ∃ pl, pl ∈ _iter_roster_players rows
                 ∧ is_Some (find_summary (build_index md_files) pl)
                 ∧ p = out_path_of input_dir pl.
Proof.
  intros Hrun st.
  destruct (rows_files run input_dir (build_index md_files) Hrun
              (_iter_roster_players rows) (initial_state fs)) as (Hsize & Hres & Hnew).
  fold (batch_main run input_dir md_files rows fs) in Hsize, Hres, Hnew. fold st in Hsize, Hres, Hnew.
  cbn in Hsize, Hres, Hnew. split; [lia|]. split; done.
Qed.

(** [run_files] at two rows of which the scorer fails the second. *)
Lemma run_files_witness :
  let st := batch_main (picky_scorer (summary_file "auston_matthews.md"))
              [str "player_summaries"] two_summaries two_rows empty_fs in
  successes st = 1%nat ∧ failures st = 1%nat ∧ size (files (st_fs st)) = 1%nat.
Proof.
  intros st.
  assert (writes_output_only (picky_scorer (summary_file "auston_matthews.md"))) as Hrun.
  { intros md out fs. unfold picky_scorer. case_bool_decide; [by eexists | done]. }
  destruct (run_files _ [str "player_summaries"] two_summaries two_rows empty_fs Hrun)
    as (Hsize & _).
  fold st in Hsize.
  assert (successes st = 1%nat) as Hs by (vm_compute; reflexivity).
  split; [done|]. split; [vm_compute; reflexivity|].
  rewrite Hsize, Hs. reflexivity.
Defined.

(** ** Names of companions *)

Lemma rfind_char_app (c : ascii) (a r : pystr) :
  c ∉ r → PyStr.rfind_char c (a ++ c :: r) = Some (length a).
Proof.
  intros Hr.
  assert (PyStr.rfind_char c r = None) as Hnone.
  { induction r as [|x r IH]; simpl; [done|].
    apply not_elem_of_cons in Hr as [Hx Hr]. rewrite (IH Hr).
    destruct (Ascii.eqb x c) eqn:Hxc; [|done]. by apply Ascii.eqb_eq in Hxc. }
  induction a as [|x a IH]; simpl.
  - by rewrite Hnone, Ascii.eqb_refl.
  - by rewrite IH.
Qed.

Lemma rfind_char_Some (c : ascii) (n : pystr) (i : nat) :
  PyStr.rfind_char c n = Some i → ∃ a r, n = a ++ c :: r ∧ length a = i ∧ c ∉ r.
Proof.
  revert i. induction n as [|x n IH]; intros i; simpl; [done|].
  destruct (PyStr.rfind_char c n) as [j|] eqn:Hj.
  - intros [= <-]. destruct (IH j eq_refl) as (a & r & -> & <- & Hr).
    by exists (x :: a), r.
  - destruct (Ascii.eqb x c) eqn:Hxc; [|done]. intros [= <-].
    apply Ascii.eqb_eq in Hxc as ->. exists [], n. split; [done|]. split; [done|].
    clear IH. induction n as [|y n IHn]; [by intros ?%elem_of_nil|].
    simpl in Hj. destruct (PyStr.rfind_char c n); [done|].
    destruct (Ascii.eqb y c) eqn:Hyc; [done|].
    apply not_elem_of_cons. split; [|by apply IHn].
    intros ->. by rewrite Ascii.eqb_refl in Hyc.
Qed.

Lemma rfind_char_None (c : ascii) (n : pystr) :
  PyStr.rfind_char c n = None → c ∉ n.
Proof.
  induction n as [|y n IH]; simpl; [by intros _ ?%elem_of_nil|].
  destruct (PyStr.rfind_char c n); [done|].
  destruct (Ascii.eqb y c) eqn:Hyc; [done|]. intros _.
  apply not_elem_of_cons. split; [|by apply IH].
  intros ->. by rewrite Ascii.eqb_refl in Hyc.
Qed.

Lemma split_at_Some (n : pystr) (i : nat) :
  PyPath.split_at n = Some i ↔
  ∃ a s, n = a ++ s ∧ length a = i ∧ a ≠ [] ∧ proper_suffix s.
Proof.
  unfold PyPath.split_at, proper_suffix. split.
  - destruct (PyStr.rfind_char "." n) as [j|] eqn:Hj; [|done].
    destruct ((0 <? j) && (j <? length n - 1))%nat eqn:Hrange; [|done].
    intros [= <-]. apply andb_prop in Hrange as [H0%Nat.ltb_lt Hlast%Nat.ltb_lt].
    apply rfind_char_Some in Hj as (a & r & -> & <- & Hr).
    exists a, ("."%char :: r). split; [done|]. split; [done|].
    split; [by destruct a; simpl in H0; [lia|]|].
    exists r. split; [done|]. split; [|done].
    intros ->. rewrite length_app in Hlast. simpl in Hlast. lia.
  - intros (a & s & -> & <- & Ha & r & -> & Hr & Hdot).
    rewrite rfind_char_app by done.
    assert ((0 <? length a) && (length a <? length (a ++ "."%char :: r) - 1) = true)%nat as ->;
      [|done].
    rewrite length_app. simpl.
    apply andb_true_intro. rewrite !Nat.ltb_lt.
    destruct a; [done|]. destruct r; [done|]. simpl. lia.
Qed.


Lemma name_child (d : path) (n : pystr) : PyPath.name (PyPath.child d n) = n.
Proof. unfold PyPath.name, PyPath.child. apply last_last. Qed.

(** X9. The base report and the extended report are each other's
    companion. For a primary whose name has a suffix and whose stem does
    not end with [_extended], the companion's name is the stem, then
    [_extended], then the suffix, and the companion of that companion has
    the primary's name again; for a primary whose stem is a base, not empty
    and not ending with [_extended] itself, followed by [_extended], the
    companion's name is the base and the suffix, and the companion of that
    companion has the primary's name again. *)
Theorem companion_round_trip (p : path) (base s : pystr) :
  base ≠ [] → proper_suffix s →
  PyStr.endswith extended base = false →
  (PyPath.name p = base ++ s →
   wanted_name p = base ++ extended ++ s ∧ wanted_name (sibling p) = PyPath.name p)
  ∧ (PyPath.name p = (base ++ extended) ++ s →
     wanted_name p = base ++ s ∧ wanted_name (sibling p) = PyPath.name p).
Proof.
  intros Hbase Hs Hplain.
  assert (∀ q a, a ≠ [] → PyPath.name q = a ++ s →
                 PyPath.stem q = a ∧ PyPath.suffix q = s) as Hparts.
  { intros q a Ha Hq. unfold PyPath.stem, PyPath.suffix. rewrite Hq.
    assert (PyPath.split_at (a ++ s) = Some (length a)) as ->.
    { apply split_at_Some. by exists a, s. }
    by rewrite take_app_length, drop_app_length. }
  assert (base ++ extended ≠ []) as Hext by (by destruct base).
  split; intros Hname.
  - destruct (Hparts p base Hbase Hname) as [Hstem Hsuffix].
    assert (wanted_name p = base ++ extended ++ s) as Hwanted.
    { unfold wanted_name. by rewrite Hstem, Hsuffix, Hplain. }
    split; [done|].
    destruct (Hparts (sibling p) (base ++ extended) Hext) as [Hstem' Hsuffix'].
    { unfold sibling. by rewrite name_child, Hwanted, app_assoc. }
    unfold wanted_name at 1. rewrite Hstem', Hsuffix', endswith_app.
    by rewrite length_app, Nat.add_sub, take_app_length, Hname.
  - destruct (Hparts p (base ++ extended) Hext Hname) as [Hstem Hsuffix].
    assert (wanted_name p = base ++ s) as Hwanted.
    { unfold wanted_name. rewrite Hstem, Hsuffix, endswith_app.
      by rewrite length_app, Nat.add_sub, take_app_length. }
    split; [done|].
    destruct (Hparts (sibling p) base Hbase) as [Hstem' Hsuffix'].
    { unfold sibling. by rewrite name_child, Hwanted. }
    unfold wanted_name at 1. rewrite Hstem', Hsuffix', Hplain.
    by rewrite Hname, <- app_assoc.
Qed.

(** [companion_round_trip] at [b.md] and [b_extended.md]. *)
Lemma companion_round_trip_witness :
  wanted_name [str "reports"; str "b.md"] = str "b_extended.md"
  ∧ wanted_name (sibling [str "reports"; str "b.md"]) = str "b.md"
  ∧ wanted_name [str "reports"; str "b_extended.md"] = str "b.md"
  ∧ wanted_name (sibling [str "reports"; str "b_extended.md"]) = str "b_extended.md".
Proof.
  assert (proper_suffix (str ".md")) as Hs.
  { exists (str "md"). split; [done|]. split; [done|].
    rewrite list_elem_of_In. vm_compute. intuition discriminate. }
  destruct (companion_round_trip [str "reports"; str "b.md"] (str "b") (str ".md")
              ltac:(done) Hs eq_refl) as [Hbase _].
  destruct (companion_round_trip [str "reports"; str "b_extended.md"] (str "b") (str ".md")
              ltac:(done) Hs eq_refl) as [_ Hext].
  destruct (Hbase eq_refl) as [H1 H2]. destruct (Hext eq_refl) as [H3 H4].
  repeat split; assumption.
Defined.








(** ** The balanced span and the provenance of the extracted value *)

Lemma balanced_span_spec (s : pystr) :
  ∀ (depth : Z) (n : nat),
    1 ≤ depth → balanced_span depth s = Some n →
    ((1 ≤ n)%nat ∧ (n ≤ length s)%nat)
    ∧ brace_depth depth (take n s) = 0
    ∧ s !! (n - 1)%nat = Some "}"%char
    ∧ ∀ k, (k < n)%nat → 1 ≤ brace_depth depth (take k s).
Proof.
  induction s as [|ch s IH]; intros depth n Hdepth.
  { simpl. intros; discriminate. }
  cbn [balanced_span].
  destruct (Ascii.eqb ch "{") eqn:Hopen.
  - destruct (balanced_span (depth + 1) s) as [m|] eqn:Hm; [|intros; discriminate].
    intros [= <-]. destruct (IH (depth + 1) m ltac:(lia) Hm) as (Hlen & Hzero & Hlast & Hpos).
    split; [simpl; lia|]. split; [simpl; by rewrite Hopen|].
    split.
    { replace (S m - 1)%nat with (S (m - 1)) by lia. done. }
    intros [|k] Hk; simpl; [lia|]. rewrite Hopen. apply Hpos. lia.
  - destruct (Ascii.eqb ch "}") eqn:Hclose.
    + cbv zeta. destruct (depth - 1 =? 0) eqn:Hz.
      * intros [= <-]. apply Z.eqb_eq in Hz.
        split; [simpl; lia|]. split; [simpl; by rewrite Hopen, Hclose|].
        split; [simpl; by apply Ascii.eqb_eq in Hclose as ->|].
        intros k Hk. assert (k = 0%nat) as -> by lia. simpl. lia.
      * apply Z.eqb_neq in Hz.
        destruct (balanced_span (depth - 1) s) as [m|] eqn:Hm; [|intros; discriminate].
        intros [= <-].
        destruct (IH (depth - 1) m ltac:(lia) Hm) as (Hlen & Hzero & Hlast & Hpos).
        split; [simpl; lia|]. split; [simpl; by rewrite Hopen, Hclose|].
        split.
        { replace (S m - 1)%nat with (S (m - 1)) by lia. done. }
        intros [|k] Hk; simpl; [lia|]. rewrite Hopen, Hclose. apply Hpos. lia.
    + destruct (balanced_span depth s) as [m|] eqn:Hm; [|intros; discriminate].
      intros [= <-]. destruct (IH depth m Hdepth Hm) as (Hlen & Hzero & Hlast & Hpos).
      split; [simpl; lia|]. split; [simpl; by rewrite Hopen, Hclose|].
      split.
      { replace (S m - 1)%nat with (S (m - 1)) by lia. done. }
      intros [|k] Hk; simpl; [lia|]. rewrite Hopen, Hclose. apply Hpos. lia.
Qed.

Lemma find_char_Some (c : ascii) (s : pystr) (i : nat) :
  PyStr.find_char c s = Some i →
  ∃ pre rest, s = pre ++ c :: rest ∧ length pre = i ∧ c ∉ pre.
Proof.
  revert i. induction s as [|x s IH]; intros i; simpl; [done|].
  destruct (Ascii.eqb x c) eqn:Hxc.
  - intros [= <-]. apply Ascii.eqb_eq in Hxc as ->.
    exists [], s. split; [done|]. split; [done|]. by intros ?%elem_of_nil.
  - destruct (PyStr.find_char c s) as [j|]; [|done]. intros [= <-].
    destruct (IH j eq_refl) as (pre & rest & -> & <- & Hpre).
    exists (x :: pre), rest. split; [done|]. split; [done|].
    apply not_elem_of_cons. split; [|done].
    intros ->. by rewrite Ascii.eqb_refl in Hxc.
Qed.

Lemma find_char_None (c : ascii) (s : pystr) :
  c ∉ s → PyStr.find_char c s = None.
Proof.
  induction s as [|x s IH]; intros Hs; simpl; [done|].
  apply not_elem_of_cons in Hs as [Hx Hs].
  destruct (Ascii.eqb x c) eqn:Hxc; [by apply Ascii.eqb_eq in Hxc|].
  by rewrite IH.
Qed.

(** X11. The span that the brace scan takes begins at the first opening
    brace of the reply and ends with a closing brace; over the span the
    brace depth comes back to zero, and over no shorter beginning of it
    does it do so. *)
Theorem first_balanced_shape (text candidate : pystr) :
  first_balanced text = Some candidate →
  ∃ pre body post,
    text = pre ++ candidate ++ post
    ∧ ("{"%char ∉ pre)
    ∧ candidate = "{"%char :: (body ++ ["}"%char])
    ∧ brace_depth 0 candidate = 0
    ∧ ∀ k, (0 < k < length candidate)%nat → 1 ≤ brace_depth 0 (take k candidate).
Proof.
  unfold first_balanced.
  destruct (PyStr.find_char "{" text) as [start|] eqn:Hstart; [|done]. cbn [mbind option_bind].
  apply find_char_Some in Hstart as (pre & rest & -> & <- & Hpre).
  rewrite drop_app_length.
  destruct (balanced_span 0 ("{"%char :: rest)) as [n|] eqn:Hn;
    cbn [mbind option_bind]; [|intros; discriminate].
  intros [= <-].
  cbn [balanced_span Ascii.eqb Bool.eqb] in Hn. replace (0 + 1) with 1 in Hn by lia.
  destruct (balanced_span 1 rest) as [m|] eqn:Hm; cbn in Hn; [|discriminate].
  injection Hn as <-.
  destruct (balanced_span_spec rest 1 m ltac:(lia) Hm) as (Hlen & Hzero & Hlast & Hpos).
  assert (take m rest = take (m - 1) rest ++ ["}"%char]) as Hsplit.
  { replace m with (S (m - 1)) at 1 by lia. by erewrite take_S_r. }
  exists pre, (take (m - 1) rest), (drop m rest).
  split; [by rewrite <- (take_drop (S m) ("{"%char :: rest)) at 1|].
  split; [done|]. split; [cbn; by rewrite Hsplit|].
  split; [done|].
  intros [|k] Hk; [lia|].
  rewrite length_take in Hk. cbn [length] in Hk.
  cbn [take brace_depth Ascii.eqb Bool.eqb]. replace (0 + 1) with 1 by lia.
  rewrite take_take, Nat.min_l by lia. apply Hpos. lia.
Qed.

(** [first_balanced_shape] at a reply with a nested object. *)
Lemma first_balanced_shape_witness :
  ∃ pre body post,
    wrapped_reply = pre ++ wrapped_object ++ post
    ∧ ("{"%char ∉ pre)
    ∧ wrapped_object = "{"%char :: (body ++ ["}"%char])
    ∧ brace_depth 0 wrapped_object = 0.
Proof.
  assert (first_balanced wrapped_reply = Some wrapped_object) as H0 by (vm_compute; reflexivity).
  destruct (first_balanced_shape wrapped_reply wrapped_object H0)
    as (pre & body & post & H1 & H2 & H3 & H4 & _).
  exists pre, body, post.
  split; [exact H1|].
  split; [exact H2|].
  split; [exact H3|exact H4].
Defined.

Lemma lstrip_suffix (s : pystr) : ∃ w, s = w ++ PyStr.lstrip s.
Proof.
  induction s as [|c s [w IH]]; [by exists []|]. simpl.
  destruct (PyStr.isspace c); [|by exists []].
  exists (c :: w). by rewrite <- app_comm_cons, <- IH.
Qed.

Lemma lazy_to_brace_prefix (s g : pystr) :
  Re.lazy_to_brace s = Some g → ∃ b, s = g ++ b.
Proof.
  revert g. induction s as [|c s IH]; intros g; cbn [Re.lazy_to_brace]; [done|].
  destruct (Ascii.eqb c "}" && PyStr.startswith Re.fence_close (PyStr.lstrip s)).
  - intros [= <-]. by exists s.
  - destruct (Re.lazy_to_brace s) as [g'|] eqn:Hg'; cbn [fmap option_fmap option_map];
      [|intros; discriminate].
    intros [= <-]. destruct (IH g' eq_refl) as [b ->]. by exists b.
Qed.

Lemma fenced_at_part (s g : pystr) :
  Re.fenced_at s = Some g → part_of g s ∧ ∃ g', g = "{"%char :: g'.
Proof.
  unfold Re.fenced_at.
  destruct (PyStr.startswith Re.fence_open s) eqn:Hfence; [|done].
  apply startswith_inv in Hfence as [rest ->].
  rewrite drop_app_length.
  destruct (lstrip_suffix rest) as [w Hw].
  destruct (PyStr.lstrip rest) as [|c r]; [done|].
  destruct (Ascii.eqb c "{") eqn:Hc; [|done].
  apply Ascii.eqb_eq in Hc as ->.
  destruct (Re.lazy_to_brace r) as [g'|] eqn:Hg; [|done]. intros [= <-].
  apply lazy_to_brace_prefix in Hg as [b ->].
  split; [|by exists g'].
  exists (Re.fence_open ++ w), b. rewrite Hw.
  by rewrite <- !app_assoc.
Qed.

Lemma search_fenced_part (s g : pystr) :
  Re.search_fenced s = Some g → part_of g s ∧ ∃ g', g = "{"%char :: g'.
Proof.
  induction s as [|c s IH].
  - cbn. done.
  - cbn [Re.search_fenced].
    destruct (Re.fenced_at (c :: s)) as [g0|] eqn:Hat.
    + intros [= <-]. by apply fenced_at_part.
    + intros [[a [b ->]] Hg]%IH. split; [|done]. by exists (c :: a), b.
Qed.

Lemma first_balanced_part (text c : pystr) :
  first_balanced text = Some c → part_of c text ∧ ∃ c', c = "{"%char :: c'.
Proof.
  unfold first_balanced.
  destruct (PyStr.find_char "{" text) as [start|] eqn:Hstart;
    cbn [mbind option_bind]; [|intros; discriminate].
  apply find_char_Some in Hstart as (pre & rest & -> & <- & Hpre).
  rewrite drop_app_length.
  destruct (balanced_span 0 ("{"%char :: rest)) as [n|] eqn:Hn;
    cbn [mbind option_bind]; [|intros; discriminate].
  intros [= <-].
  cbn [balanced_span Ascii.eqb Bool.eqb] in Hn. replace (0 + 1) with 1 in Hn by lia.
  destruct (balanced_span 1 rest) as [m|] eqn:Hm; cbn in Hn; [|discriminate].
  injection Hn as <-. split.
  - exists pre, (drop (S m) ("{"%char :: rest)). by rewrite take_drop.
  - by exists (take m rest).
Qed.

Section Provenance.
Context `{!Outside}.

(** X12. What the extraction returns is the value of a contiguous part of
    the reply, the whole reply or a part that begins with an opening brace;
    so a reply that holds no opening brace and is not JSON as a whole makes
    it raise. *)
Theorem extraction_provenance (text : pystr) :
  (∀ v, _extract_json_object text = Ok v →
        json_loads text = Some v
        ∨ ∃ sub rest, part_of sub text ∧ sub = "{"%char :: rest ∧ json_loads sub = Some v)
  ∧ (∀ e, _extract_json_object text = Raise e → e = extraction_error)
  ∧ ("{"%char ∉ text → json_loads text = None →
     _extract_json_object text = Raise extraction_error).
Proof.
  split; [|split].
  - intros v. unfold _extract_json_object.
    destruct (json_loads text) as [v0|]; [intros [= <-]; by left|].
    assert (∀ c, first_balanced text = Some c →
                 match json_loads c with Some v => Ok v | None => Raise extraction_error end
                 = Ok v →
                 ∃ sub rest, part_of sub text ∧ sub = "{"%char :: rest
                             ∧ json_loads sub = Some v) as Hscan.
    { intros c Hc. apply first_balanced_part in Hc as [Hpart [c' ->]].
      destruct (json_loads ("{"%char :: c')) as [v2|] eqn:Hv2; [|intros; discriminate].
      intros [= <-]. exists ("{"%char :: c'), c'.
      split; [exact Hpart|]. split; [reflexivity|exact Hv2]. }
    destruct (Re.search_fenced text) as [g|] eqn:Hg; cbn [mbind option_bind].
    + apply search_fenced_part in Hg as [Hfenced [g' ->]].
      destruct (json_loads ("{"%char :: g')) as [v1|] eqn:Hv1.
      { intros [= <-]. right. exists ("{"%char :: g'), g'.
        split; [exact Hfenced|]. split; [reflexivity|exact Hv1]. }
      destruct (first_balanced text) as [c|] eqn:Hc; [|intros; discriminate].
      intros Hv. right. exact (Hscan c eq_refl Hv).
    + destruct (first_balanced text) as [c|] eqn:Hc; [|intros; discriminate].
      intros Hv. right. exact (Hscan c eq_refl Hv).
  - intros e. unfold _extract_json_object.
    repeat case_match; try done; by intros [= <-].
  - intros Hbrace Hwhole. unfold _extract_json_object. rewrite Hwhole.
    destruct (Re.search_fenced text) as [g|] eqn:Hg.
    { apply search_fenced_part in Hg as [(a & b & ->) [g' ->]]. set_solver. }
    cbn [mbind option_bind]. unfold first_balanced.
    by rewrite find_char_None.
Qed.

End Provenance.

(** [extraction_provenance] at a refusal in plain words. *)
Lemma extraction_provenance_witness :
  _extract_json_object (H := reference_outside) (str "I cannot rate this player.")
  = Raise extraction_error.
Proof.
  apply (extraction_provenance (H := reference_outside)).
  - rewrite list_elem_of_In. vm_compute. intuition discriminate.
  - vm_compute. reflexivity.
Defined.

(** ** What the stripping of reasoning markers removes *)

Lemma sub_empty_sublist (f : pystr -> option nat) (s : pystr) :
  ∀ n, Re.sub_empty f n s `sublist_of` s.
Proof.
  induction s as [|c s IH]; intros n; [done|].
  cbn [Re.sub_empty]. destruct n as [|n]; [|by apply sublist_cons].
  destruct (f (c :: s)) as [[|k]|]; first [by apply sublist_skip | by apply sublist_cons].
Qed.

Lemma sub_empty_shrinks (f : pystr -> option nat) (s : pystr) (i k : nat) :
  f [] = None → f (drop i s) = Some (S k) →
  (length (Re.sub_empty f O s) < length s)%nat.
Proof.
  intros Hnil. revert i. induction s as [|c s IH]; intros i Hi.
  { rewrite drop_nil in Hi. congruence. }
  cbn [Re.sub_empty].
  destruct (f (c :: s)) as [[|k']|] eqn:Hhead.
  - destruct i as [|i]; [cbn [drop] in Hi; congruence|].
    cbn [drop] in Hi. specialize (IH i Hi). simpl. lia.
  - pose proof (sublist_length _ _ (sub_empty_sublist f s k')). simpl. lia.
  - destruct i as [|i]; [cbn [drop] in Hi; congruence|].
    cbn [drop] in Hi. specialize (IH i Hi). simpl. lia.
Qed.

Lemma sublist_same_length {A} (l k : list A) :
  l `sublist_of` k → (length k ≤ length l)%nat → l = k.
Proof.
  induction 1 as [|x l k Hlk IH|x l k Hlk IH]; intros Hlen; [done| |].
  - f_equal. apply IH. simpl in Hlen. lia.
  - apply sublist_length in Hlk. simpl in Hlen. lia.
Qed.

Lemma find_ci_Some (p s : pystr) (i : nat) :
  Re.find_ci p s = Some i → Re.prefix_ci p (drop i s) = true.
Proof.
  revert i. induction s as [|c s IH]; intros i.
  - cbn [Re.find_ci]. destruct (Re.prefix_ci p []) eqn:Hp; [|done].
    intros [= <-]. done.
  - cbn [Re.find_ci]. destruct (Re.prefix_ci p (c :: s)) eqn:Hp.
    + intros [= <-]. done.
    + destruct (Re.find_ci p s) as [j|] eqn:Hj; [|done].
      intros [= <-]. cbn [drop]. by apply IH.
Qed.

Lemma think_tag_at (s : pystr) (i : nat) :
  Re.find_ci Re.open_tag s = Some i ∨ Re.find_ci Re.close_tag s = Some i →
  ∃ k, Re.think_tag (drop i s) = Some (S k).
Proof.
  unfold Re.think_tag. intros [H|H]; apply find_ci_Some in H.
  - destruct (Re.prefix_ci Re.close_tag _); [by exists 7%nat|].
    rewrite H. by exists 6%nat.
  - rewrite H. by exists 7%nat.
Qed.

(** X13. The stripping only deletes: what it returns is the reply with
    some of its characters left out, in their order, and it returns the
    reply unchanged exactly when the reply holds neither marker, in any
    case of letters. *)
Theorem strip_only_deletes (text : pystr) :
  _strip_think_blocks text `sublist_of` text
  ∧ (_strip_think_blocks text = text
     ↔ tag_free Re.open_tag text ∧ tag_free Re.close_tag text).
Proof.
  assert (_strip_think_blocks text `sublist_of` text) as Hsub.
  { unfold _strip_think_blocks. cbv zeta.
    etrans; apply sub_empty_sublist. }
  split; [done|]. split; [|intros [? ?]; by apply strip_tag_free].
  intros Hfix.
  assert (Re.sub_empty Re.think_block O text = text) as Hfirst.
  { apply sublist_same_length; [apply sub_empty_sublist|].
    rewrite <- Hfix at 1. unfold _strip_think_blocks. cbv zeta.
    apply sublist_length, sub_empty_sublist. }
  unfold _strip_think_blocks in Hfix. cbv zeta in Hfix. rewrite Hfirst in Hfix.
  assert (∀ i, ¬ (Re.find_ci Re.open_tag text = Some i
                  ∨ Re.find_ci Re.close_tag text = Some i)) as Hno.
  { intros i [k Hk]%think_tag_at.
    pose proof (sub_empty_shrinks Re.think_tag text i k eq_refl Hk) as Hlt.
    rewrite Hfix in Hlt. lia. }
  unfold tag_free. split.
  - destruct (Re.find_ci Re.open_tag text) as [i|] eqn:Hi; [|done].
    destruct (Hno i). by left.
  - destruct (Re.find_ci Re.close_tag text) as [i|] eqn:Hi; [|done].
    destruct (Hno i). by right.
Qed.

(** X14. A marked region at the beginning of a reply, from an opening
    marker to the first closing marker after it, is removed whatever
    follows it: the stripping of the reply is the stripping of what follows
    the region. *)
Theorem leading_region_removed (o body c rest : pystr) :
  is_open_tag o → is_close_tag c → tag_free Re.close_tag body →
  _strip_think_blocks (o ++ body ++ c ++ rest) = _strip_think_blocks rest.
Proof.
  intros Ho Hc Hbody. unfold _strip_think_blocks. cbv zeta. f_equal.
  rewrite (sub_empty_match Re.think_block _ (length (o ++ body ++ c) - 1)).
  - replace (S (length (o ++ body ++ c) - 1)) with (length (o ++ body ++ c))
      by (rewrite length_app, (open_tag_length o Ho); lia).
    replace (o ++ body ++ c ++ rest) with ((o ++ body ++ c) ++ rest)
      by (by rewrite <- !app_assoc).
    by rewrite drop_app_length.
  - rewrite think_block_region by done. f_equal.
    rewrite length_app, (open_tag_length o Ho). lia.
  - rewrite !length_app, (open_tag_length o Ho). lia.
Qed.

(** [leading_region_removed] at a region in mixed case before an object
    that names the marker: the region goes, and so does the marker inside
    the object. *)
Lemma leading_region_removed_witness :
  _strip_think_blocks thinking_then_tagged = _strip_think_blocks tagged_payload
  ∧ _strip_think_blocks tagged_payload = jstr "{'reasoning':'the  tag is absent'}".
Proof.
  split; [|vm_compute; reflexivity].
  apply (leading_region_removed (str "<THINK>")
           (str "The report is thin {so far}." ++ [newline]) (str "</Think>") tagged_payload).
  - vm_compute. reflexivity.
  - vm_compute. reflexivity.
  - vm_compute. reflexivity.
Defined.

(** ** Accepted ratings *)

Section RatingProps.
Context `{!Outside}.

Lemma validated_in_range (obj : pyval) (r : ScoreOutput) :
  model_validate obj = Ok r → in_range r.
Proof.
  unfold model_validate. destruct obj as [| | | | | |d]; try (intros; discriminate).
  destruct (validate_fields d) as [out|] eqn:Hout; [|intros; discriminate].
  intros [= <-].
  apply validate_fields_Some in Hout
    as (_ & Hcr & Hfr & Hcc & Hfc & Hrs & _ & _).
  apply int_field_Some in Hcr as (? & _ & _ & ?).
  apply int_field_Some in Hfr as (? & _ & _ & ?).
  apply int_field_Some in Hcc as (? & _ & _ & ?).
  apply int_field_Some in Hfc as (? & _ & _ & ?).
  apply reasoning_field_Some in Hrs as (a & b & c & _ & Hl).
  unfold in_range. rewrite Hl. done.
Qed.

Lemma rating_dict_validates (r : ScoreOutput) :
  in_range r → model_validate (rating_dict r) = Ok r.
Proof.
  intros (Hcr & Hfr & Hcc & Hfc & Hrs).
  unfold rating_dict, model_validate.
  assert (validate_fields
            [(str "model_name", PStr (model_name r));
             (str "current_rating", PInt (current_rating r));
             (str "future_rating", PInt (future_rating r));
             (str "current_confidence", PInt (current_confidence r));
             (str "future_confidence", PInt (future_confidence r));
             (str "reasoning", PList (PStr <$> reasoning r));
             (str "timestamp", PStr (timestamp r));
             (str "version", PStr (version r))] = Some r) as ->; [|done].
  apply validate_fields_Some.
  split; [reflexivity|].
  split; [apply int_field_Some; exists (PInt (current_rating r)); by split|].
  split; [apply int_field_Some; exists (PInt (future_rating r)); by split|].
  split; [apply int_field_Some; exists (PInt (current_confidence r)); by split|].
  split; [apply int_field_Some; exists (PInt (future_confidence r)); by split|].
  split.
  { apply reasoning_field_Some.
    destruct (reasoning r) as [|a [|b [|c [|]]]]; simpl in Hrs; try lia.
    by exists a, b, c. }
  split; reflexivity.
Qed.

Lemma stamp_in_range (name now : pystr) (data : ScoreOutput) :
  in_range data → in_range (stamp name now data).
Proof. done. Qed.

(** X15. A rating that the schema accepts lies in the ranges, whatever
    the lax conversion made of the reply's values: ratings from 1 to 9,
    confidences from 0 to 100, three reasoning texts. The dictionary that
    the output file holds for a rating is accepted, and as that same
    rating, exactly when the rating lies in the ranges; so what was accepted
    once is accepted again when it is read back. *)
Theorem accepted_rating_round_trip :
  (∀ obj r, model_validate obj = Ok r → in_range r)
  ∧ (∀ r, model_validate (rating_dict r) = Ok r ↔ in_range r)
  ∧ (∀ obj r, model_validate obj = Ok r → model_validate (rating_dict r) = Ok r).
Proof.
  split; [exact validated_in_range|]. split.
  - intros r. split; [apply validated_in_range | apply rating_dict_validates].
  - intros obj r Hr. by apply rating_dict_validates, (validated_in_range obj).
Qed.

Lemma of_kind_in_range (c : chain) (markdown now : pystr) (r : ScoreOutput) :
  of_kind c → c.2 markdown now = Ok r → in_range r.
Proof.
  intros [l [Hk | [Hk | Hk]]] Hr; rewrite Hk in Hr.
  - apply build_chain_inv in Hr as (? & data & _ & Hdata & ->).
    by apply stamp_in_range, (validated_in_range _ _ Hdata).
  - apply build_chain_plain_json_inv in Hr as (? & ? & data & _ & _ & Hdata & ->).
    by apply stamp_in_range, (validated_in_range _ _ Hdata).
  - apply build_chain_deepseek_inv in Hr as (? & ? & data & _ & _ & Hdata & ->).
    by apply stamp_in_range, (validated_in_range _ _ Hdata).
Qed.

Lemma of_kind_build_chain l name : of_kind (name, build_chain l name).
Proof. exists l. by left. Qed.

Lemma of_kind_plain_json l name : of_kind (name, build_chain_plain_json l name).
Proof. exists l. right. by left. Qed.

Lemma of_kind_deepseek l name : of_kind (name, build_chain_plain_json_for_deepseek l name).
Proof. exists l. right. by right. Qed.

Lemma of_kind_openrouter_chain env model : Forall of_kind (openrouter_chain env model).
Proof.
  unfold openrouter_chain. destruct (make_openrouter env model); [|done].
  apply Forall_singleton, of_kind_plain_json.
Qed.

Lemma of_kind_openrouter_chains env : Forall of_kind (openrouter_chains env).
Proof.
  unfold openrouter_chains. destruct (truthy (env !! str "OPENROUTER_API_KEY")); [|done].
  repeat (apply Forall_app; split);
    repeat case_match; auto using of_kind_openrouter_chain.
Qed.

Lemma of_kind_build_chains env args chains :
  build_chains env args = Ok chains → Forall of_kind chains.
Proof.
  unfold build_chains.
  repeat match goal with
         | |- context [mbind _ ?r] =>
             lazymatch r with
             | mbind _ _ => fail
             | _ => destruct r; cbn [mbind result_bind]; [|done]
             end
         end.
  intros [= <-].
  repeat first [ apply Forall_app; split | apply Forall_cons; split | apply Forall_nil_2 ];
    repeat case_match;
    repeat first [ apply Forall_app; split | apply Forall_cons; split | apply Forall_nil_2 ];
    auto using of_kind_build_chain, of_kind_plain_json,
      of_kind_deepseek, of_kind_openrouter_chains.
Qed.

(** X16. Every rating of an aggregate that the configured chains produce
    lies in the ranges of the schema, and the dictionary written for it is
    an acceptable rating that reads back as the same rating. *)
Theorem aggregate_ratings_valid (env : environ) (args : scorer_args) (chains : list chain)
    (delay : nat -> nat) (tick : nat) (markdown : pystr) (fs : filesystem)
    (player_summary_path out_path : path) (r : ScoreOutput) :
  build_chains env args = Ok chains →
  r ∈ ratings (score_chains chains delay tick markdown fs player_summary_path out_path).1 →
  in_range r ∧ model_validate (rating_dict r) = Ok r.
Proof.
  intros Hchains Hr.
  rewrite score_chains_spec in Hr. cbn in Hr.
  apply ratings_from_chains in Hr as (i & c & Hc & Hrun).
  assert (in_range r) as Hrange.
  { apply of_kind_build_chains in Hchains.
    eapply of_kind_in_range; [|exact Hrun].
    exact (Forall_lookup_1 _ _ _ _ Hchains Hc). }
  split; [done | by apply rating_dict_validates].
Qed.

End RatingProps.

(** [aggregate_ratings_valid] at the five chains of an environment that
    holds the two keys, in surroundings in which every model answers. *)
Lemma aggregate_ratings_valid_witness :
  in_range first_rating
  ∧ model_validate (H := answering_outside) (rating_dict first_rating) = Ok first_rating.
Proof.
  apply (aggregate_ratings_valid (H := answering_outside) keys_env default_args
           (or_else (build_chains (H := answering_outside) keys_env default_args) [])
           last_first 0 (str "report") empty_fs [str "a.md"] [str "a.json"] first_rating).
  - vm_compute. reflexivity.
  - vm_compute. apply list_elem_of_here.
Defined.

(** ** Configuration of a scoring pass *)

Section ConfigurationProps.
Context `{!Outside}.

Lemma make_openai_cases env model :
  make_openai env model
  = if truthy (env !! str "OPENAI_API_KEY") then Ok (chat_model None model)
    else Raise (RuntimeError (str "Missing API key in env var OPENAI_API_KEY")).
Proof. reflexivity. Qed.

Lemma make_jetstream_is_ok env model :
  is_ok (make_jetstream env model) = truthy (env !! str "JETSTREAM_API_KEY").
Proof. unfold make_jetstream. by destruct (truthy _). Qed.

Lemma openrouter_chain_length env model : (length (openrouter_chain env model) ≤ 1)%nat.
Proof. unfold openrouter_chain. destruct (make_openrouter env model); simpl; lia. Qed.

Lemma openrouter_chains_length env : (length (openrouter_chains env) ≤ 3)%nat.
Proof.
  unfold openrouter_chains. destruct (truthy (env !! str "OPENROUTER_API_KEY")); [|simpl; lia].
  rewrite !length_app.
  pose proof (openrouter_chain_length env (default [] (env !! str "GEMINI_MODEL"))).
  pose proof (openrouter_chain_length env (default [] (env !! str "OPUS_MODEL"))).
  pose proof (openrouter_chain_length env
                (or_str (env !! str "MAVERICK_MODEL") (str "meta-llama/llama-4-maverick:free"))).
  repeat case_match; cbn [length]; lia.
Qed.

Lemma build_chains_cases (env : environ) (args : scorer_args) :
  match build_chains env args with
  | Ok chains =>
      truthy (env !! str "OPENAI_API_KEY") = true
      ∧ truthy (env !! str "JETSTREAM_API_KEY") = true
      ∧ (∃ rest, chains.*1 = str "gpt-5" :: str "gpt-5-mini" :: rest)
      ∧ length chains = (2 + jetstream_count args + length (openrouter_chains env))%nat
  | Raise e =>
      (truthy (env !! str "OPENAI_API_KEY") = false
       ∧ e = RuntimeError (str "Missing API key in env var OPENAI_API_KEY"))
      ∨ (truthy (env !! str "OPENAI_API_KEY") = true
         ∧ truthy (env !! str "JETSTREAM_API_KEY") = false
         ∧ e = RuntimeError (str "Missing JETSTREAM_API_KEY for Jetstream/vLLM models"))
  end.
Proof.
  unfold build_chains, make_openai, make_jetstream, jetstream_count.
  destruct (truthy (env !! str "OPENAI_API_KEY")); cbn [mbind result_bind]; [|by left].
  destruct (truthy (env !! str "JETSTREAM_API_KEY")); cbn [mbind result_bind];
    [|by right].
  split; [done|]. split; [done|]. split; [by eexists|].
  rewrite !length_app.
  destruct (skip_deepseek args), (skip_llama args), (skip_oss args); simpl; lia.
Qed.

(** X17. The chains of a pass can be configured exactly when the
    environment holds a non-empty OpenAI key and a non-empty Jetstream key,
    the latter also when every Jetstream scorer is skipped. When they can,
    the list begins with [gpt-5] and [gpt-5-mini] and holds two chains, one
    more for each Jetstream scorer that is not skipped, and the OpenRouter
    chains, which are three at most; when they cannot, the exception names
    the OpenAI key if that one is missing and the Jetstream key
    otherwise. *)
Theorem chains_need_two_keys (env : environ) (args : scorer_args) :
  (is_ok (build_chains env args) = true
   ↔ truthy (env !! str "OPENAI_API_KEY") = true
     ∧ truthy (env !! str "JETSTREAM_API_KEY") = true)
  ∧ (∀ chains, build_chains env args = Ok chains →
       (∃ rest, chains.*1 = str "gpt-5" :: str "gpt-5-mini" :: rest)
       ∧ length chains = (2 + jetstream_count args + length (openrouter_chains env))%nat
       ∧ (2 ≤ length chains)%nat ∧ (length chains ≤ 8)%nat)
  ∧ (∀ e, build_chains env args = Raise e →
       e = (if truthy (env !! str "OPENAI_API_KEY")
            then RuntimeError (str "Missing JETSTREAM_API_KEY for Jetstream/vLLM models")
            else RuntimeError (str "Missing API key in env var OPENAI_API_KEY"))).
Proof.
  pose proof (build_chains_cases env args) as Hcases.
  destruct (build_chains env args) as [chains|e].
  - destruct Hcases as (Hopenai & Hjet & Hnames & Hlen).
    split; [by rewrite Hopenai, Hjet|]. split; [|intros; discriminate].
    intros ? [= <-]. split; [done|]. split; [done|].
    pose proof (openrouter_chains_length env).
    unfold jetstream_count in Hlen.
    destruct (skip_deepseek args), (skip_llama args), (skip_oss args); simpl in Hlen; lia.
  - split; [|split; [intros; discriminate|]].
    + split; [intros; discriminate|]. intros [Hopenai Hjet].
      destruct Hcases as [[Hno _] | (_ & Hno & _)]; congruence.
    + intros ? [= <-].
      destruct Hcases as [[-> ->] | (-> & _ & ->)]; done.
Qed.



End ConfigurationProps.

(** [chains_need_two_keys] at an environment that holds the OpenAI key
    only, with the three Jetstream scorers skipped. *)
Lemma chains_need_two_keys_witness :
  build_chains (H := reference_outside) openai_env skip_all_args
  = Raise (RuntimeError (str "Missing JETSTREAM_API_KEY for Jetstream/vLLM models")).
Proof.
  destruct (chains_need_two_keys (H := reference_outside) openai_env skip_all_args)
    as (Hiff & _ & Hraise).
  destruct (build_chains (H := reference_outside) openai_env skip_all_args) as [chains|e].
  - destruct Hiff as [Hkeys _]. destruct (Hkeys eq_refl) as [_ Hjet].
    vm_compute in Hjet. discriminate.
  - rewrite (Hraise e eq_refl). reflexivity.
Defined.

(** ** The names of the summary agent's files *)

Lemma sub_runs_class (cls : ascii -> bool) (rep : ascii) (s : pystr) :
  ∀ b, Forall (fun c => cls c = false ∨ c = rep) (sub_runs cls rep b s).
Proof.
  induction s as [|c s IH]; intros b; cbn [sub_runs]; [done|].
  destruct (cls c) eqn:Hc.
  - destruct b; [apply IH|]. apply Forall_cons. split; [by right | apply IH].
  - apply Forall_cons. split; [by left | apply IH].
Qed.

Lemma doubled_cons (a x : ascii) (s : pystr) :
  doubled a (x :: s) = false ↔
  (Ascii.eqb x a = true → head s ≠ Some a) ∧ doubled a s = false.
Proof.
  destruct s as [|y s].
  - cbn. split; [|done]. intros _. by split.
  - cbn [doubled head]. rewrite orb_false_iff, andb_false_iff. split.
    + intros [Hxy Hs]. split; [|done].
      intros Hx [= ->]. rewrite Ascii.eqb_refl in Hxy. destruct Hxy; congruence.
    + intros [Hxy Hs]. split; [|done].
      destruct (Ascii.eqb x a) eqn:Hx; [|by left]. right.
      apply Ascii.eqb_neq. intros ->. by apply Hxy.
Qed.

Lemma sub_runs_no_double (cls : ascii -> bool) (rep : ascii) (s : pystr) :
  cls rep = true →
  ∀ b, doubled rep (sub_runs cls rep b s) = false
       ∧ (b = true → head (sub_runs cls rep b s) ≠ Some rep).
Proof.
  intros Hrep. induction s as [|c s IH]; intros b; cbn [sub_runs]; [done|].
  destruct (cls c) eqn:Hc.
  - destruct b; [apply IH|].
    destruct (IH true) as [Hd Hh]. split; [|done].
    apply doubled_cons. split; [|done]. intros _. by apply Hh.
  - destruct (IH false) as [Hd _]. split.
    + apply doubled_cons. split; [|done].
      intros ->%Ascii.eqb_eq. congruence.
    + intros _ [= ->]. congruence.
Qed.

Lemma sub_runs_single (rep : ascii) (s : pystr) :
  ∀ b, doubled rep s = false → (b = true → head s ≠ Some rep) →
       sub_runs (fun c => Ascii.eqb c rep) rep b s = s.
Proof.
  induction s as [|c s IH]; intros b Hd Hh; cbn [sub_runs]; [done|].
  apply doubled_cons in Hd as [Hnext Hd].
  destruct (Ascii.eqb c rep) eqn:Hc.
  - apply Ascii.eqb_eq in Hc as ->.
    destruct b; [by destruct Hh|].
    f_equal. apply IH; [done|]. intros _. by apply Hnext.
  - f_equal. by apply IH.
Qed.

Lemma lstrip_char_spec (a : ascii) (s : pystr) :
  (∃ p, s = p ++ lstrip_char a s) ∧ head (lstrip_char a s) ≠ Some a.
Proof.
  induction s as [|c s [[p IHp] IHh]]; cbn [lstrip_char]; [by split; [exists []|]|].
  destruct (Ascii.eqb c a) eqn:Hc.
  - split; [|done]. exists (c :: p). by rewrite <- app_comm_cons, <- IHp.
  - split; [by exists []|]. intros [= ->]. by rewrite Ascii.eqb_refl in Hc.
Qed.

Lemma lstrip_char_id (a : ascii) (s : pystr) : head s ≠ Some a → lstrip_char a s = s.
Proof.
  destruct s as [|c s]; [done|]. cbn. intros Hc.
  destruct (Ascii.eqb c a) eqn:Hca; [|done].
  apply Ascii.eqb_eq in Hca as ->. done.
Qed.

Lemma head_rev {A} (s : list A) : head (rev s) = list.last s.
Proof.
  induction s as [|x s IH] using rev_ind; [done|].
  by rewrite rev_app_distr, last_snoc.
Qed.

Lemma strip_char_spec (a : ascii) (s : pystr) :
  (∃ p q, s = p ++ strip_char a s ++ q)
  ∧ head (strip_char a s) ≠ Some a
  ∧ list.last (strip_char a s) ≠ Some a.
Proof.
  unfold strip_char.
  destruct (lstrip_char_spec a s) as [[p Hp] Hhead].
  destruct (lstrip_char_spec a (rev (lstrip_char a s))) as [[q Hq] Hlast].
  set (t := lstrip_char a s) in *.
  set (u := lstrip_char a (rev t)) in *.
  assert (t = rev u ++ rev q) as Ht.
  { rewrite <- rev_app_distr, <- Hq. by rewrite rev_involutive. }
  split; [|split].
  - exists p, (rev q). by rewrite <- Ht.
  - destruct (rev u) as [|x r] eqn:Hu; [done|].
    rewrite Ht in Hhead. done.
  - by rewrite <- head_rev, rev_involutive.
Qed.

Lemma strip_char_id (a : ascii) (s : pystr) :
  head s ≠ Some a → list.last s ≠ Some a → strip_char a s = s.
Proof.
  intros Hh Hl. unfold strip_char.
  rewrite (lstrip_char_id a s Hh), lstrip_char_id, rev_involutive; [done|].
  by rewrite head_rev.
Qed.

Lemma doubled_app_r (a : ascii) (p s : pystr) :
  doubled a (p ++ s) = false → doubled a s = false.
Proof.
  induction p as [|x p IH]; [done|].
  rewrite <- app_comm_cons. intros [_ Hd]%doubled_cons. by apply IH.
Qed.

Lemma doubled_app_l (a : ascii) (s q : pystr) :
  doubled a (s ++ q) = false → doubled a s = false.
Proof.
  induction s as [|x s IH]; [done|].
  rewrite <- app_comm_cons. intros [Hx Hd]%doubled_cons.
  apply doubled_cons. split; [|by apply IH].
  intros Hxa Hs. apply (Hx Hxa). by destruct s.
Qed.

Lemma lstrip_forall (P : ascii -> Prop) (s : pystr) : Forall P s → Forall P (PyStr.lstrip s).
Proof.
  destruct (lstrip_suffix s) as [w Hw]. rewrite Hw at 1.
  by intros [_ ?]%Forall_app.
Qed.

Lemma strip_forall (P : ascii -> Prop) (s : pystr) : Forall P s → Forall P (PyStr.strip s).
Proof.
  intros Hs. unfold PyStr.strip, PyStr.rstrip.
  apply Forall_rev, lstrip_forall, Forall_rev. by apply lstrip_forall.
Qed.

Lemma lower_alnum_of_lower (c : ascii) :
  is_lower_alnum (PyStr.lower_char c) = PyStr.isalnum_ascii c.
Proof. destruct c as [[] [] [] [] [] [] [] []]; vm_compute; reflexivity. Qed.

Lemma sub_runs_all (cls : ascii -> bool) (rep : ascii) (s : pystr) :
  Forall (fun c => cls c = true) s →
  sub_runs cls rep true s = []
  ∧ (sub_runs cls rep false s = [] ∨ sub_runs cls rep false s = [rep]).
Proof.
  induction 1 as [|c s Hc Hs [IHt IHf]]; cbn [sub_runs]; [by split; [|left]|].
  rewrite Hc. split; [done|]. right. by rewrite IHt.
Qed.

Lemma stem_of_md (dir : path) (slug : pystr) :
  slug ≠ [] → PyPath.stem (PyPath.child dir (slug ++ str ".md")) = slug.
Proof.
  intros Hslug. unfold PyPath.stem. rewrite name_child.
  assert (PyPath.split_at (slug ++ str ".md") = Some (length slug)) as ->.
  { apply split_at_Some. exists slug, (str ".md"). split; [done|]. split; [done|].
    split; [done|]. exists (str "md"). split; [done|]. split; [done|].
    rewrite list_elem_of_In. vm_compute. intuition discriminate. }
  by rewrite take_app_length.
Qed.

(** X19. Whatever the folding to ASCII yields, the slug of the agent is
    not empty, holds lower-case ASCII letters, digits and underscores only,
    neither begins nor ends with an underscore and holds no two underscores
    in a row, so that the second substitution of [slugify_name] never
    changes anything; a name without an ASCII letter or digit after the
    folding gets the slug [player]; and the stem of the file written under
    the slug is the slug. *)
Theorem slugify_name_shape (ascii_fold : pystr -> pystr) (name : pystr) :
  let slug := slugify_name ascii_fold name in
  let text := sub_runs (fun c => negb (is_lower_alnum c)) "_" false
                (PyStr.lower (PyStr.strip (ascii_fold name))) in
  slug ≠ []
  ∧ Forall (fun c => is_lower_alnum c = true ∨ c = "_"%char) slug
  ∧ head slug ≠ Some "_"%char
  ∧ list.last slug ≠ Some "_"%char
  ∧ doubled "_" slug = false
  ∧ sub_runs (fun c => Ascii.eqb c "_") "_" false text = text
  ∧ (Forall (fun c => PyStr.isalnum_ascii c = false) (ascii_fold name) →
     slug = str "player")
  ∧ ∀ dir, PyPath.stem (PyPath.child dir (slug ++ str ".md")) = slug.
Proof.
  intros slug text.
  assert (Forall (fun c => is_lower_alnum c = true ∨ c = "_"%char) text) as Hclass.
  { eapply Forall_impl; [apply sub_runs_class|].
    intros c [Hc|Hc]; [left; by apply negb_false_iff | by right]. }
  destruct (sub_runs_no_double (fun c => negb (is_lower_alnum c)) "_"
              (PyStr.lower (PyStr.strip (ascii_fold name))) eq_refl false) as [Hdouble _].
  fold text in Hdouble.
  assert (sub_runs (fun c => Ascii.eqb c "_") "_" false text = text) as Hsecond.
  { apply sub_runs_single; [done|]. intros; discriminate. }
  assert (slug = match strip_char "_" text with [] => str "player" | _ :: _ => strip_char "_" text end)
    as Hslug.
  { unfold slug, slugify_name. cbv zeta. fold text. by rewrite Hsecond. }
  destruct (strip_char_spec "_" text) as ((p & q & Hseg) & Hhead & Hlast).
  assert (slug ≠ []
          ∧ Forall (fun c => is_lower_alnum c = true ∨ c = "_"%char) slug
          ∧ head slug ≠ Some "_"%char
          ∧ list.last slug ≠ Some "_"%char
          ∧ doubled "_" slug = false) as (H1 & H2 & H3 & H4 & H5).
  { rewrite Hslug. destruct (strip_char "_" text) as [|c t] eqn:Hstrip.
    - split; [done|]. split; [|done].
      repeat (apply Forall_cons; split; [by left|]). apply Forall_nil_2.
    - split; [done|]. split; [|split; [done|split; [done|]]].
      + rewrite Hseg in Hclass. by apply Forall_app in Hclass as [_ [? _]%Forall_app].
      + rewrite Hseg in Hdouble. by apply doubled_app_r, doubled_app_l in Hdouble. }
  split; [done|]. split; [done|]. split; [done|]. split; [done|]. split; [done|].
  split; [done|]. split; [|intros dir; by apply stem_of_md].
  intros Hnone. rewrite Hslug.
  assert (Forall (fun c => negb (is_lower_alnum c) = true)
            (PyStr.lower (PyStr.strip (ascii_fold name)))) as Hall.
  { unfold PyStr.lower. apply Forall_map. apply strip_forall.
    eapply Forall_impl; [exact Hnone|]. intros c Hc. cbn beta.
    by rewrite lower_alnum_of_lower, Hc. }
  destruct (sub_runs_all _ "_" _ Hall) as [_ [Hnil | Hone]]; fold text in Hnil || fold text in Hone.
  - by rewrite Hnil.
  - by rewrite Hone.
Qed.

Lemma alnum_facts (c : ascii) :
  PyStr.isalnum_ascii c = true →
  PyStr.isspace c = false
  ∧ Ascii.eqb c " " = false
  ∧ slug_char c = PyStr.lower_char c
  ∧ slug_char c ≠ "_"%char.
Proof. destruct c as [[] [] [] [] [] [] [] []]; vm_compute; intros; done. Qed.

Lemma lower_of_slug_char (c : ascii) : PyStr.lower_char (slug_char c) = slug_char c.
Proof. destruct c as [[] [] [] [] [] [] [] []]; vm_compute; reflexivity. Qed.

Lemma plain_head (s : pystr) :
  plain s → ∃ c s', s = c :: s' ∧ PyStr.isalnum_ascii c = true.
Proof.
  unfold plain. destruct s as [|c s']; cbn [spaced_words]; [done|].
  destruct (Ascii.eqb c " "); [done|].
  intros [Hc _]%andb_prop. by exists c, s'.
Qed.

Lemma spaced_words_last (s : pystr) :
  ∀ b, spaced_words b s = true → s ≠ [] →
       ∃ c, list.last s = Some c ∧ PyStr.isalnum_ascii c = true.
Proof.
  induction s as [|c s IH]; intros b Hs Hne; [done|].
  cbn [spaced_words] in Hs.
  destruct s as [|d s].
  - destruct (Ascii.eqb c " ").
    + apply andb_prop in Hs as [_ Hs]. done.
    + apply andb_prop in Hs as [Hc _]. by exists c.
  - destruct (Ascii.eqb c " ").
    + apply andb_prop in Hs as [_ Hs]. by apply (IH true).
    + apply andb_prop in Hs as [_ Hs]. by apply (IH false).
Qed.

Lemma plain_trimmed (s : pystr) : plain s → s ≠ [] ∧ trimmed s.
Proof.
  intros Hs. destruct (plain_head s Hs) as (c & s' & -> & Hc).
  split; [done|]. split.
  - cbn. by destruct (alnum_facts c Hc) as [-> _].
  - destruct (spaced_words_last (c :: s') true Hs ltac:(done)) as (d & Hlast & Hd).
    rewrite <- head_rev in Hlast.
    destruct (rev (c :: s')) as [|x r]; [done|]. injection Hlast as ->.
    cbn. by destruct (alnum_facts d Hd) as [-> _].
Qed.

Lemma plain_join (a c : pystr) :
  ∀ b, spaced_words b a = true → plain c → spaced_words b (a ++ " "%char :: c) = true.
Proof.
  unfold plain. induction a as [|x a IH]; intros b Ha Hc.
  - cbn in Ha. apply negb_true_iff in Ha as ->. cbn. done.
  - rewrite <- app_comm_cons. cbn [spaced_words] in Ha |- *.
    destruct (Ascii.eqb x " ").
    + apply andb_prop in Ha as [-> Ha]. cbn. by apply IH.
    + apply andb_prop in Ha as [-> Ha]. cbn. by apply IH.
Qed.

Lemma sub_runs_plain (s : pystr) :
  ∀ b in_run, spaced_words b s = true → (in_run = true → b = true) →
    sub_runs (fun c => negb (is_lower_alnum c)) "_" in_run (PyStr.lower s) = slug_char <$> s.
Proof.
  induction s as [|c s IH]; intros b in_run Hs Hrun; [done|].
  cbn [spaced_words] in Hs.
  cbn [PyStr.lower map sub_runs fmap list_fmap]. fold (PyStr.lower s).
  rewrite lower_alnum_of_lower.
  destruct (Ascii.eqb c " ") eqn:Hsp.
  - apply Ascii.eqb_eq in Hsp as ->.
    apply andb_prop in Hs as [Hb%negb_true_iff Hs].
    destruct in_run; [specialize (Hrun eq_refl); congruence|].
    cbn. f_equal. by apply (IH true true).
  - apply andb_prop in Hs as [Hc Hs]. rewrite Hc. cbn [negb].
    destruct (alnum_facts c Hc) as (_ & _ & -> & _).
    f_equal. apply (IH false false); [done|]. intros; discriminate.
Qed.

Lemma slugify_trimmed (s : pystr) : trimmed s → _slugify s = slug_char <$> s.
Proof. intros Hs. by rewrite slugify_pointwise, strip_of_trimmed. Qed.

Lemma slugify_name_plain (ascii_fold : pystr -> pystr) (s : pystr) :
  plain s → ascii_fold s = s → slugify_name ascii_fold s = slug_char <$> s.
Proof.
  intros Hs Hfold. destruct (plain_trimmed s Hs) as [Hne Htrim].
  unfold slugify_name. cbv zeta.
  rewrite Hfold, (strip_of_trimmed s Htrim).
  rewrite (sub_runs_plain s true false Hs) by (intros; discriminate).
  destruct (plain_head s Hs) as (c & s' & Heq & Hc).
  destruct (spaced_words_last s true Hs Hne) as (d & Hlast & Hd).
  assert (head (slug_char <$> s) ≠ Some "_"%char) as Hh.
  { rewrite Heq. cbn. intros [= Hbad]. by destruct (alnum_facts c Hc) as (_ & _ & _ & ?). }
  assert (list.last (slug_char <$> s) ≠ Some "_"%char) as Hl.
  { rewrite fmap_last, Hlast. cbn. intros [= Hbad].
    by destruct (alnum_facts d Hd) as (_ & _ & _ & ?). }
  assert (doubled "_" (slug_char <$> s) = false) as Hdouble.
  { rewrite <- (sub_runs_plain s true false Hs) by (intros; discriminate).
    by apply (sub_runs_no_double (fun c => negb (is_lower_alnum c)) "_"). }
  rewrite sub_runs_single by (done || intros; discriminate).
  rewrite strip_char_id by done.
  rewrite Heq. done.
Qed.

Lemma cell_of_agent_cell (row : csv_row) (k1 k2 : pystr) :
  agent_cell row k1 ≠ [] → cell row k1 k2 = agent_cell row k1.
Proof.
  unfold agent_cell, cell, or_str, py_or.
  destruct (row !! k1) as [[|c s]|]; done.
Qed.

(** X20. For a roster row whose team, first name and last name are each
    made of words of ASCII letters and digits with single spaces between
    them, and which the folding to ASCII leaves as they are, the slug under
    which the agent writes the summary is the first stem that the batch
    driver looks for, [{team_slug}_{player_slug}]; so when the agent's file
    is among the indexed files the driver finds a summary for the row, and
    the key of that summary is the agent's slug. *)
Theorem agent_file_found (ascii_fold : pystr -> pystr) (row : csv_row)
    (dir : path) (md_files : list path) :
  let team := agent_cell row (str "team_name") in
  let fst_ := agent_cell row (str "firstName") in
  let lst := agent_cell row (str "lastName") in
  plain team → plain fst_ → plain lst →
  ascii_fold (team ++ str " " ++ fst_ ++ str " " ++ lst)
  = team ++ str " " ++ fst_ ++ str " " ++ lst →
  ∃ pl,
    roster_player row = Some pl
    ∧ agent_slug ascii_fold row = team_slug pl ++ str "_" ++ player_slug pl
    ∧ (PyPath.child dir (agent_slug ascii_fold row ++ str ".md") ∈ md_files →
       ∃ p, find_summary (build_index md_files) pl = Some p
            ∧ p ∈ md_files
            ∧ stem_key p = agent_slug ascii_fold row).
Proof.
  intros team fst_ lst Hteam Hfst Hlst Hfold.
  destruct (plain_trimmed team Hteam) as [Hteam_ne Hteam_trim].
  destruct (plain_trimmed fst_ Hfst) as [Hfst_ne Hfst_trim].
  destruct (plain_trimmed lst Hlst) as [Hlst_ne Hlst_trim].
  assert (plain (fst_ ++ str " " ++ lst)) as Hname by by apply plain_join.
  assert (plain (team ++ str " " ++ fst_ ++ str " " ++ lst)) as Hall by by apply plain_join.
  destruct (plain_trimmed _ Hname) as [Hname_ne Hname_trim].
  assert (agent_player_name row = fst_ ++ str " " ++ lst) as Hplayer.
  { unfold agent_player_name. cbv zeta. fold fst_ lst.
    rewrite (strip_of_trimmed _ Hname_trim).
    by destruct (fst_ ++ str " " ++ lst). }
  assert (agent_slug ascii_fold row
          = (slug_char <$> team) ++ str "_" ++ (slug_char <$> fst_) ++ str "_" ++ (slug_char <$> lst))
    as Hslug.
  { unfold agent_slug. fold team. rewrite Hplayer.
    rewrite (slugify_name_plain ascii_fold _ Hall Hfold).
    by rewrite !fmap_app. }
  assert (trimmed (fst_ ++ str "_" ++ lst)) as Hjoined.
  { destruct Hfst_trim as [Hf _], Hlst_trim as [_ Hl]. split.
    - destruct fst_; [done|]. exact Hf.
    - rewrite !rev_app_distr. destruct (rev lst) as [|x r] eqn:Hrev; [|exact Hl].
      apply (f_equal (@rev ascii)) in Hrev. rewrite rev_involutive in Hrev. done. }
  set (pl := {| team_name := team; team_slug := _slugify team; first := fst_; last := lst;
                player_slug := _slugify (fst_ ++ str "_" ++ lst) |}).
  assert (roster_player row = Some pl) as Hpl.
  { apply roster_player_Some.
    rewrite !cell_of_agent_cell by done. by fold team fst_ lst. }
  assert (agent_slug ascii_fold row = team_slug pl ++ str "_" ++ player_slug pl) as Hstem.
  { rewrite Hslug. cbn [team_slug player_slug pl].
    rewrite (slugify_trimmed team Hteam_trim), (slugify_trimmed _ Hjoined).
    by rewrite !fmap_app. }
  exists pl. split; [done|]. split; [done|].
  intros Hfile.
  set (slug := agent_slug ascii_fold row) in *.
  assert (stem_key (PyPath.child dir (slug ++ str ".md")) = slug) as Hkey.
  { unfold stem_key. rewrite stem_of_md.
    - rewrite Hslug. unfold PyStr.lower. rewrite !map_app.
      change (map PyStr.lower_char (str "_")) with (str "_").
      change (map PyStr.lower_char) with (fmap (M := list) PyStr.lower_char).
      rewrite <- !list_fmap_compose.
      by rewrite !(list_fmap_ext (PyStr.lower_char ∘ slug_char) slug_char)
        by (intros; apply lower_of_slug_char).
    - rewrite Hslug. destruct team; [done|]. done. }
  destruct (proj2 (index_stems_is_Some md_files slug)) as [p Hp]; [by eauto|].
  exists p. split.
  - unfold find_summary. cbn [stems_to_paths build_index candidate_stems first_indexed].
    by rewrite <- Hstem, Hp.
  - apply index_stems_lookup in Hp as (before & after & -> & Hk & _).
    split; [|done]. set_solver.
Qed.

(** [agent_file_found] at the row of Auston Matthews. *)
Lemma agent_file_found_witness :
  ∃ pl, roster_player auston_row = Some pl
        ∧ agent_slug drop_non_ascii auston_row = team_slug pl ++ str "_" ++ player_slug pl
        ∧ agent_slug drop_non_ascii auston_row = str "toronto_maple_leafs_auston_matthews".
Proof.
  destruct (agent_file_found drop_non_ascii auston_row [str "player_summaries"] [])
    as (pl & H1 & H2 & _).
  - vm_compute. reflexivity.
  - vm_compute. reflexivity.
  - vm_compute. reflexivity.
  - vm_compute. reflexivity.
  - exists pl. split; [exact H1|]. split; [exact H2|]. vm_compute. reflexivity.
Defined.

(** ** The player field of the aggregate *)

Section DisplayName.
Context `{!Outside}.

Lemma spaced_no_separator (s : pystr) :
  ∀ b, Forall (fun c => c ≠ "_"%char ∧ c ≠ "-"%char) (spaced b s).
Proof.
  induction s as [|c s IH]; intros b; cbn [spaced]; [done|].
  destruct (Ascii.eqb c "_" || Ascii.eqb c "-") eqn:Hc.
  - destruct b; [apply IH|]. apply Forall_cons. split; [done | apply IH].
  - apply orb_false_iff in Hc as [H1%Ascii.eqb_neq H2%Ascii.eqb_neq].
    apply Forall_cons. split; [done | apply IH].
Qed.

Lemma alnum_slug_char (c : ascii) :
  PyStr.isalnum_ascii c = true →
  Ascii.eqb (slug_char c) "_" || Ascii.eqb (slug_char c) "-" = false.
Proof. destruct c as [[] [] [] [] [] [] [] []]; vm_compute; intros; done. Qed.

Lemma spaced_of_slug (s : pystr) :
  ∀ b in_run, spaced_words b s = true → (in_run = true → b = true) →
    spaced in_run (slug_char <$> s) = PyStr.lower s.
Proof.
  induction s as [|c s IH]; intros b in_run Hs Hrun; [done|].
  cbn [spaced_words] in Hs.
  cbn [PyStr.lower map spaced fmap list_fmap]. fold (PyStr.lower s).
  destruct (Ascii.eqb c " ") eqn:Hsp.
  - apply Ascii.eqb_eq in Hsp as ->.
    apply andb_prop in Hs as [Hb%negb_true_iff Hs].
    destruct in_run; [specialize (Hrun eq_refl); congruence|].
    cbn. f_equal. by apply (IH true true).
  - apply andb_prop in Hs as [Hc Hs]. rewrite (alnum_slug_char c Hc).
    destruct (alnum_facts c Hc) as (_ & _ & -> & _).
    f_equal. apply (IH false false); [done|]. intros; discriminate.
Qed.

Lemma display_name_of_slug (t : pystr) (dir : path) :
  plain t →
  display_name (PyPath.child dir ((slug_char <$> t) ++ str ".md")) = title (PyStr.lower t).
Proof.
  intros Ht. destruct (plain_head t Ht) as (c & t' & Heq & _).
  assert (spaced false (slug_char <$> t) = PyStr.lower t) as Hsp
    by (apply (spaced_of_slug t true false Ht); intros; discriminate).
  unfold display_name. rewrite stem_of_md by (by rewrite Heq).
  revert Hsp. rewrite Heq. cbn [fmap list_fmap]. by intros ->.
Qed.

(** X21. The player field of an aggregate holds no underscore and no
    hyphen before it is put in title case. For a summary named by the slug
    of a text made of words of ASCII letters and digits with single spaces
    between them, the field is the title case of that text in lower case;
    so for the summary under a row's first candidate stem it names the team
    before the player. *)
Theorem display_name_of_plain :
  (∀ p, Forall (fun c => c ≠ "_"%char ∧ c ≠ "-"%char) (spaced false (PyPath.stem p)))
  ∧ (∀ t dir, plain t →
       display_name (PyPath.child dir (_slugify t ++ str ".md")) = title (PyStr.lower t))
  ∧ (∀ row pl dir,
       roster_player row = Some pl →
       plain (team_name pl) → plain (first pl) → plain (last pl) →
       display_name
         (PyPath.child dir (team_slug pl ++ str "_" ++ player_slug pl ++ str ".md"))
       = title (PyStr.lower (team_name pl ++ str " " ++ first pl ++ str " " ++ last pl))).
Proof.
  split; [intros p; apply spaced_no_separator|]. split.
  - intros t dir Ht. destruct (plain_trimmed t Ht) as [_ Htrim].
    rewrite (slugify_trimmed t Htrim). by apply display_name_of_slug.
  - intros row pl dir Hpl Hteam Hfst Hlst.
    apply roster_player_Some in Hpl as (-> & _ & _ & _).
    cbn [team_name team_slug first last player_slug] in *.
    set (team := cell row (str "team_name") (str "Team")) in *.
    set (fst_ := cell row (str "firstName") (str "First")) in *.
    set (lst := cell row (str "lastName") (str "Last")) in *.
    destruct (plain_trimmed team Hteam) as [_ Hteam_trim].
    destruct (plain_trimmed fst_ Hfst) as [Hfst_ne [Hf _]].
    destruct (plain_trimmed lst Hlst) as [Hlst_ne [_ Hl]].
    assert (trimmed (fst_ ++ str "_" ++ lst)) as Hjoined.
    { split.
      - destruct fst_; [done|]. exact Hf.
      - rewrite !rev_app_distr. destruct (rev lst) as [|x r] eqn:Hrev; [|exact Hl].
        apply (f_equal (@rev ascii)) in Hrev. rewrite rev_involutive in Hrev. done. }
    assert (plain (team ++ str " " ++ fst_ ++ str " " ++ lst)) as Hall.
    { apply plain_join; [done|]. by apply plain_join. }
    rewrite <- (display_name_of_slug _ dir Hall).
    rewrite (slugify_trimmed team Hteam_trim), (slugify_trimmed _ Hjoined).
    f_equal. f_equal. rewrite !fmap_app, <- !app_assoc. reflexivity.
Qed.

End DisplayName.

(** [display_name_of_plain] at the summary of Auston Matthews, in
    surroundings whose title case changes nothing. *)
Lemma display_name_of_plain_witness :
  display_name (H := reference_outside)
    (PyPath.child [str "player_summaries"] (_slugify (str "Auston Matthews") ++ str ".md"))
  = str "auston matthews".
Proof.
  destruct (display_name_of_plain (H := reference_outside)) as (_ & Hplain & _).
  rewrite (Hplain (str "Auston Matthews") [str "player_summaries"]).
  - reflexivity.
  - vm_compute. reflexivity.
Defined.

(** ** The fenced block *)

Lemma lstrip_blank_app (w s : pystr) : blank w → PyStr.lstrip (w ++ s) = PyStr.lstrip s.
Proof.
  induction 1 as [|c w Hc Hw IH]; [done|].
  rewrite <- app_comm_cons. cbn [PyStr.lstrip]. by rewrite Hc.
Qed.

Lemma fence_not_after_text (b t : pystr) :
  "`"%char ∉ b →
  PyStr.startswith Re.fence_close (PyStr.lstrip (b ++ "}"%char :: t)) = false.
Proof.
  induction b as [|x b IH]; intros Hb; [reflexivity|].
  apply not_elem_of_cons in Hb as [Hx Hb].
  rewrite <- app_comm_cons. cbn [PyStr.lstrip].
  destruct (PyStr.isspace x); [by apply IH|].
  change Re.fence_close with ("`"%char :: str "``"). cbn [PyStr.startswith].
  destruct (Ascii.eqb "`" x) eqn:Hq; [|reflexivity].
  apply Ascii.eqb_eq in Hq. congruence.
Qed.

Lemma lazy_to_brace_body (body w post : pystr) :
  "`"%char ∉ body → blank w →
  Re.lazy_to_brace (body ++ "}"%char :: w ++ Re.fence_close ++ post)
  = Some (body ++ ["}"%char]).
Proof.
  intros Hbody Hw. induction body as [|c body IH].
  - cbn [app Re.lazy_to_brace]. rewrite lstrip_blank_app by done.
    change (PyStr.lstrip (Re.fence_close ++ post)) with (Re.fence_close ++ post).
    by rewrite startswith_app.
  - apply not_elem_of_cons in Hbody as [Hc Hbody].
    rewrite <- !app_comm_cons. cbn [Re.lazy_to_brace].
    rewrite fence_not_after_text by done. rewrite andb_false_r.
    by rewrite IH.
Qed.

Lemma search_fenced_here (s g : pystr) :
  Re.fenced_at s = Some g → Re.search_fenced s = Some g.
Proof. intros Hg. destruct s; cbn [Re.search_fenced]; by rewrite Hg. Qed.

Lemma search_fenced_skip (pre s : pystr) :
  "`"%char ∉ pre → Re.search_fenced (pre ++ s) = Re.search_fenced s.
Proof.
  induction pre as [|c pre IH]; intros Hpre; [done|].
  apply not_elem_of_cons in Hpre as [Hc Hpre].
  rewrite <- app_comm_cons. cbn [Re.search_fenced].
  assert (Re.fenced_at (c :: pre ++ s) = None) as ->.
  { unfold Re.fenced_at.
    change Re.fence_open with ("`"%char :: str "``json"). cbn [PyStr.startswith].
    destruct (Ascii.eqb "`" c) eqn:Hq; [|reflexivity].
    apply Ascii.eqb_eq in Hq. congruence. }
  by apply IH.
Qed.

Lemma search_fenced_block (pre w1 body w2 post : pystr) :
  "`"%char ∉ pre → "`"%char ∉ body → blank w1 → blank w2 →
  Re.search_fenced
    (pre ++ Re.fence_open ++ w1 ++ ("{"%char :: body ++ ["}"%char]) ++ w2
         ++ Re.fence_close ++ post)
  = Some ("{"%char :: body ++ ["}"%char]).
Proof.
  intros Hpre Hbody Hw1 Hw2.
  rewrite search_fenced_skip by done. apply search_fenced_here.
  unfold Re.fenced_at. rewrite startswith_app, drop_app_length.
  rewrite lstrip_blank_app by done.
  rewrite <- app_comm_cons, <- !app_assoc. cbn [PyStr.lstrip app].
  change (PyStr.isspace "{") with false. cbn match.
  rewrite Ascii.eqb_refl.
  by rewrite (lazy_to_brace_body body w2 post Hbody Hw2).
Qed.

Section FencedProps.
Context `{!Outside}.

(** X22. A reply that is not JSON as a whole and holds a block fenced as
    [json], in which an object from an opening to a closing brace stands
    between whitespace, yields the value of that object whenever the object
    is valid JSON, whatever braces the prose before and after the block
    holds; this is so when the prose before the block and the inside of the
    object hold no backtick. *)
Theorem fenced_object_recovered (pre w1 body w2 post : pystr) (v : pyval) :
  let obj := "{"%char :: body ++ ["}"%char] in
  let text := pre ++ Re.fence_open ++ w1 ++ obj ++ w2 ++ Re.fence_close ++ post in
  "`"%char ∉ pre → "`"%char ∉ body → blank w1 → blank w2 →
  json_loads text = None →
  json_loads obj = Some v →
  Re.search_fenced text = Some obj
  ∧ _extract_json_object text = Ok v.
Proof.
  intros obj text Hpre Hbody Hw1 Hw2 Hwhole Hobj.
  assert (Re.search_fenced text = Some obj) as Hfenced
    by by apply search_fenced_block.
  split; [done|].
  unfold _extract_json_object. rewrite Hwhole, Hfenced. cbn [mbind option_bind].
  by rewrite Hobj.
Qed.

End FencedProps.

(** [fenced_object_recovered] at a rating in a fenced block between prose
    that holds braces. *)
Lemma fenced_object_recovered_witness :
  Re.search_fenced fenced_reply = Some rating_json
  ∧ is_ok (_extract_json_object (H := reference_outside) fenced_reply) = true.
Proof.
  destruct (MiniJson.loads rating_json) as [v|] eqn:Hv; [|vm_compute in Hv; discriminate].
  destruct (fenced_object_recovered (H := reference_outside)
              (str "Here {as asked} it is:" ++ [newline]) [newline]
              (removelast (tail rating_json)) [newline]
              ([newline] ++ str "Anything {else}?") v) as [Hfenced Hvalue].
  - rewrite list_elem_of_In. vm_compute. intuition discriminate.
  - rewrite list_elem_of_In. vm_compute. intuition discriminate.
  - repeat constructor.
  - repeat constructor.
  - vm_compute. reflexivity.
  - exact Hv.
  - split; [exact Hfenced|]. unfold fenced_reply.
    change rating_json with ("{"%char :: removelast (tail rating_json) ++ ["}"%char]).
    by rewrite Hvalue.
Defined.
